(** * prose-critique: deterministic heuristics, tolerant parsing and
      orchestration, embedded in Rocq

    The development follows the Python sources module by module:
    - [PyStr]         the fragment of Python's [str] and [re] the code relies on;
    - [Repetition]    the repetition passes of [modules/utils/heuristics.py];
    - [Segmentation]  [modules/utils/segmentation.py];
    - [Readability], [Coreference]
                      the other heuristics of [modules/utils/heuristics.py];
    - [JsonText], [Regex], [ExtractJson]
                      [extract_json] of [modules/llm_client.py], with the
                      grammar of [json.loads] and a matcher for its two
                      regular expressions;
    - [Client]        [LLMClient.chat]: cache, retries and back-off;
    - [Json], [Coercion]
                      decoded replies and [_dict_to_primary] /
                      [_dict_to_audit] of the two agents;
    - [Orchestrator]  [Orchestrator.run], in a state and error monad over
                      the trace of effects.
    The properties follow the definitions, one module of facts for each.

    Text is modelled as a list of ASCII characters.  Character classes of
    [re] ([\w], [\s], [\b]) and of [str] ([lower], [strip]) are the ASCII
    restrictions of Python's Unicode-aware ones; the Russian tables of
    the sources are kept as UTF-8 byte strings, which no ASCII token
    equals. *)

From Stdlib Require Import String Ascii ZArith QArith Qround Lia Bool DecimalString.
From stdpp Require Import gmap strings.
From Stdlib Require Import List Sorted.
Import ListNotations.

#[local] Open Scope nat_scope.

(* ================================================================== *)
(** * Python strings *)
(* ================================================================== *)

Module PyStr.

(** A Python [str]: a sequence of characters. *)
Definition pystr := list ascii.

(** Literals are written [py "text"]. *)
Definition py (s : string) : pystr := list_ascii_of_string s.

Definition code (c : ascii) : nat := nat_of_ascii c.

Definition in_range (lo hi : nat) (c : ascii) : bool :=
  (lo <=? code c) && (code c <=? hi).

Definition is_upper (c : ascii) : bool := in_range 65 90 c.
Definition is_lower (c : ascii) : bool := in_range 97 122 c.
Definition is_digit (c : ascii) : bool := in_range 48 57 c.

(** [\w] of [re] on ASCII text: letters, digits and the underscore. *)
Definition is_word (c : ascii) : bool :=
  is_upper c || is_lower c || is_digit c || (code c =? 95).

(** [\s] of [re] and the characters removed by [str.strip()]:
    TAB, LF, VT, FF, CR, the four separators FS..US and the space. *)
Definition is_space (c : ascii) : bool :=
  in_range 9 13 c || in_range 28 32 c.

Definition lower_char (c : ascii) : ascii :=
  if is_upper c then ascii_of_nat (code c + 32) else c.

(** [s.lower()] *)
Definition lower (s : pystr) : pystr := map lower_char s.

Fixpoint lstrip (s : pystr) : pystr :=
  match s with
  | c :: s' => if is_space c then lstrip s' else s
  | [] => []
  end.

Definition rstrip (s : pystr) : pystr := rev (lstrip (rev s)).

(** [s.strip()] *)
Definition strip (s : pystr) : pystr := rstrip (lstrip s).

Fixpoint str_eqb (a b : pystr) : bool :=
  match a, b with
  | [], [] => true
  | x :: a', y :: b' => Ascii.eqb x y && str_eqb a' b'
  | _, _ => false
  end.

(** [w in table] for a set or frozenset of strings. *)
Definition mem (w : pystr) (table : list pystr) : bool :=
  existsb (str_eqb w) table.

(** [sep.join(parts)] *)
Fixpoint join (sep : pystr) (parts : list pystr) : pystr :=
  match parts with
  | [] => []
  | [p] => p
  | p :: rest => p ++ sep ++ join sep rest
  end.

(** [s.startswith(p)] *)
Fixpoint startswith (p s : pystr) : bool :=
  match p, s with
  | [], _ => true
  | x :: p', y :: s' => Ascii.eqb x y && startswith p' s'
  | _ :: _, [] => false
  end.

(** [s.endswith(p)] *)
Definition endswith (p s : pystr) : bool := startswith (rev p) (rev s).

(** [re.findall(r'\b\w+\b', s)]: scanning from the left, a match starts
    where a word character follows a non-word character (or the start)
    and, [\w+] being greedy and [\b] requiring a boundary after it, runs
    to the end of that maximal run of word characters.  [cur] holds the
    run being read, last character first. *)
Fixpoint findall_words_from (cur : pystr) (s : pystr) : list pystr :=
  match s with
  | [] => match cur with [] => [] | _ => [rev cur] end
  | c :: s' =>
      if is_word c then findall_words_from (c :: cur) s'
      else match cur with
           | [] => findall_words_from [] s'
           | _ => rev cur :: findall_words_from [] s'
           end
  end.

Definition findall_words (s : pystr) : list pystr := findall_words_from [] s.

(** [l[i:j]] for [0 <= i] and [0 <= j]. *)
Definition slice {A} (l : list A) (i j : nat) : list A :=
  firstn (j - i) (skipn i l).

End PyStr.

Import PyStr.

(* ================================================================== *)
(** * modules/utils/heuristics.py: repetition detection *)
(* ================================================================== *)

Module Repetition.

(** [modules.models.RepetitionItem] *)
Record RepetitionItem := mkRepetitionItem {
  phrase : pystr;
  count : nat;
  locations : list nat
}.

Definition _STOP_WORDS_EN : list pystr := map py [
  "the"; "a"; "an"; "is"; "are"; "was"; "were"; "be"; "been"; "being";
  "have"; "has"; "had"; "do"; "does"; "did"; "will"; "would"; "shall";
  "should"; "may"; "might"; "must"; "can"; "could"; "to"; "of"; "in";
  "for"; "on"; "with"; "at"; "by"; "from"; "as"; "into"; "through";
  "during"; "before"; "after"; "above"; "below"; "between"; "out";
  "off"; "over"; "under"; "again"; "further"; "then"; "once"; "and";
  "but"; "or"; "nor"; "not"; "no"; "so"; "if"; "it"; "its"; "this";
  "that"; "these"; "those"; "he"; "she"; "they"; "we"; "you"; "i";
  "me"; "him"; "her"; "us"; "them"; "my"; "your"; "his"; "our";
  "their"; "what"; "which"; "who"; "whom"; "how"; "when"; "where";
  "why"; "all"; "each"; "every"; "both"; "few"; "more"; "most";
  "other"; "some"; "such"; "only"; "own"; "same"; "than"; "too";
  "very"; "just"; "about"; "up" ]%string.

Definition _STOP_WORDS_RU : list pystr := map py [
  "и"; "в"; "на"; "с"; "не"; "что"; "он"; "она"; "они"; "мы"; "вы";
  "я"; "это"; "но"; "по"; "к"; "из"; "у"; "за"; "от"; "до"; "о";
  "же"; "ли"; "бы"; "да"; "нет"; "так"; "как"; "все"; "был"; "была";
  "было"; "были"; "быть"; "его"; "её"; "их"; "ее"; "мой"; "мне";
  "мной"; "тот"; "та"; "то"; "те"; "этот"; "эта"; "эти"; "этого";
  "для"; "при"; "через"; "после"; "перед"; "между"; "во"; "со";
  "уже"; "ещё"; "еще"; "тоже"; "также"; "только"; "если"; "чем";
  "когда"; "где"; "кто"; "чей"; "свой"; "себя"; "сам"; "сама";
  "весь"; "вся"; "всё"; "вот"; "ни"; "даже" ]%string.

(** [_STOP_WORDS_RU if language == "ru" else _STOP_WORDS_EN] *)
Definition stop_words (language : pystr) : list pystr :=
  if str_eqb language (py "ru") then _STOP_WORDS_RU else _STOP_WORDS_EN.

(** The dictionaries [ngram_locations] and [word_locs]: Python keeps the
    keys in order of first insertion, and [items()] walks them in that
    order, which the stable sort and the truncation below depend on. *)
Definition locdict := list (pystr * list nat).

(** [d.setdefault(key, []).append(pi)] *)
Fixpoint setdefault_append (key : pystr) (pi : nat) (d : locdict) : locdict :=
  match d with
  | [] => [(key, [pi])]
  | (k, locs) :: d' =>
      if str_eqb k key then (k, locs ++ [pi]) :: d'
      else (k, locs) :: setdefault_append key pi d'
  end.

(** Insertion into a strictly increasing list. *)
Fixpoint insert_uniq (x : nat) (l : list nat) : list nat :=
  match l with
  | [] => [x]
  | y :: l' =>
      if x <? y then x :: l
      else if x =? y then l
      else y :: insert_uniq x l'
  end.

(** [sorted(set(locs))] *)
Definition sorted_set (locs : list nat) : list nat :=
  fold_right insert_uniq [] locs.

(** [results.sort(key=lambda r: r.count, reverse=True)]: Python's sort is
    stable, also under [reverse=True]; items of equal count keep their
    order. *)
Fixpoint insert_by_count (r : RepetitionItem) (l : list RepetitionItem)
  : list RepetitionItem :=
  match l with
  | [] => [r]
  | r' :: l' =>
      if count r' <=? count r then r :: l
      else r' :: insert_by_count r l'
  end.

Definition sort_by_count_desc (l : list RepetitionItem) : list RepetitionItem :=
  fold_right insert_by_count [] l.

(** The loop [for phrase, locs in d.items(): if len(locs) >= min_count: ...] *)
Definition collect (min_count : nat) (d : locdict) : list RepetitionItem :=
  map (fun kv => mkRepetitionItem (fst kv) (length (snd kv)) (sorted_set (snd kv)))
      (filter (fun kv => min_count <=? length (snd kv)) d).

(** One step of the innermost loop of [detect_repetitions]: the window
    of [n] words at position [i]. *)
Definition ngram_step (stop : list pystr) (words : list pystr) (n pi : nat)
  (d : locdict) (i : nat) : locdict :=
  let gram := slice words i (i + n) in
  if forallb (fun w => mem w stop) gram then d
  else setdefault_append (join (py " ") gram) pi d.

(** [for i in range(len(words) - n + 1)] *)
Definition ngram_size_loop (stop : list pystr) (words : list pystr) (pi : nat)
  (d : locdict) (n : nat) : locdict :=
  fold_left (ngram_step stop words n pi) (seq 0 (length words + 1 - n)) d.

(** The body of [for pi, para in enumerate(paragraphs)] *)
Definition ngram_para_loop (stop : list pystr) (ngram_sizes : list nat)
  (d : locdict) (ip : nat * pystr) : locdict :=
  let words := findall_words (lower (snd ip)) in
  fold_left (ngram_size_loop stop words (fst ip)) ngram_sizes d.

(** [enumerate(l)] *)
Definition enumerate {A} (l : list A) : list (nat * A) :=
  combine (seq 0 (length l)) l.

Definition ngram_locations (paragraphs : list pystr) (language : pystr)
  (ngram_sizes : list nat) : locdict :=
  fold_left (ngram_para_loop (stop_words language) ngram_sizes)
            (enumerate paragraphs) [].

(** [detect_repetitions(paragraphs, language, min_count, ngram_sizes)] *)
Definition detect_repetitions (paragraphs : list pystr) (language : pystr)
  (min_count : nat) (ngram_sizes : list nat) : list RepetitionItem :=
  firstn 30 (sort_by_count_desc
               (collect min_count (ngram_locations paragraphs language ngram_sizes))).

(** The body of [for w in words] in [detect_word_repetitions]. *)
Definition word_step (stop : list pystr) (pi : nat) (d : locdict) (w : pystr)
  : locdict :=
  if mem w stop || (length w <? 3) then d else setdefault_append w pi d.

Definition word_para_loop (stop : list pystr) (d : locdict) (ip : nat * pystr)
  : locdict :=
  fold_left (word_step stop (fst ip)) (findall_words (lower (snd ip))) d.

Definition word_locs (paragraphs : list pystr) (language : pystr) : locdict :=
  fold_left (word_para_loop (stop_words language)) (enumerate paragraphs) [].

(** [detect_word_repetitions(paragraphs, language, min_count)] *)
Definition detect_word_repetitions (paragraphs : list pystr) (language : pystr)
  (min_count : nat) : list RepetitionItem :=
  firstn 20 (sort_by_count_desc (collect min_count (word_locs paragraphs language))).

(** ** Occurrence counts, stated independently of the dictionary *)

(** The windows of [n] consecutive words of a paragraph, left to right. *)
Definition windows (words : list pystr) (n : nat) : list (list pystr) :=
  map (fun i => slice words i (i + n)) (seq 0 (length words + 1 - n)).

(** The phrases one paragraph contributes: for every size, every window
    that is not made of stop-words only, joined by single spaces. *)
Definition recorded_grams (stop : list pystr) (ngram_sizes : list nat)
  (para : pystr) : list pystr :=
  flat_map (fun n =>
              map (join (py " "))
                  (filter (fun g => negb (forallb (fun w => mem w stop) g))
                          (windows (findall_words (lower para)) n)))
           ngram_sizes.

(** The words one paragraph contributes to the word pass. *)
Definition recorded_words (stop : list pystr) (para : pystr) : list pystr :=
  filter (fun w => negb (mem w stop || (length w <? 3)))
         (findall_words (lower para)).

(** Number of times [p] occurs in a list of recorded phrases. *)
Definition occ (p : pystr) (recorded : list pystr) : nat :=
  length (filter (str_eqb p) recorded).

(** Indices of the paragraphs in which [p] is recorded at least once. *)
Definition paragraphs_with (p : pystr) (record : pystr -> list pystr)
  (paragraphs : list pystr) : list nat :=
  map fst (filter (fun ip => 0 <? occ p (record (snd ip))) (enumerate paragraphs)).

(** Total number of recorded occurrences of [p] in the document. *)
Definition occurrences (p : pystr) (record : pystr -> list pystr)
  (paragraphs : list pystr) : nat :=
  list_sum (map (fun para => occ p (record para)) paragraphs).

(** ** The dictionary as a fold over recorded occurrences *)

(** [d.get(k, [])] *)
Fixpoint get0 (k : pystr) (d : locdict) : list nat :=
  match d with
  | [] => []
  | (k', locs) :: d' => if str_eqb k' k then locs else get0 k d'
  end.

(** One recorded occurrence: the phrase and the paragraph index. *)
Definition event := (pystr * nat)%type.

Definition record_event (d : locdict) (e : event) : locdict :=
  setdefault_append (fst e) (snd e) d.

Definition locs_of (k : pystr) (evs : list event) : list nat :=
  map snd (filter (fun e => str_eqb k (fst e)) evs).

(** The occurrences a paragraph records, tagged with its index. *)
Definition tag (pi : nat) (keys : list pystr) : list event :=
  map (fun k => (k, pi)) keys.

Definition events (record : pystr -> list pystr) (paragraphs : list (nat * pystr))
  : list event :=
  flat_map (fun ip => tag (fst ip) (record (snd ip))) paragraphs.

End Repetition.

(* ================================================================== *)
(** * modules/utils/segmentation.py *)
(* ================================================================== *)

Module Segmentation.

(** The optional third-party tokenizer [razdel]: its two entry points,
    each returning the texts of the pieces it finds. *)
Record razdel_lib := {
  sentenize : pystr -> list pystr;
  tokenize : pystr -> list pystr
}.

(** ASCII members of the look-behind class of [_SENTENCE_SPLIT]
    (full stop, exclamation mark, question mark, double quote). *)
Definition is_terminator (c : ascii) : bool :=
  (code c =? 46) || (code c =? 33) || (code c =? 63) || (code c =? 34).

(** ASCII members of its look-ahead class (A-Z and the double quote). *)
Definition is_starter (c : ascii) : bool :=
  is_upper c || (code c =? 34).

Definition last_is_terminator (cur : pystr) : bool :=
  match cur with
  | c :: _ => is_terminator c
  | [] => false
  end.

(** [_SENTENCE_SPLIT.split(text)].  A match of the pattern is a maximal
    run of white space that follows a terminator and is followed by a
    starter.  [cur] is the piece being read and [pend] the white space
    read after a terminator, both last character first. *)
Fixpoint re_split_sentences (cur pend : pystr) (s : pystr) : list pystr :=
  match s with
  | [] => [rev (pend ++ cur)]
  | c :: s' =>
      match pend with
      | [] =>
          if is_space c && last_is_terminator cur
          then re_split_sentences cur [c] s'
          else re_split_sentences (c :: cur) [] s'
      | _ :: _ =>
          if is_space c then re_split_sentences cur (c :: pend) s'
          else if is_starter c then rev cur :: re_split_sentences [c] [] s'
          else re_split_sentences (c :: pend ++ cur) [] s'
      end
  end.

Definition _ABBREVIATIONS : list pystr := map py [
  "mr."; "mrs."; "ms."; "dr."; "prof."; "sr."; "jr.";
  "т.е."; "т.д."; "т.п."; "др."; "гг."; "г."; "стр.";
  "и.о."; "напр."; "ок." ]%string.

(** The state of the merging loop: the sentences appended so far and
    the buffer. *)
Definition merge_step (st : list pystr * pystr) (part : pystr)
  : list pystr * pystr :=
  let '(sentences, buffer) := st in
  let part := strip part in
  match part with
  | [] => st
  | _ :: _ =>
      match buffer with
      | [] => (sentences, part)
      | _ :: _ =>
          if existsb (fun abbr => endswith abbr (lower buffer)) _ABBREVIATIONS
          then (sentences, buffer ++ py " " ++ part)
          else (sentences ++ [buffer], part)
      end
  end.

Definition nonempty (s : pystr) : bool :=
  match s with [] => false | _ :: _ => true end.

Section WithRazdel.

(** [Some lib] when [import razdel] succeeded ([_HAS_RAZDEL]). *)
Variable razdel : option razdel_lib.

(** [split_sentences(text)] *)
Definition split_sentences (text : pystr) : list pystr :=
  let text := strip text in
  match text with
  | [] => []
  | _ :: _ =>
      match razdel with
      | Some lib =>
          map strip (filter (fun s => nonempty (strip s)) (sentenize lib text))
      | None =>
          let '(sentences, buffer) :=
            fold_left merge_step (re_split_sentences [] [] text) ([], []) in
          match buffer with
          | [] => sentences
          | _ :: _ => sentences ++ [buffer]
          end
      end
  end.

(** [tokenize_words(text)]; [re.match(r'\w', t)] tests the first
    character. *)
Definition tokenize_words (text : pystr) : list pystr :=
  match razdel with
  | Some lib =>
      filter (fun t => match t with c :: _ => is_word c | [] => false end)
             (tokenize lib text)
  | None => findall_words text
  end.

(** [count_words(text)] *)
Definition count_words (text : pystr) : nat := length (tokenize_words text).

End WithRazdel.

End Segmentation.

(* ================================================================== *)
(** * Python floats *)
(* ================================================================== *)

(** The operations on [float] that the sources use.  Their rounding is
    left to the instance; the computations below only fix which
    operations are applied to which operands. *)
(** The three ways [int(x)] ends on a float: a value, [ValueError] (on
    NaN) or [OverflowError] (on an infinity). *)
Inductive int_conversion :=
| IntValue (z : Z)
| IntValueError
| IntOverflowError.

Class PyFloat (F : Type) := {
  (** a decimal literal of the source, given by its exact value *)
  f_lit : Q -> F;
  (** [a / b] for two integers ([b] not zero) *)
  f_truediv : Z -> Z -> F;
  f_sub : F -> F -> F;
  f_mul : F -> F -> F;
  (** [round(x, ndigits)] *)
  f_round : F -> nat -> F;
  (** [x == y] *)
  f_eqb : F -> F -> bool;
  (** [float(n)] for an integer; [None] when it raises [OverflowError] *)
  f_of_int : Z -> option F;
  (** [float(s)] for a string; [None] when it raises [ValueError] *)
  f_of_str : list ascii -> option F;
  (** [int(x)] for a float *)
  f_to_int : F -> int_conversion
}.

(** Exact rational arithmetic, used to run the model on examples;
    [round] is to the nearest multiple of [10^-n], halves upwards. *)
Definition Q_round (x : Q) (n : nat) : Q :=
  let scale := (10 ^ Z.of_nat n)%Z in
  Qmake (Qfloor (x * inject_Z scale + (1 # 2))%Q) (Z.to_pos scale).

(** Decimal digits only; enough for the examples. *)
Fixpoint Q_of_digits (acc : Z) (s : list ascii) : option Q :=
  match s with
  | [] => Some (inject_Z acc)
  | c :: s' =>
      if PyStr.is_digit c
      then Q_of_digits (10 * acc + Z.of_nat (PyStr.code c - 48)) s'
      else None
  end.

#[export] Instance QFloat : PyFloat Q := {
  f_lit := fun q => q;
  f_truediv := fun a b => (inject_Z a / inject_Z b)%Q;
  f_sub := Qminus;
  f_mul := Qmult;
  f_round := Q_round;
  f_eqb := Qeq_bool;
  f_of_int := fun z => Some (inject_Z z);
  f_of_str := fun s => match s with [] => None | _ :: _ => Q_of_digits 0 s end;
  f_to_int := fun x => IntValue (Z.quot (Qnum x) (Z.pos (Qden x)))
}.

(* ================================================================== *)
(** * modules/utils/heuristics.py: readability *)
(* ================================================================== *)

Module Readability.
Import Segmentation.

Section WithFloat.

Context {F : Type} `{PyFloat F}.
Variable razdel : option razdel_lib.

(** [modules.models.ReadabilityMetrics] *)
Record ReadabilityMetrics := mkReadabilityMetrics {
  avg_sentence_length : F;
  avg_word_length : F;
  long_sentence_count : nat;
  very_long_sentence_count : nat;
  vocabulary_richness : F;
  flesch_reading_ease : option F
}.

(** [ReadabilityMetrics()]: every field at its default. *)
Definition default_metrics : ReadabilityMetrics :=
  mkReadabilityMetrics (f_lit 0) (f_lit 0) 0 0 (f_lit 0) None.

Definition is_vowel (c : ascii) : bool := mem [c] (map py ["a"; "e"; "i"; "o"; "u"; "y"]%string).

(** The loop of [_count_syllables] over the characters: the count and
    [prev_vowel]. *)
Definition syllable_step (st : nat * bool) (ch : ascii) : nat * bool :=
  let '(count, prev_vowel) := st in
  let v := is_vowel ch in
  (if v && negb prev_vowel then count + 1 else count, v).

(** [_count_syllables(word, language)].  The Russian branch counts the
    characters found in a string of Cyrillic and Latin vowels, of which
    an ASCII character can only be one of the Latin ones. *)
Definition _count_syllables (word language : pystr) : nat :=
  let word := strip (lower word) in
  match word with
  | [] => 0
  | _ :: _ =>
      if str_eqb language (py "ru") then length (filter is_vowel word)
      else
        let count := fst (fold_left syllable_step word (0, false)) in
        let count := if endswith (py "e") word && (1 <? count) then count - 1 else count in
        Nat.max count 1
  end.

(** [len(set(w.lower() for w in words))] *)
Fixpoint dedup (l : list pystr) : list pystr :=
  match l with
  | [] => []
  | x :: l' => if mem x l' then dedup l' else x :: dedup l'
  end.

(** The closed form of the reading-ease score before rounding. *)
Definition flesch_formula (word_count sentence_count total_syllables : nat) : F :=
  f_sub (f_sub (f_lit 206.835)
               (f_mul (f_lit 1.015)
                      (f_truediv (Z.of_nat word_count) (Z.of_nat sentence_count))))
        (f_mul (f_lit 84.6)
               (f_truediv (Z.of_nat total_syllables) (Z.of_nat word_count))).

(** [compute_readability(text, language)] *)
Definition compute_readability (text language : pystr) : ReadabilityMetrics :=
  let sentences := split_sentences razdel text in
  let words := findall_words text in
  match words, sentences with
  | [], _ | _, [] => default_metrics
  | _ :: _, _ :: _ =>
      let word_count := length words in
      let sentence_count := length sentences in
      let avg_sentence_length :=
        f_truediv (Z.of_nat word_count) (Z.of_nat sentence_count) in
      let syllable_counts := map (fun w => _count_syllables w language) words in
      let total_syllables := list_sum syllable_counts in
      let avg_word_length :=
        f_truediv (Z.of_nat (list_sum (map (@length ascii) words)))
                  (Z.of_nat word_count) in
      let sent_lengths := map (count_words razdel) sentences in
      let long_count := length (filter (fun sl => 25 <? sl) sent_lengths) in
      let very_long_count := length (filter (fun sl => 40 <? sl) sent_lengths) in
      let unique_words := length (dedup (map lower words)) in
      let vocab_richness :=
        if 0 <? word_count
        then f_truediv (Z.of_nat unique_words) (Z.of_nat word_count)
        else f_lit 0 in
      let flesch :=
        if str_eqb language (py "en") && (0 <? sentence_count) && (0 <? word_count)
        then Some (f_round (flesch_formula word_count sentence_count total_syllables) 1)
        else None in
      mkReadabilityMetrics (f_round avg_sentence_length 1)
                           (f_round avg_word_length 2)
                           long_count very_long_count
                           (f_round vocab_richness 4)
                           flesch
  end.

End WithFloat.

End Readability.

(* ================================================================== *)
(** * modules/utils/heuristics.py: coreference flags *)
(* ================================================================== *)

Module Coreference.
Import Segmentation Repetition.

(** [modules.models.CoreferenceFlag] *)
Record CoreferenceFlag := mkCoreferenceFlag {
  pronoun : pystr;
  paragraph_index : nat;
  sentence_index : nat;
  context : pystr;
  issue : pystr
}.

Definition _PRONOUNS_EN : list pystr := map py [
  "he"; "she"; "it"; "they"; "him"; "her"; "them"; "his"; "its"; "their" ]%string.

Definition _PRONOUNS_RU : list pystr := map py [
  "он"; "она"; "оно"; "они"; "его"; "её"; "ее"; "их"; "ему"; "ей"; "им";
  "ним"; "ней"; "них" ]%string.

Definition _CAPITALIZED_PRONOUNS_EN : list pystr := map py [
  "He"; "She"; "It"; "They"; "Him"; "Her"; "Them"; "His"; "Its"; "Their";
  "The"; "This"; "That"; "These"; "Those"; "There"; "Here";
  "My"; "Your"; "Our"; "We"; "You"; "I";
  "What"; "Which"; "Who"; "How"; "When"; "Where"; "Why";
  "And"; "But"; "Or"; "So"; "If"; "As"; "In"; "On"; "At"; "To"; "For";
  "Not"; "No"; "Yes" ]%string.

Definition _CAPITALIZED_PRONOUNS_RU : list pystr := map py [
  "Он"; "Она"; "Оно"; "Они"; "Его"; "Её"; "Ее"; "Их"; "Ему"; "Ей";
  "Им"; "Ним"; "Ней"; "Них"; "Это"; "Тот"; "Та"; "То"; "Те";
  "Мой"; "Мне"; "Мой"; "Мне"; "Ваш"; "Наш"; "Мы"; "Вы"; "Я";
  "Что"; "Кто"; "Как"; "Где"; "Когда"; "Зачем"; "Почему";
  "И"; "Но"; "Или"; "Если"; "Да"; "Нет"; "Вот"; "Уже" ]%string.

(** A whole word of the shape [[A-Z][a-z]+]. *)
Definition capitalized (w : pystr) : bool :=
  match w with
  | c :: rest =>
      match rest with
      | [] => false
      | _ :: _ => is_upper c && forallb is_lower rest
      end
  | [] => false
  end.

(** [_NOUNS_HINT_EN.findall(text)] for the pattern [\b[A-Z][a-z]+\b]: a
    match starts at the first character of a maximal run of word
    characters and, ending at a word boundary, covers the whole run. *)
Definition _NOUNS_HINT_EN (text : pystr) : list pystr :=
  filter capitalized (findall_words text).

(** [_NOUNS_HINT_RU.findall(text)]: both classes of the pattern hold
    Cyrillic letters only, so nothing in an ASCII text matches. *)
Definition _NOUNS_HINT_RU (text : pystr) : list pystr := [].

Definition is_ru (language : pystr) : bool := str_eqb language (py "ru").

(** The two explanatory messages (f-strings of the source). *)
Definition issue_very_start (pn : pystr) : pystr :=
  py "Pronoun '" ++ pn ++ py "' appears at the very start with no prior antecedent".

Definition issue_early (pn : pystr) : pystr :=
  py "Pronoun '" ++ pn ++ py "' appears early with no clear antecedent in context".

Section WithRazdel.

Variable razdel : option razdel_lib.

(** [[w for w in words if w in pronouns]] for one sentence. *)
Definition sent_pronouns (language sent : pystr) : list pystr :=
  let pronouns := if is_ru language then _PRONOUNS_RU else _PRONOUNS_EN in
  filter (fun w => mem w pronouns) (findall_words (lower sent)).

(** [nouns_in_context] for the sentence at index [si] of [sents]. *)
Definition nouns_in_context (language : pystr) (window : nat)
  (sents : list pystr) (si : nat) : list pystr :=
  let noun_pat := if is_ru language then _NOUNS_HINT_RU else _NOUNS_HINT_EN in
  let non_nouns :=
    if is_ru language then _CAPITALIZED_PRONOUNS_RU else _CAPITALIZED_PRONOUNS_EN in
  let context_start := si - window in
  let context_end := Nat.min (length sents) (si + window + 1) in
  let context_text := join (py " ") (slice sents context_start context_end) in
  filter (fun m => negb (mem m non_nouns)) (noun_pat context_text).

(** The flags appended while visiting sentence [si] of paragraph [pi]. *)
Definition sentence_flags (language : pystr) (window : nat) (pi : nat)
  (sents : list pystr) (isent : nat * pystr) : list CoreferenceFlag :=
  let '(si, sent) := isent in
  let prons := sent_pronouns language sent in
  match prons with
  | [] => []
  | _ :: _ =>
      match nouns_in_context language window sents si with
      | [] =>
          if (pi =? 0) && (si =? 0) then
            map (fun pn => mkCoreferenceFlag pn pi si (firstn 100 sent)
                             (issue_very_start pn)) prons
          else if (pi =? 0) && (si <=? 1) then
            map (fun pn => mkCoreferenceFlag pn pi si (firstn 100 sent)
                             (issue_early pn)) prons
          else []
      | _ :: _ => []
      end
  end.

Definition paragraph_flags (language : pystr) (window : nat)
  (ipara : nat * pystr) : list CoreferenceFlag :=
  let sents := split_sentences razdel (snd ipara) in
  flat_map (sentence_flags language window (fst ipara) sents) (enumerate sents).

(** [detect_coreference_flags(paragraphs, language, window)] *)
Definition detect_coreference_flags (paragraphs : list pystr)
  (language : pystr) (window : nat) : list CoreferenceFlag :=
  firstn 20 (flat_map (paragraph_flags language window) (enumerate paragraphs)).

End WithRazdel.

End Coreference.

(* ================================================================== *)
(** * json.loads: which texts parse *)
(* ================================================================== *)

(** [json.loads(s)] of the Python standard library, as far as the
    sources depend on it: whether the call returns or raises
    [JSONDecodeError].  The recognizer follows [json.decoder] and
    [json.scanner] in their default, strict configuration.  Each function
    returns the input left after what it has read. *)
Module JsonText.

Definition ch_quote : ascii := ascii_of_nat 34.
Definition ch_backslash : ascii := ascii_of_nat 92.
Definition ch_newline : ascii := ascii_of_nat 10.
Definition ch_backtick : ascii := ascii_of_nat 96.
Definition ch_lbrace : ascii := ascii_of_nat 123.
Definition ch_rbrace : ascii := ascii_of_nat 125.
Definition ch_lbracket : ascii := ascii_of_nat 91.
Definition ch_rbracket : ascii := ascii_of_nat 93.
Definition ch_colon : ascii := ascii_of_nat 58.
Definition ch_comma : ascii := ascii_of_nat 44.

Definition is_ch (c d : ascii) : bool := Ascii.eqb c d.

(** [WHITESPACE]: space, TAB, LF, CR. *)
Definition is_json_ws (c : ascii) : bool :=
  (code c =? 32) || (code c =? 9) || (code c =? 10) || (code c =? 13).

Fixpoint skip_ws (s : pystr) : pystr :=
  match s with
  | c :: s' => if is_json_ws c then skip_ws s' else s
  | [] => []
  end.

Definition is_hex (c : ascii) : bool :=
  is_digit c || in_range 65 70 c || in_range 97 102 c.

(** The characters of [BACKSLASH]: quote, backslash, slash, b f n r t. *)
Definition is_simple_escape (c : ascii) : bool :=
  is_ch c ch_quote || is_ch c ch_backslash || (code c =? 47) ||
  (code c =? 98) || (code c =? 102) || (code c =? 110) ||
  (code c =? 114) || (code c =? 116).

(** [scanstring(s, end, strict=True)], entered after the opening quote. *)
Fixpoint scan_string (s : pystr) : option pystr :=
  match s with
  | [] => None
  | c :: s' =>
      if is_ch c ch_quote then Some s'
      else if is_ch c ch_backslash then
        match s' with
        | [] => None
        | e :: s'' =>
            if code e =? 117 then
              match s'' with
              | h1 :: h2 :: h3 :: h4 :: r =>
                  if is_hex h1 && is_hex h2 && is_hex h3 && is_hex h4
                  then scan_string r else None
              | _ => None
              end
            else if is_simple_escape e then scan_string s'' else None
        end
      else if code c <? 32 then None
      else scan_string s'
  end.

Fixpoint skip_digits (s : pystr) : pystr :=
  match s with
  | c :: s' => if is_digit c then skip_digits s' else s
  | [] => []
  end.

(** The optional groups [(\.[0-9]+)?([eE][-+]?[0-9]+)?] of [NUMBER_RE]. *)
Definition skip_frac (s : pystr) : pystr :=
  match s with
  | dot :: d :: r => if (code dot =? 46) && is_digit d then skip_digits r else s
  | _ => s
  end.

Definition skip_sign (s : pystr) : pystr :=
  match s with
  | c :: r => if (code c =? 43) || (code c =? 45) then r else s
  | [] => []
  end.

Definition skip_exp (s : pystr) : pystr :=
  match s with
  | e :: r =>
      if (code e =? 101) || (code e =? 69) then
        match skip_sign r with
        | d :: r' => if is_digit d then skip_digits r' else s
        | [] => s
        end
      else s
  | [] => []
  end.

(** [NUMBER_RE.match]: an optional minus sign, then a single zero or a
    non-zero digit followed by digits, then the two optional groups. *)
Definition scan_number (s : pystr) : option pystr :=
  let s1 := match s with
            | c :: r => if code c =? 45 then r else s
            | [] => []
            end in
  match s1 with
  | d :: r =>
      if code d =? 48 then Some (skip_exp (skip_frac r))
      else if is_digit d then Some (skip_exp (skip_frac (skip_digits r)))
      else None
  | [] => None
  end.

(** [s[idx:idx+len(word)] == word] *)
Fixpoint drop_prefix (word s : pystr) : option pystr :=
  match word, s with
  | [], _ => Some s
  | x :: word', y :: s' => if Ascii.eqb x y then drop_prefix word' s' else None
  | _ :: _, [] => None
  end.

(** The constants of [scan_once], tried in its order around the number. *)
Definition scan_constant (s : pystr) : option pystr :=
  match drop_prefix (py "null") s with Some r => Some r | None =>
  match drop_prefix (py "true") s with Some r => Some r | None =>
  match drop_prefix (py "false") s with Some r => Some r | None =>
  match scan_number s with Some r => Some r | None =>
  match drop_prefix (py "NaN") s with Some r => Some r | None =>
  match drop_prefix (py "Infinity") s with Some r => Some r | None =>
  drop_prefix (py "-Infinity") s
  end end end end end end.

(** [scan_once], [JSONObject] and [JSONArray].  Python recurses on the
    nesting of the text; [fuel] bounds that recursion here, and every
    call is on a shorter text, so the length of the text is enough.
    [scan_members] is entered after the opening quote of a key and
    [scan_elements] at the start of an element. *)
Fixpoint scan_value (fuel : nat) (s : pystr) : option pystr :=
  match fuel with
  | 0 => None
  | S fuel' =>
      match s with
      | [] => None
      | c :: r =>
          if is_ch c ch_quote then scan_string r
          else if is_ch c ch_lbrace then
            match skip_ws r with
            | c1 :: r1 =>
                if is_ch c1 ch_rbrace then Some r1
                else if is_ch c1 ch_quote then scan_members fuel' r1
                else None
            | [] => None
            end
          else if is_ch c ch_lbracket then
            match skip_ws r with
            | c1 :: r1 =>
                if is_ch c1 ch_rbracket then Some r1
                else scan_elements fuel' (c1 :: r1)
            | [] => None
            end
          else scan_constant s
      end
  end
with scan_members (fuel : nat) (s : pystr) : option pystr :=
  match fuel with
  | 0 => None
  | S fuel' =>
      match scan_string s with
      | None => None
      | Some r =>
          match skip_ws r with
          | c :: r1 =>
              if is_ch c ch_colon then
                match scan_value fuel' (skip_ws r1) with
                | None => None
                | Some r2 =>
                    match skip_ws r2 with
                    | c2 :: r3 =>
                        if is_ch c2 ch_rbrace then Some r3
                        else if is_ch c2 ch_comma then
                          match skip_ws r3 with
                          | c3 :: r4 =>
                              if is_ch c3 ch_quote then scan_members fuel' r4
                              else None
                          | [] => None
                          end
                        else None
                    | [] => None
                    end
                end
              else None
          | [] => None
          end
      end
  end
with scan_elements (fuel : nat) (s : pystr) : option pystr :=
  match fuel with
  | 0 => None
  | S fuel' =>
      match scan_value fuel' s with
      | None => None
      | Some r =>
          match skip_ws r with
          | c :: r1 =>
              if is_ch c ch_rbracket then Some r1
              else if is_ch c ch_comma then scan_elements fuel' (skip_ws r1)
              else None
          | [] => None
          end
      end
  end.

(** [json.loads(s)] returns: a value, surrounded by white space only. *)
Definition json_loads_ok (s : pystr) : bool :=
  match scan_value (S (length s)) (skip_ws s) with
  | Some r => match skip_ws r with [] => true | _ :: _ => false end
  | None => false
  end.

End JsonText.

(* ================================================================== *)
(** * A backtracking matcher for the fenced-block patterns *)
(* ================================================================== *)

(** The fragment of [re] that the two patterns of [md_patterns] use,
    with Python's priorities: the leftmost start wins, a greedy star
    tries the longest run first and a lazy group the shortest. *)
Module Regex.

Inductive item :=
| Lit (text : pystr)              (** literal text *)
| Star (cls : ascii -> bool)      (** [cls*], greedy *)
| LazyGroup.                      (** [(.*?)] under [re.DOTALL], group 1 *)

(** A greedy star followed by the rest of the pattern [k]: the longest
    run first, then shorter ones. *)
Fixpoint star_loop (cls : ascii -> bool) (k : pystr -> option pystr) (s : pystr)
  : option pystr :=
  match s with
  | c :: s' =>
      if cls c then
        match star_loop cls k s' with
        | Some g => Some g
        | None => k s
        end
      else k s
  | [] => k []
  end.

(** The lazy group followed by the rest of the pattern [k]: the
    shortest group first.  [acc] is the group read so far, last
    character first. *)
Fixpoint lazy_loop (k : pystr -> pystr -> option pystr) (acc s : pystr)
  : option pystr :=
  match k (rev acc) s with
  | Some g => Some g
  | None =>
      match s with
      | c :: s' => lazy_loop k (c :: acc) s'
      | [] => None
      end
  end.

(** [match_here items s grp]: match [items] at the start of [s]; the
    result is the text of group 1 ([grp] until the group is met). *)
Fixpoint match_here (items : list item) (s : pystr) (grp : pystr)
  : option pystr :=
  match items with
  | [] => Some grp
  | Lit text :: rest =>
      match JsonText.drop_prefix text s with
      | Some s' => match_here rest s' grp
      | None => None
      end
  | Star cls :: rest => star_loop cls (fun s' => match_here rest s' grp) s
  | LazyGroup :: rest => lazy_loop (fun g s' => match_here rest s' g) [] s
  end.

(** [pat.search(text)], reduced to [m.group(1)]. *)
Fixpoint search (items : list item) (s : pystr) : option pystr :=
  match match_here items s [] with
  | Some g => Some g
  | None =>
      match s with
      | _ :: s' => search items s'
      | [] => None
      end
  end.

End Regex.

(* ================================================================== *)
(** * modules/llm_client.py: extract_json *)
(* ================================================================== *)

Module ExtractJson.
Import JsonText Regex.

Definition fence : pystr := [ch_backtick; ch_backtick; ch_backtick].

(** The closing line of a fence, [\n\s*```]. *)
Definition closing : list item := [Lit [ch_newline]; Star is_space; Lit fence].

(** A fenced block whose opening fence carries [tag]: fence, tag, white
    space, newline, group, closing line. *)
Definition fenced (tag : pystr) : list item :=
  Lit (fence ++ tag) :: Star is_space :: Lit [ch_newline] :: LazyGroup :: closing.

(** The pattern that asks for the tag [json] after the opening fence. *)
Definition md_json : list item := fenced (py "json").

(** The pattern for an untagged fence. *)
Definition md_plain : list item := fenced [].

Definition md_patterns : list (list item) := [md_json; md_plain].

(** The loop [for pat in md_patterns]: the first pattern whose first
    match, stripped, parses. *)
Fixpoint try_patterns (pats : list (list item)) (text : pystr) : option pystr :=
  match pats with
  | [] => None
  | pat :: rest =>
      match search pat text with
      | Some g =>
          let candidate := strip g in
          if json_loads_ok candidate then Some candidate
          else try_patterns rest text
      | None => try_patterns rest text
      end
  end.

(** [text[text.find('{'):]] when [find] does not return -1. *)
Fixpoint from_first_brace (text : pystr) : option pystr :=
  match text with
  | [] => None
  | c :: text' => if is_ch c ch_lbrace then Some text else from_first_brace text'
  end.

(** The scanning loop [for i in range(start, len(text))].  [seen] is
    [text[start:i]], last character first; the result is the candidate
    [text[start:i + 1]] at the first closing brace that brings [depth]
    to zero, and [None] when the loop runs to the end of the text. *)
Fixpoint brace_scan (depth : Z) (in_string escape : bool) (seen s : pystr)
  : option pystr :=
  match s with
  | [] => None
  | ch :: s' =>
      if escape then brace_scan depth in_string false (ch :: seen) s'
      else if is_ch ch ch_backslash then brace_scan depth in_string true (ch :: seen) s'
      else if is_ch ch ch_quote then brace_scan depth (negb in_string) false (ch :: seen) s'
      else if in_string then brace_scan depth in_string false (ch :: seen) s'
      else if is_ch ch ch_lbrace then brace_scan (depth + 1) in_string false (ch :: seen) s'
      else if is_ch ch ch_rbrace then
        if (depth - 1 =? 0)%Z then Some (rev (ch :: seen))
        else brace_scan (depth - 1) in_string false (ch :: seen) s'
      else brace_scan depth in_string false (ch :: seen) s'
  end.

Definition brace_candidate (text : pystr) : option pystr :=
  match from_first_brace text with
  | Some s => brace_scan 0 false false [] s
  | None => None
  end.

(** [extract_json(text)] *)
Definition extract_json (text : pystr) : pystr :=
  match strip text with
  | [] => text
  | c :: rest =>
      let stripped := c :: rest in
      if json_loads_ok stripped then stripped
      else
        match try_patterns md_patterns text with
        | Some candidate => candidate
        | None =>
            match brace_candidate text with
            | Some candidate =>
                if json_loads_ok candidate then candidate else text
            | None => text
            end
        end
  end.

(** ** The lexical shape of a text that parses *)

(** Characters that, outside a string, change neither the nesting of
    braces nor the string state. *)
Definition plain (c : ascii) : bool :=
  negb (is_ch c ch_quote || is_ch c ch_backslash || is_ch c ch_backtick ||
        is_ch c ch_lbrace || is_ch c ch_rbrace).

(** What follows the opening quote of a string, closing quote included:
    no control character, and every backslash takes the next character
    with it. *)
Inductive str_tail : pystr -> Prop :=
| st_close : str_tail [ch_quote]
| st_char c s :
    is_ch c ch_quote = false -> is_ch c ch_backslash = false ->
    (code c <? 32) = false ->
    str_tail s -> str_tail (c :: s)
| st_escape e s :
    (code e <? 32) = false ->
    str_tail s -> str_tail (ch_backslash :: e :: s).

(** Text outside strings: plain characters, whole strings, and braces
    that match. *)
Inductive jtext : pystr -> Prop :=
| jt_nil : jtext []
| jt_plain c s : plain c = true -> jtext s -> jtext (c :: s)
| jt_string body s : str_tail body -> jtext s -> jtext (ch_quote :: body ++ s)
| jt_object inner s :
    jtext inner -> jtext s -> jtext (ch_lbrace :: inner ++ ch_rbrace :: s).

(** The text of one parsed value: an object from its opening to its
    closing brace, or a value that neither starts with an opening brace
    nor ends with a closing one. *)
Inductive value_text : pystr -> Prop :=
| vt_object inner : jtext inner -> value_text (ch_lbrace :: inner ++ [ch_rbrace])
| vt_other c w d :
    is_ch c ch_lbrace = false -> is_ch d ch_rbrace = false ->
    jtext (c :: w) -> (exists w', c :: w = w' ++ [d]) ->
    value_text (c :: w).

(** The states of a scan that tracks strings: outside, inside, and
    inside right after a backslash. *)
Inductive lexstate := Outside | Inside | Escaped.

Definition lex_step (st : lexstate) (c : ascii) : option lexstate :=
  match st with
  | Outside =>
      if is_ch c ch_quote then Some Inside
      else if is_ch c ch_backslash || is_ch c ch_backtick then None
      else Some Outside
  | Inside =>
      if is_ch c ch_quote then Some Outside
      else if is_ch c ch_backslash then Some Escaped
      else if code c <? 32 then None
      else Some Inside
  | Escaped => if code c <? 32 then None else Some Inside
  end.

(** The state after [s], or [None] when [s] has a backtick or a
    backslash outside a string or a control character inside one. *)
Fixpoint lex (st : lexstate) (s : pystr) : option lexstate :=
  match s with
  | [] => Some st
  | c :: s' =>
      match lex_step st c with
      | Some st' => lex st' s'
      | None => None
      end
  end.

(** The text of a JSON object: it starts with an opening brace and the
    parser, given fuel enough, reads it to its end. *)
Definition json_object (obj : pystr) : Prop :=
  exists rest fuel, obj = ch_lbrace :: rest /\ scan_value fuel obj = Some [].

(** ** A sample text *)

(** The object with the one member [a], of value 1. *)
Definition sample_object : pystr :=
  ch_lbrace :: ch_quote :: py "a" ++ ch_quote :: py ": 1}".

End ExtractJson.

(* ================================================================== *)
(** * Exceptions and results *)
(* ================================================================== *)

Module Py.

(** An exception: the name of its class and [str(e)]. *)
Record exn := mk_exn { exn_type : pystr; exn_text : pystr }.

Definition RuntimeError (msg : pystr) : exn := mk_exn (py "RuntimeError") msg.
Definition ValueError (msg : pystr) : exn := mk_exn (py "ValueError") msg.
Definition TypeError (msg : pystr) : exn := mk_exn (py "TypeError") msg.
Definition AttributeError (msg : pystr) : exn := mk_exn (py "AttributeError") msg.
Definition IndexError (msg : pystr) : exn := mk_exn (py "IndexError") msg.
Definition OverflowError (msg : pystr) : exn := mk_exn (py "OverflowError") msg.
Definition ValidationError (msg : pystr) : exn := mk_exn (py "ValidationError") msg.

(** The outcome of a call: a value, or a raised exception. *)
Inductive result (A : Type) :=
| Ok (a : A)
| Raise (e : exn).
Arguments Ok {A} a.
Arguments Raise {A} e.

Definition bind {A B} (r : result A) (k : A -> result B) : result B :=
  match r with
  | Ok a => k a
  | Raise e => Raise e
  end.

(** [str(n)] for an integer. *)
Definition str_of_Z (z : Z) : pystr := py (NilZero.string_of_int (Z.to_int z)).

End Py.

Declare Scope py_scope.
Delimit Scope py_scope with pyres.
Notation "'let!' x ':=' c 'in' k" := (Py.bind c (fun x => k))
  (at level 10, x name, c at level 100, k at level 200) : py_scope.

(* ================================================================== *)
(** * modules/llm_client.py: LLMClient.chat *)
(* ================================================================== *)

Module Client.
Import Py JsonText ExtractJson.

(** One entry of [messages]. *)
Record message := mk_message { role : pystr; content : pystr }.

(** The dictionary [meta] ([modules.models.LLMCallMeta]). *)
Record meta {F : Type} := mk_meta {
  call_id : pystr;
  meta_model : pystr;
  prompt_id : pystr;
  cached : bool;
  input_tokens : option Z;
  output_tokens : option Z;
  duration_ms : F
}.
Arguments meta F : clear implicits.

(** [modules.config.ModelConfig] *)
Record ModelConfig {F : Type} := mk_ModelConfig {
  model : pystr;
  temperature : F;
  top_p : F;
  max_tokens : Z;
  timeout : Z;
  retries : Z
}.
Arguments ModelConfig F : clear implicits.

(** [modules.config.PipelineConfig], the fields the pipeline reads. *)
Record PipelineConfig {F : Type} := mk_PipelineConfig {
  max_input_chars : Z;
  primary : ModelConfig F;
  audit : ModelConfig F;
  enable_audit : bool;
  enable_cache : bool
}.
Arguments PipelineConfig F : clear implicits.

(** The keyword arguments of [client.chat.completions.create]. *)
Record kwargs {F : Type} := mk_kwargs {
  kw_model : pystr;
  kw_messages : list message;
  kw_temperature : F;
  kw_max_tokens : Z;
  kw_top_p : option F;
  (** whether [response_format={"type": "json_object"}] is passed *)
  kw_json_object : bool
}.
Arguments kwargs F : clear implicits.

(** What the service answers: [resp.choices] as the list of the
    [message.content] fields, and [resp.usage]. *)
Record response := mk_response {
  choices : list (option pystr);
  usage : option (Z * Z)
}.

Inductive outcome :=
| Reply (r : response)
| Failure (e : exn).

(** What a run does to the outside, in the order it happens. *)
Inductive event {F : Type} :=
| Request (k : kwargs F)           (** a call of the service *)
| Sleep (seconds : Z)              (** [asyncio.sleep] *)
| Progress (stage : pystr) (pct : Q)   (** the progress callback *)
| CancelCheck (answer : bool)      (** a call of [cancel_check] *)
| SaveRun.                         (** [save_run] *)
Arguments event F : clear implicits.

(** The cache directory (file name to contents), the log of the client
    and the trace of effects. *)
Record world {F : Type} := mk_world {
  cache : gmap pystr pystr;
  call_log : list (meta F);
  trace : list (event F)
}.
Arguments world F : clear implicits.

(** [lower.startswith(p)] for one of [_ANTHROPIC_PREFIXES] *)
Definition _is_anthropic_model (model : pystr) : bool :=
  existsb (fun p => startswith p (lower model)) (map py ["claude"; "anthropic"]%string).

(** Reading a text file back: [Path.read_text] opens it with universal
    newlines, so CR LF and CR both come back as LF. *)
Fixpoint universal_newlines (s : pystr) : pystr :=
  match s with
  | [] => []
  | c :: s' =>
      if code c =? 13 then
        match s' with
        | d :: s'' =>
            if code d =? 10 then ch_newline :: universal_newlines s''
            else ch_newline :: universal_newlines s'
        | [] => [ch_newline]
        end
      else c :: universal_newlines s'
  end.

Definition is_request {F} (e : event F) : bool :=
  match e with Request _ => true | _ => false end.

(** Number of calls of the service in a trace. *)
Definition requests {F} (t : list (event F)) : nat :=
  length (filter is_request t).

Section WithEnvironment.

Context {F : Type} `{PyFloat F}.

(** [hashlib.sha256(blob.encode()).hexdigest()] *)
Variable sha256_hexdigest : pystr -> pystr.

(** [json.dumps({"model": ..., "messages": ..., "t": ...}, sort_keys=True,
    ensure_ascii=False)] *)
Variable dumps_request : pystr -> list message -> F -> pystr.

(** The service: the outcome of the [n]-th request issued. *)
Variable service : nat -> kwargs F -> outcome.

(** The duration measured around the [n]-th request, in milliseconds. *)
Variable elapsed_ms : nat -> F.

(** [_cache_key(model, messages, temperature)] *)
Definition _cache_key (model : pystr) (messages : list message) (temperature : F)
  : pystr :=
  sha256_hexdigest (dumps_request model messages temperature).

(** [_get_client(role)], reduced to the model configuration. *)
Definition _get_client (config : PipelineConfig F) (role : pystr) : ModelConfig F :=
  if str_eqb role (py "audit") then audit config else primary config.

(** [_read_cache(key)] *)
Definition _read_cache (w : world F) (key : pystr) : option pystr :=
  option_map universal_newlines (cache w !! key).

(** [_write_cache(key, text)] *)
Definition _write_cache (w : world F) (key text : pystr) : world F :=
  mk_world F (<[key := text]> (cache w)) (call_log w) (trace w).

Definition log_call (w : world F) (m : meta F) : world F :=
  mk_world F (cache w) (call_log w ++ [m]) (trace w).

Definition emit (w : world F) (e : event F) : world F :=
  mk_world F (cache w) (call_log w) (trace w ++ [e]).

(** The dictionary [kwargs]. *)
Definition make_kwargs (mcfg : ModelConfig F) (messages : list message)
  (json_mode : bool) : kwargs F :=
  mk_kwargs F (model mcfg) messages (temperature mcfg) (max_tokens mcfg)
    (if f_eqb (top_p mcfg) (f_lit 1) then None else Some (top_p mcfg))
    (json_mode && negb (_is_anthropic_model (model mcfg))).

(** The body of [try:] up to [return text, meta], given the answer of
    the service. *)
Definition handle_reply (config : PipelineConfig F) (mcfg : ModelConfig F)
  (ck role prompt_id : pystr) (json_mode : bool) (attempt : Z) (n : nat)
  (r : response) (w : world F) : result (pystr * meta F) * world F :=
  match choices r with
  | [] => (Raise (IndexError (py "list index out of range")), w)
  | first :: _ =>
      let raw_text := match first with Some t => t | None => [] end in
      let text := if json_mode then extract_json raw_text else raw_text in
      let m := mk_meta F
                 (role ++ py "_" ++ prompt_id ++ py "_" ++ str_of_Z attempt)
                 (model mcfg) prompt_id false
                 (option_map fst (usage r)) (option_map snd (usage r))
                 (f_round (elapsed_ms n) 1) in
      let w := log_call w m in
      let w := if enable_cache config then _write_cache w ck text else w in
      (Ok (text, m), w)
  end.

(** The message of the aggregated failure. *)
Definition failure_message (mcfg : ModelConfig F) (last_err : option exn) : pystr :=
  py "LLM call failed after " ++ str_of_Z (retries mcfg + 1) ++
  py " attempts: " ++
  match last_err with Some e => exn_text e | None => py "None" end.

(** The loop [for attempt in range(mcfg.retries + 1)] and the final
    [raise]; [last_err] is [None] until an attempt has failed. *)
Fixpoint attempts (config : PipelineConfig F) (mcfg : ModelConfig F)
  (kw : kwargs F) (ck role prompt_id : pystr) (json_mode : bool)
  (todo : list nat) (last_err : option exn) (w : world F)
  : result (pystr * meta F) * world F :=
  match todo with
  | [] =>
      (Raise (RuntimeError (failure_message mcfg last_err)), w)
  | attempt :: todo' =>
      let n := requests (trace w) in
      let w1 := emit w (Request kw) in
      let tried :=
        match service n kw with
        | Reply r =>
            handle_reply config mcfg ck role prompt_id json_mode
                         (Z.of_nat attempt) n r w1
        | Failure e => (Raise e, w1)
        end in
      match tried with
      | (Ok v, w2) => (Ok v, w2)
      | (Raise e, w2) =>
          let w3 := if (Z.of_nat attempt <? retries mcfg)%Z
                    then emit w2 (Sleep (2 ^ Z.of_nat attempt))
                    else w2 in
          attempts config mcfg kw ck role prompt_id json_mode todo' (Some e) w3
      end
  end.

(** The effects of a call in which every one of the [r + 1] attempts
    fails: [r] times a request followed by a pause of [2^k] seconds,
    then the last request. *)
Definition backoff_schedule (kw : kwargs F) (r : nat) : list (event F) :=
  flat_map (fun k => [Request kw; Sleep (2 ^ Z.of_nat k)]) (seq 0 r) ++ [Request kw].

(** [LLMClient.chat(messages, role, prompt_id, json_mode)] *)
Definition chat (config : PipelineConfig F) (w : world F)
  (messages : list message) (role prompt_id : pystr) (json_mode : bool)
  : result (pystr * meta F) * world F :=
  let mcfg := _get_client config role in
  let ck := _cache_key (model mcfg) messages (temperature mcfg) in
  let hit := if enable_cache config then _read_cache w ck else None in
  match hit with
  | Some cached_text =>
      let m := mk_meta F (firstn 12 ck) (model mcfg) prompt_id true
                 None None (f_lit 0) in
      (Ok (cached_text, m), log_call w m)
  | None =>
      attempts config mcfg (make_kwargs mcfg messages json_mode)
               ck role prompt_id json_mode
               (seq 0 (Z.to_nat (retries mcfg + 1))) None w
  end.

(** The effects of the attempts [first .. first + len - 1] when each
    fails. *)
Definition failing_trace (mcfg : ModelConfig F) (kw : kwargs F) (todo : list nat)
  : list (event F) :=
  flat_map (fun k => Request kw ::
                     if (Z.of_nat k <? retries mcfg)%Z
                     then [Sleep (2 ^ Z.of_nat k)] else []) todo.

(** Effects that are neither a check nor a progress report. *)
Definition silent (e : event F) : Prop :=
  match e with
  | CancelCheck _ | Progress _ _ => False
  | _ => True
  end.

End WithEnvironment.

End Client.

(* ================================================================== *)
(** * modules/models.py: enumerations *)
(* ================================================================== *)

Module Severity.
Inductive t := minor | moderate | major | critical.
(** [Severity(v)] for a string; [None] when it raises [ValueError]. *)
Definition of_str (s : pystr) : option t :=
  if str_eqb s (py "minor") then Some minor
  else if str_eqb s (py "moderate") then Some moderate
  else if str_eqb s (py "major") then Some major
  else if str_eqb s (py "critical") then Some critical
  else None.
End Severity.

Module GlobalIssueCategory.
Inductive t :=
| logic | pacing | voice | pov_consistency | character_consistency
| contradictions | tone | other.
Definition of_str (s : pystr) : option t :=
  if str_eqb s (py "logic") then Some logic
  else if str_eqb s (py "pacing") then Some pacing
  else if str_eqb s (py "voice") then Some voice
  else if str_eqb s (py "pov_consistency") then Some pov_consistency
  else if str_eqb s (py "character_consistency") then Some character_consistency
  else if str_eqb s (py "contradictions") then Some contradictions
  else if str_eqb s (py "tone") then Some tone
  else if str_eqb s (py "other") then Some other
  else None.
End GlobalIssueCategory.

Module ReaderQuestionType.
Inductive t := unclear_reference | missing_antecedent | undefined_term | logical_gap.
Definition of_str (s : pystr) : option t :=
  if str_eqb s (py "unclear_reference") then Some unclear_reference
  else if str_eqb s (py "missing_antecedent") then Some missing_antecedent
  else if str_eqb s (py "undefined_term") then Some undefined_term
  else if str_eqb s (py "logical_gap") then Some logical_gap
  else None.
End ReaderQuestionType.

Module AuditVerdict.
Inductive t := agree | mostly_agree | mixed | mostly_disagree | disagree.
Definition of_str (s : pystr) : option t :=
  if str_eqb s (py "agree") then Some agree
  else if str_eqb s (py "mostly_agree") then Some mostly_agree
  else if str_eqb s (py "mixed") then Some mixed
  else if str_eqb s (py "mostly_disagree") then Some mostly_disagree
  else if str_eqb s (py "disagree") then Some disagree
  else None.
End AuditVerdict.

(* ================================================================== *)
(** * Decoded JSON values *)
(* ================================================================== *)

Module Json.
Import Py.

(** What [json.loads] returns: [None], [bool], [int], [float], [str],
    [list], and [dict] with its entries in insertion order, one per key. *)
#[local] Unset Elimination Schemes.
Inductive json {F : Type} :=
| JNull
| JBool (b : bool)
| JInt (z : Z)
| JFloat (x : F)
| JStr (s : pystr)
| JList (items : list json)
| JDict (entries : list (pystr * json)).
#[local] Set Elimination Schemes.
Arguments json F : clear implicits.

Section WithFloat.

Context {F : Type} `{PyFloat F}.

(** [type(v).__name__] *)
Definition type_name (v : json F) : pystr :=
  match v with
  | JNull => py "NoneType"
  | JBool _ => py "bool"
  | JInt _ => py "int"
  | JFloat _ => py "float"
  | JStr _ => py "str"
  | JList _ => py "list"
  | JDict _ => py "dict"
  end.

Fixpoint lookup (key : pystr) (entries : list (pystr * json F)) : option (json F) :=
  match entries with
  | [] => None
  | (k, v) :: rest => if str_eqb k key then Some v else lookup key rest
  end.

(** [entries[key] = v] for a key that may be present. *)
Fixpoint store (key : pystr) (v : json F) (entries : list (pystr * json F))
  : list (pystr * json F) :=
  match entries with
  | [] => [(key, v)]
  | (k, v') :: rest =>
      if str_eqb k key then (k, v) :: rest else (k, v') :: store key v rest
  end.

(** [v.get(key, default)]: only a [dict] has the method. *)
Definition get (v : json F) (key : pystr) (default : json F) : result (json F) :=
  match v with
  | JDict entries =>
      Ok (match lookup key entries with Some x => x | None => default end)
  | _ =>
      Raise (AttributeError
               (py "'" ++ type_name v ++ py "' object has no attribute 'get'"))
  end.

(** [bool(v)], as tested by [if v:]. *)
Definition truthy (v : json F) : bool :=
  match v with
  | JNull => false
  | JBool b => b
  | JInt z => negb (z =? 0)%Z
  | JFloat x => negb (f_eqb x (f_lit 0))
  | JStr s => match s with [] => false | _ :: _ => true end
  | JList items => match items with [] => false | _ :: _ => true end
  | JDict entries => match entries with [] => false | _ :: _ => true end
  end.

(** [for item in v]: the items of a list, the keys of a dict, the
    characters of a string; anything else is not iterable. *)
Definition iterate (v : json F) : result (list (json F)) :=
  match v with
  | JList items => Ok items
  | JDict entries => Ok (map (fun kv => JStr (fst kv)) entries)
  | JStr s => Ok (map (fun c => JStr [c]) s)
  | _ => Raise (TypeError (py "'" ++ type_name v ++ py "' object is not iterable"))
  end.

(** Digits, with single underscores between them. *)
Fixpoint digits_value (acc : Z) (after_digit : bool) (s : pystr) : option Z :=
  match s with
  | [] => if after_digit then Some acc else None
  | c :: s' =>
      if is_digit c then digits_value (10 * acc + Z.of_nat (code c - 48)) true s'
      else if (code c =? 95) && after_digit then digits_value acc false s'
      else None
  end.

(** [int(s)] for a string, base 10; [None] when it raises [ValueError].
    (The interpreter's limit on the number of digits is not modelled.) *)
Definition int_of_str (s : pystr) : option Z :=
  match strip s with
  | [] => None
  | c :: rest =>
      if code c =? 45 then option_map Z.opp (digits_value 0 false rest)
      else if code c =? 43 then digits_value 0 false rest
      else digits_value 0 false (c :: rest)
  end.

(** [_safe_int(v)]: [ValueError] and [TypeError] give 0; the
    [OverflowError] of [int] on an infinite float is not caught. *)
Definition _safe_int (v : json F) : result Z :=
  match v with
  | JInt z => Ok z
  | JBool b => Ok (if b then 1 else 0)%Z
  | JFloat x =>
      match f_to_int x with
      | IntValue z => Ok z
      | IntValueError => Ok 0%Z
      | IntOverflowError =>
          Raise (OverflowError (py "cannot convert float infinity to integer"))
      end
  | JStr s => Ok (match int_of_str s with Some z => z | None => 0%Z end)
  | JNull | JList _ | JDict _ => Ok 0%Z
  end.

(** [_safe_float(v)]: [ValueError] and [TypeError] give 0.0; the
    [OverflowError] of [float] on a too large integer is not caught. *)
Definition _safe_float (v : json F) : result F :=
  match v with
  | JFloat x => Ok x
  | JInt z =>
      match f_of_int z with
      | Some x => Ok x
      | None => Raise (OverflowError (py "int too large to convert to float"))
      end
  | JBool b =>
      match f_of_int (if b then 1 else 0)%Z with
      | Some x => Ok x
      | None => Raise (OverflowError (py "int too large to convert to float"))
      end
  | JStr s => Ok (match f_of_str s with Some x => x | None => f_lit 0 end)
  | JNull | JList _ | JDict _ => Ok (f_lit 0)
  end.

(** [_safe_enum(v, enum_cls, default)]: the lookup of a value that is
    not the value of a member raises [ValueError], whatever its type. *)
Definition _safe_enum {E : Type} (of_str : pystr -> option E) (v : json F)
  (default : E) : E :=
  match v with
  | JStr s => match of_str s with Some e => e | None => default end
  | _ => default
  end.

(** Validation of a [str] field by the model classes (pydantic): of the
    values [json.loads] produces, only a [str] is accepted. *)
Definition validate_str (model field : pystr) (v : json F) : result pystr :=
  match v with
  | JStr s => Ok s
  | _ =>
      Raise (ValidationError
               (py "1 validation error for " ++ model ++ py " " ++ field))
  end.

(** A [for] loop that appends one built item per element. *)
Fixpoint build_all {A : Type} (build : json F -> result A) (items : list (json F))
  : result (list A) :=
  match items with
  | [] => Ok []
  | item :: rest =>
      match build item with
      | Ok a =>
          match build_all build rest with
          | Ok l => Ok (a :: l)
          | Raise e => Raise e
          end
      | Raise e => Raise e
      end
  end.

End WithFloat.

End Json.

(* ================================================================== *)
(** * modules/models.py: the typed results *)
(* ================================================================== *)

Module TextOverview.
Record t := mk {
  genre_guess : pystr; tone : pystr; apparent_audience : pystr;
  language : pystr; word_count : Z; paragraph_count : Z
}.
Definition default : t := mk [] [] [] [] 0 0.
End TextOverview.

Module StructuralOutlineItem.
Record t := mk { paragraph_index : Z; intent : pystr; summary : pystr }.
End StructuralOutlineItem.

Module LocalIssue.
Record t := mk {
  paragraph_index : Z; sentence : pystr; issue_type : pystr;
  severity : Severity.t; description : pystr; suggestion : pystr
}.
End LocalIssue.

Module GlobalIssue.
Record t := mk {
  category : GlobalIssueCategory.t; severity : Severity.t;
  description : pystr; evidence : pystr
}.
End GlobalIssue.

Module QualityScores.
Record t {F : Type} := mk {
  clarity : F; conciseness : F; vividness : F; originality : F;
  coherence : F; engagement : F; overall : F
}.
Arguments t F : clear implicits.
Definition default {F} `{PyFloat F} : t F :=
  mk F (f_lit 0) (f_lit 0) (f_lit 0) (f_lit 0) (f_lit 0) (f_lit 0) (f_lit 0).
End QualityScores.

Module ClicheItem.
Record t := mk { phrase : pystr; location : pystr; suggestion : pystr }.
End ClicheItem.

Module ReaderQuestion.
Record t := mk { question : pystr; location : pystr; type : ReaderQuestionType.t }.
End ReaderQuestion.

Module ImprovementSuggestion.
Record t := mk { category : pystr; suggestion : pystr; priority : Severity.t }.
End ImprovementSuggestion.

(** [PrimaryAnalysis].  [strengths] and [summary] are assigned without
    validation, so they hold whatever the reply held. *)
Module PrimaryAnalysis.
Record t {F : Type} := mk {
  text_overview : TextOverview.t;
  structural_outline : list StructuralOutlineItem.t;
  local_issues : list LocalIssue.t;
  global_issues : list GlobalIssue.t;
  quality_scores : QualityScores.t F;
  cliche_detection : list ClicheItem.t;
  reader_questions : list ReaderQuestion.t;
  improvement_suggestions : list ImprovementSuggestion.t;
  strengths : Json.json F;
  summary : Json.json F
}.
Arguments t F : clear implicits.
End PrimaryAnalysis.

Module AuditDisagreement.
Record t := mk { claim : pystr; issue : pystr; evidence : pystr; severity : Severity.t }.
End AuditDisagreement.

Module AuditMissedIssue.
Record t := mk { description : pystr; evidence : pystr; severity : Severity.t }.
End AuditMissedIssue.

Module AuditHallucination.
Record t := mk { claim : pystr; why_hallucinated : pystr }.
End AuditHallucination.

Module AuditWeakCritique.
Record t := mk { claim : pystr; why_weak : pystr }.
End AuditWeakCritique.

Module AuditResult.
Record t {F : Type} := mk {
  audit_verdict : AuditVerdict.t;
  confidence_score : F;
  disagreements : list AuditDisagreement.t;
  missed_issues : list AuditMissedIssue.t;
  hallucinations : list AuditHallucination.t;
  weak_critiques : list AuditWeakCritique.t;
  summary : Json.json F
}.
Arguments t F : clear implicits.
End AuditResult.

(* ================================================================== *)
(** * modules/agents/primary_analyzer.py and auditor.py: coercion *)
(* ================================================================== *)

Module Coercion.
Import Py Json.

#[local] Open Scope py_scope.

Section WithFloat.

Context {F : Type} `{PyFloat F}.

Definition jstr (s : string) : json F := JStr (py s).

(** [TextOverview(genre_guess=ov.get("genre_guess", ""), ...)] *)
Definition text_overview_of (ov : json F) : result TextOverview.t :=
  let! genre_guess := get ov (py "genre_guess") (jstr "") in
  let! tone := get ov (py "tone") (jstr "") in
  let! apparent_audience := get ov (py "apparent_audience") (jstr "") in
  let! language := get ov (py "language") (jstr "") in
  let! wc := get ov (py "word_count") (JInt 0) in
  let! word_count := _safe_int wc in
  let! pc := get ov (py "paragraph_count") (JInt 0) in
  let! paragraph_count := _safe_int pc in
  let! genre_guess := validate_str (py "TextOverview") (py "genre_guess") genre_guess in
  let! tone := validate_str (py "TextOverview") (py "tone") tone in
  let! apparent_audience :=
    validate_str (py "TextOverview") (py "apparent_audience") apparent_audience in
  let! language := validate_str (py "TextOverview") (py "language") language in
  Ok (TextOverview.mk genre_guess tone apparent_audience language
                      word_count paragraph_count).

(** [StructuralOutlineItem(paragraph_index=..., intent=..., summary=...)] *)
Definition structural_outline_item_of (item : json F)
  : result StructuralOutlineItem.t :=
  let! pi := get item (py "paragraph_index") (JInt 0) in
  let! paragraph_index := _safe_int pi in
  let! intent := get item (py "intent") (jstr "") in
  let! summary := get item (py "summary") (jstr "") in
  let! intent := validate_str (py "StructuralOutlineItem") (py "intent") intent in
  let! summary := validate_str (py "StructuralOutlineItem") (py "summary") summary in
  Ok (StructuralOutlineItem.mk paragraph_index intent summary).

(** [LocalIssue(paragraph_index=..., sentence=..., ...)] *)
Definition local_issue_of (item : json F) : result LocalIssue.t :=
  let! pi := get item (py "paragraph_index") (JInt 0) in
  let! paragraph_index := _safe_int pi in
  let! sentence := get item (py "sentence") (jstr "") in
  let! issue_type := get item (py "issue_type") (jstr "") in
  let! sev := get item (py "severity") (jstr "minor") in
  let severity := _safe_enum Severity.of_str sev Severity.minor in
  let! description := get item (py "description") (jstr "") in
  let! suggestion := get item (py "suggestion") (jstr "") in
  let! sentence := validate_str (py "LocalIssue") (py "sentence") sentence in
  let! issue_type := validate_str (py "LocalIssue") (py "issue_type") issue_type in
  let! description := validate_str (py "LocalIssue") (py "description") description in
  let! suggestion := validate_str (py "LocalIssue") (py "suggestion") suggestion in
  Ok (LocalIssue.mk paragraph_index sentence issue_type severity
                    description suggestion).

(** [GlobalIssue(category=..., severity=..., description=..., evidence=...)] *)
Definition global_issue_of (item : json F) : result GlobalIssue.t :=
  let! cat := get item (py "category") (jstr "other") in
  let category := _safe_enum GlobalIssueCategory.of_str cat GlobalIssueCategory.other in
  let! sev := get item (py "severity") (jstr "minor") in
  let severity := _safe_enum Severity.of_str sev Severity.minor in
  let! description := get item (py "description") (jstr "") in
  let! evidence := get item (py "evidence") (jstr "") in
  let! description := validate_str (py "GlobalIssue") (py "description") description in
  let! evidence := validate_str (py "GlobalIssue") (py "evidence") evidence in
  Ok (GlobalIssue.mk category severity description evidence).

(** [QualityScores(clarity=_safe_float(qs.get("clarity", 0)), ...)] *)
Definition quality_scores_of (qs : json F) : result (QualityScores.t F) :=
  let! v1 := get qs (py "clarity") (JInt 0) in
  let! clarity := _safe_float v1 in
  let! v2 := get qs (py "conciseness") (JInt 0) in
  let! conciseness := _safe_float v2 in
  let! v3 := get qs (py "vividness") (JInt 0) in
  let! vividness := _safe_float v3 in
  let! v4 := get qs (py "originality") (JInt 0) in
  let! originality := _safe_float v4 in
  let! v5 := get qs (py "coherence") (JInt 0) in
  let! coherence := _safe_float v5 in
  let! v6 := get qs (py "engagement") (JInt 0) in
  let! engagement := _safe_float v6 in
  let! v7 := get qs (py "overall") (JInt 0) in
  let! overall := _safe_float v7 in
  Ok (QualityScores.mk F clarity conciseness vividness originality
                       coherence engagement overall).

(** [ClicheItem(phrase=..., location=..., suggestion=...)] *)
Definition cliche_item_of (item : json F) : result ClicheItem.t :=
  let! phrase := get item (py "phrase") (jstr "") in
  let! location := get item (py "location") (jstr "") in
  let! suggestion := get item (py "suggestion") (jstr "") in
  let! phrase := validate_str (py "ClicheItem") (py "phrase") phrase in
  let! location := validate_str (py "ClicheItem") (py "location") location in
  let! suggestion := validate_str (py "ClicheItem") (py "suggestion") suggestion in
  Ok (ClicheItem.mk phrase location suggestion).

(** [ReaderQuestion(question=..., location=..., type=...)] *)
Definition reader_question_of (item : json F) : result ReaderQuestion.t :=
  let! question := get item (py "question") (jstr "") in
  let! location := get item (py "location") (jstr "") in
  let! ty := get item (py "type") (jstr "unclear_reference") in
  let type := _safe_enum ReaderQuestionType.of_str ty
                         ReaderQuestionType.unclear_reference in
  let! question := validate_str (py "ReaderQuestion") (py "question") question in
  let! location := validate_str (py "ReaderQuestion") (py "location") location in
  Ok (ReaderQuestion.mk question location type).

(** [ImprovementSuggestion(category=..., suggestion=..., priority=...)] *)
Definition improvement_suggestion_of (item : json F)
  : result ImprovementSuggestion.t :=
  let! category := get item (py "category") (jstr "") in
  let! suggestion := get item (py "suggestion") (jstr "") in
  let! pr := get item (py "priority") (jstr "moderate") in
  let priority := _safe_enum Severity.of_str pr Severity.moderate in
  let! category := validate_str (py "ImprovementSuggestion") (py "category") category in
  let! suggestion :=
    validate_str (py "ImprovementSuggestion") (py "suggestion") suggestion in
  Ok (ImprovementSuggestion.mk category suggestion priority).

(** [for item in d.get(key, []): target.append(build(item))] *)
Definition coerce_list {A : Type} (build : json F -> result A) (d : json F)
  (key : pystr) : result (list A) :=
  let! v := get d key (JList []) in
  let! items := iterate v in
  build_all build items.

(** [_dict_to_primary(d)] *)
Definition _dict_to_primary (d : json F) : result (PrimaryAnalysis.t F) :=
  let! ov := get d (py "text_overview") (JDict []) in
  let! text_overview :=
    if truthy ov then text_overview_of ov else Ok TextOverview.default in
  let! structural_outline :=
    coerce_list structural_outline_item_of d (py "structural_outline") in
  let! local_issues := coerce_list local_issue_of d (py "local_issues") in
  let! global_issues := coerce_list global_issue_of d (py "global_issues") in
  let! qs := get d (py "quality_scores") (JDict []) in
  let! quality_scores :=
    if truthy qs then quality_scores_of qs else Ok QualityScores.default in
  let! cliche_detection := coerce_list cliche_item_of d (py "cliche_detection") in
  let! reader_questions := coerce_list reader_question_of d (py "reader_questions") in
  let! improvement_suggestions :=
    coerce_list improvement_suggestion_of d (py "improvement_suggestions") in
  let! strengths := get d (py "strengths") (JList []) in
  let! summary := get d (py "summary") (jstr "") in
  Ok (PrimaryAnalysis.mk F text_overview structural_outline local_issues
        global_issues quality_scores cliche_detection reader_questions
        improvement_suggestions strengths summary).

(** ** The nested lists of [PrimaryAnalysis], one description each:
    the key read, how an item is built, where the items go. *)
Record list_field := mk_list_field {
  key : pystr;
  item : Type;
  build : json F -> result item;
  items_of : PrimaryAnalysis.t F -> list item;
  with_items : PrimaryAnalysis.t F -> list item -> PrimaryAnalysis.t F;
  (** the keys whose values must be strings, and those read as integers *)
  text_keys : list pystr;
  int_keys : list pystr
}.

Import PrimaryAnalysis.

Definition structural_outline_field : list_field :=
  mk_list_field (py "structural_outline") _ structural_outline_item_of
    structural_outline
    (fun a l => mk F (text_overview a) l (local_issues a) (global_issues a)
                  (quality_scores a) (cliche_detection a) (reader_questions a)
                  (improvement_suggestions a) (strengths a) (summary a))
    (map py ["intent"; "summary"]%string) [py "paragraph_index"].

Definition local_issues_field : list_field :=
  mk_list_field (py "local_issues") _ local_issue_of
    local_issues
    (fun a l => mk F (text_overview a) (structural_outline a) l (global_issues a)
                  (quality_scores a) (cliche_detection a) (reader_questions a)
                  (improvement_suggestions a) (strengths a) (summary a))
    (map py ["sentence"; "issue_type"; "description"; "suggestion"]%string)
    [py "paragraph_index"].

Definition global_issues_field : list_field :=
  mk_list_field (py "global_issues") _ global_issue_of
    global_issues
    (fun a l => mk F (text_overview a) (structural_outline a) (local_issues a) l
                  (quality_scores a) (cliche_detection a) (reader_questions a)
                  (improvement_suggestions a) (strengths a) (summary a))
    (map py ["description"; "evidence"]%string) [].

Definition cliche_detection_field : list_field :=
  mk_list_field (py "cliche_detection") _ cliche_item_of
    cliche_detection
    (fun a l => mk F (text_overview a) (structural_outline a) (local_issues a)
                  (global_issues a) (quality_scores a) l (reader_questions a)
                  (improvement_suggestions a) (strengths a) (summary a))
    (map py ["phrase"; "location"; "suggestion"]%string) [].

Definition reader_questions_field : list_field :=
  mk_list_field (py "reader_questions") _ reader_question_of
    reader_questions
    (fun a l => mk F (text_overview a) (structural_outline a) (local_issues a)
                  (global_issues a) (quality_scores a) (cliche_detection a) l
                  (improvement_suggestions a) (strengths a) (summary a))
    (map py ["question"; "location"]%string) [].

Definition improvement_suggestions_field : list_field :=
  mk_list_field (py "improvement_suggestions") _ improvement_suggestion_of
    improvement_suggestions
    (fun a l => mk F (text_overview a) (structural_outline a) (local_issues a)
                  (global_issues a) (quality_scores a) (cliche_detection a)
                  (reader_questions a) l (strengths a) (summary a))
    (map py ["category"; "suggestion"]%string) [].

Definition list_fields : list list_field :=
  [structural_outline_field; local_issues_field; global_issues_field;
   cliche_detection_field; reader_questions_field; improvement_suggestions_field].

(** A text field is fine when it is absent or a string. *)
Definition text_ok (entries : list (pystr * json F)) (k : pystr) : bool :=
  match lookup k entries with
  | None | Some (JStr _) => true
  | Some _ => false
  end.

(** An integer field is fine unless it is an infinite float. *)
Definition int_ok (entries : list (pystr * json F)) (k : pystr) : bool :=
  match lookup k entries with
  | Some (JFloat x) =>
      match f_to_int x with IntOverflowError => false | _ => true end
  | _ => true
  end.

(** The entries that the coercion absorbs: objects whose text fields,
    where present, hold strings.  Missing fields, unrecognized
    enumeration values and unconvertible numbers are absorbed. *)
Definition absorbed (fld : list_field) (entry : json F) : bool :=
  match entry with
  | JDict entries =>
      forallb (text_ok entries) (text_keys fld) &&
      forallb (int_ok entries) (int_keys fld)
  | _ => false
  end.

(** [l[i] = x] on a list long enough. *)
Definition replace_at {A} (i : nat) (x : A) (l : list A) : list A :=
  firstn i l ++ x :: skipn (S i) l.

(** [PrimaryAnalysis()] *)
Definition empty_primary : PrimaryAnalysis.t F :=
  PrimaryAnalysis.mk F TextOverview.default [] [] [] QualityScores.default
    [] [] [] (JList []) (jstr "").

(** [AuditDisagreement(claim=..., issue=..., evidence=..., severity=...)] *)
Definition disagreement_of (item : json F) : result AuditDisagreement.t :=
  let! claim := get item (py "claim") (jstr "") in
  let! issue := get item (py "issue") (jstr "") in
  let! evidence := get item (py "evidence") (jstr "") in
  let! sev := get item (py "severity") (jstr "moderate") in
  let severity := _safe_enum Severity.of_str sev Severity.moderate in
  let! claim := validate_str (py "AuditDisagreement") (py "claim") claim in
  let! issue := validate_str (py "AuditDisagreement") (py "issue") issue in
  let! evidence := validate_str (py "AuditDisagreement") (py "evidence") evidence in
  Ok (AuditDisagreement.mk claim issue evidence severity).

(** [AuditMissedIssue(description=..., evidence=..., severity=...)] *)
Definition missed_issue_of (item : json F) : result AuditMissedIssue.t :=
  let! description := get item (py "description") (jstr "") in
  let! evidence := get item (py "evidence") (jstr "") in
  let! sev := get item (py "severity") (jstr "moderate") in
  let severity := _safe_enum Severity.of_str sev Severity.moderate in
  let! description :=
    validate_str (py "AuditMissedIssue") (py "description") description in
  let! evidence := validate_str (py "AuditMissedIssue") (py "evidence") evidence in
  Ok (AuditMissedIssue.mk description evidence severity).

(** [AuditHallucination(claim=..., why_hallucinated=...)] *)
Definition hallucination_of (item : json F) : result AuditHallucination.t :=
  let! claim := get item (py "claim") (jstr "") in
  let! why := get item (py "why_hallucinated") (jstr "") in
  let! claim := validate_str (py "AuditHallucination") (py "claim") claim in
  let! why := validate_str (py "AuditHallucination") (py "why_hallucinated") why in
  Ok (AuditHallucination.mk claim why).

(** [AuditWeakCritique(claim=..., why_weak=...)] *)
Definition weak_critique_of (item : json F) : result AuditWeakCritique.t :=
  let! claim := get item (py "claim") (jstr "") in
  let! why := get item (py "why_weak") (jstr "") in
  let! claim := validate_str (py "AuditWeakCritique") (py "claim") claim in
  let! why := validate_str (py "AuditWeakCritique") (py "why_weak") why in
  Ok (AuditWeakCritique.mk claim why).

(** [_dict_to_audit(d)] *)
Definition _dict_to_audit (d : json F) : result (AuditResult.t F) :=
  let! verdict := get d (py "audit_verdict") (jstr "agree") in
  let audit_verdict := _safe_enum AuditVerdict.of_str verdict AuditVerdict.agree in
  let! cs := get d (py "confidence_score") (JFloat (f_lit 0)) in
  let! confidence_score := _safe_float cs in
  let! disagreements := coerce_list disagreement_of d (py "disagreements") in
  let! missed_issues := coerce_list missed_issue_of d (py "missed_issues") in
  let! hallucinations := coerce_list hallucination_of d (py "hallucinations") in
  let! weak_critiques := coerce_list weak_critique_of d (py "weak_critiques") in
  let! summary := get d (py "summary") (jstr "") in
  Ok (AuditResult.mk F audit_verdict confidence_score disagreements
        missed_issues hallucinations weak_critiques summary).

(** [AuditResult()] *)
Definition empty_audit : AuditResult.t F :=
  AuditResult.mk F AuditVerdict.agree (f_lit 0) [] [] [] [] (jstr "").

(** [json.loads(s)]: the decoded value, or the text of the
    [JSONDecodeError] it raises. *)
Variable json_loads : pystr -> json F + pystr.

(** The unwrapping of a reply nested under a single key. *)
Definition unwrap_single_key (data : json F) : json F :=
  match data with
  | JDict [(_, JDict inner)] =>
      match lookup (py "text_overview") inner,
            lookup (py "quality_scores") inner,
            lookup (py "local_issues") inner with
      | None, None, None => data
      | _, _, _ => JDict inner
      end
  | _ => data
  end.

(** [_parse_primary_response(raw)] *)
Definition _parse_primary_response (raw : pystr) : result (PrimaryAnalysis.t F) :=
  let cleaned := ExtractJson.extract_json raw in
  match json_loads cleaned with
  | inr e =>
      Ok (PrimaryAnalysis.mk F TextOverview.default [] [] []
            QualityScores.default [] [] [] (JList [])
            (JStr (py "[JSON parse error: " ++ e ++
                   py "]. The model response could not be parsed.")))
  | inl data => _dict_to_primary (unwrap_single_key data)
  end.

(** [_parse_audit_response(raw)] *)
Definition _parse_audit_response (raw : pystr) : result (AuditResult.t F) :=
  let cleaned := ExtractJson.extract_json raw in
  match json_loads cleaned with
  | inr e =>
      Ok (AuditResult.mk F AuditVerdict.agree (f_lit 0) [] [] [] []
            (JStr (py "[Parse error: " ++ e ++ py "]")))
  | inl data => _dict_to_audit data
  end.

End WithFloat.

End Coercion.

(* ================================================================== *)
(** * modules/orchestrator.py *)
(* ================================================================== *)

Module CritiqueReport.
(** [modules.models.CritiqueReport]; [D] is [DeterministicAnalysis]. *)
Record t {F D : Type} := mk {
  version : pystr;
  input_text_hash : pystr;
  input_char_count : Z;
  input_text : pystr;
  requirements : pystr;
  generated_prompt : pystr;
  language : pystr;
  deterministic : D;
  primary_analysis : PrimaryAnalysis.t F;
  audit : option (AuditResult.t F);
  llm_calls : list (Client.meta F);
  timestamp : pystr;
  duration_ms : F
}.
Arguments t F D : clear implicits.
End CritiqueReport.

Module Orchestrator.
Import Py Client Json Coercion JsonText.

Section WithEnvironment.

Context {F : Type} `{PyFloat F}.

(** The collaborators of the pipeline that lie outside the modelled
    core, and the outside world. *)
Variable DeterministicAnalysis : Type.
Variable det_language : DeterministicAnalysis -> pystr.
Variable run_deterministic_analysis : pystr -> DeterministicAnalysis.
Variable generate_auto_requirements : DeterministicAnalysis -> pystr -> pystr.
Variable build_primary_messages :
  pystr -> pystr -> DeterministicAnalysis -> pystr -> list message.
Variable build_audit_messages : pystr -> pystr -> pystr -> list message.
Variable model_dump_json : PrimaryAnalysis.t F -> pystr.
Variable build_markdown_report : CritiqueReport.t F DeterministicAnalysis -> pystr.
Variable build_json_report : CritiqueReport.t F DeterministicAnalysis -> pystr.
Variable sha256_hexdigest : pystr -> pystr.
Variable dumps_request : pystr -> list message -> F -> pystr.
Variable service : nat -> kwargs F -> outcome.
Variable elapsed_ms : nat -> F.
Variable json_loads : pystr -> json F + pystr.

(** The callable [cancel_check], if one was given: its answer when
    called after the given effects have happened. *)
Variable cancel_check : option (list (event F) -> bool).

(** The clock: [(time.monotonic() - t0) * 1000] and
    [datetime.now(timezone.utc).isoformat()], read after the given
    effects. *)
Variable run_duration_ms : list (event F) -> F.
Variable now_isoformat : list (event F) -> pystr.

(** A computation of the run: it reads and extends the world, and
    returns or raises. *)
Definition M (A : Type) : Type := world F -> result A * world F.

Definition ret {A} (a : A) : M A := fun w => (Ok a, w).
Definition raise {A} (e : exn) : M A := fun w => (Raise e, w).
Definition seq_M {A B} (m : M A) (k : A -> M B) : M B :=
  fun w => match m w with
           | (Ok a, w') => k a w'
           | (Raise e, w') => (Raise e, w')
           end.

Notation "'do' x <- m ; k" := (seq_M m (fun x => k))
  (at level 10, x name, m at level 100, k at level 200).
Notation "'do_' m ; k" := (seq_M m (fun _ => k))
  (at level 10, m at level 100, k at level 200).

Definition cancelled_error : exn := RuntimeError (py "Cancelled by user.").

(** [self._progress(stage, pct)] *)
Definition _progress (stage : string) (pct : Q) : M unit :=
  fun w => (Ok tt, emit w (Progress (py stage) pct)).

(** [self._cancelled()] *)
Definition _cancelled : M bool :=
  fun w => match cancel_check with
           | Some answer =>
               let b := answer (trace w) in (Ok b, emit w (CancelCheck b))
           | None => (Ok false, w)
           end.

(** The stages entered right after a check of the cancellation. *)
Definition guarded_stage (stage : pystr) : bool :=
  mem stage (map py ["deterministic_analysis"; "primary_analysis";
                     "audit_analysis"]%string).

(** [if self._cancelled(): raise RuntimeError("Cancelled by user.")] *)
Definition check_cancelled : M unit :=
  do c <- _cancelled ;
  if c then raise cancelled_error else ret tt.

(** ** What a trace says about cancellation

    [start] is the trace before a computation, [evs] what it adds. *)

(** Every recorded check reports what [cancel_check] answers at that
    moment. *)
Definition checks_answer (start evs : list (event F)) : Prop :=
  forall before b after,
    evs = before ++ CancelCheck b :: after ->
    exists answer, cancel_check = Some answer /\ b = answer (start ++ before).

(** A check that observes the signal is the last effect, and the
    computation raises the cancellation failure. *)
Definition stops_when_cancelled {A} (evs : list (event F)) (res : result A) : Prop :=
  forall before after,
    evs = before ++ CancelCheck true :: after ->
    after = [] /\ res = Raise cancelled_error.

(** When a [cancel_check] was given, the effect just before the entry
    of a guarded stage is a check that did not observe the signal. *)
Definition checks_precede (start evs : list (event F)) : Prop :=
  forall before stage pct after,
    evs = before ++ Progress stage pct :: after ->
    guarded_stage stage = true ->
    cancel_check <> None ->
    exists before', start ++ before = before' ++ [CancelCheck false].

Definition sound {A} (m : M A) : Prop :=
  forall w res w',
    m w = (res, w') ->
    exists evs,
      trace w' = trace w ++ evs /\
      checks_answer (trace w) evs /\
      stops_when_cancelled evs res /\
      checks_precede (trace w) evs.

(** [LLMClient(self.config)]: a client with an empty call log. *)
Definition new_client : M unit :=
  fun w => (Ok tt, mk_world F (cache w) [] (trace w)).

Definition client_chat (config : PipelineConfig F) (messages : list message)
  (role prompt_id : string) : M (pystr * meta F) :=
  fun w => chat sha256_hexdigest dumps_request service elapsed_ms
                config w messages (py role) (py prompt_id) true.

Definition lift {A} (r : result A) : M A := fun w => (r, w).

(** [run_primary_analysis(client, text, language, deterministic,
    requirements)] *)
Definition run_primary_analysis (config : PipelineConfig F)
  (text language : pystr) (deterministic : DeterministicAnalysis)
  (requirements : pystr) : M (PrimaryAnalysis.t F * meta F) :=
  let messages := build_primary_messages text language deterministic requirements in
  do reply <- client_chat config messages "primary" "primary_analysis" ;
  do analysis <- lift (_parse_primary_response json_loads (fst reply)) ;
  ret (analysis, snd reply).

(** [run_audit(client, text, language, primary_analysis)] *)
Definition run_audit (config : PipelineConfig F) (text language : pystr)
  (primary_analysis : PrimaryAnalysis.t F) : M (AuditResult.t F * meta F) :=
  let critique_json := model_dump_json primary_analysis in
  let messages := build_audit_messages text language critique_json in
  do reply <- client_chat config messages "audit" "audit_analysis" ;
  do audit <- lift (_parse_audit_response json_loads (fst reply)) ;
  ret (audit, snd reply).

(** [messages[i]["content"]] *)
Definition content_at (messages : list message) (i : nat) : result pystr :=
  match nth_error messages i with
  | Some m => Ok (content m)
  | None => Raise (IndexError (py "list index out of range"))
  end.

(** [format_primary_prompt_for_display(text, language, deterministic,
    requirements)] of [modules/utils/prompts.py] *)
Definition format_primary_prompt_for_display (text language : pystr)
  (deterministic : DeterministicAnalysis) (requirements : pystr) : result pystr :=
  let messages := build_primary_messages text language deterministic requirements in
  let is_ru := str_eqb language (py "ru") in
  let system_header :=
    (if is_ru then py "=== СИСТЕМНЫЙ ПРОМПТ ===" else py "=== SYSTEM PROMPT ===")
    ++ [ch_newline] in
  let user_header :=
    [ch_newline] ++
    (if is_ru then py "=== ПОЛЬЗОВАТЕЛЬСКИЙ ПРОМПТ ===" else py "=== USER PROMPT ===")
    ++ [ch_newline] in
  match content_at messages 0, content_at messages 1 with
  | Ok system, Ok user =>
      Ok (join [ch_newline] [system_header; system; [ch_newline]; user_header; user])
  | Raise e, _ => Raise e
  | _, Raise e => Raise e
  end.

(** The audit step: [None] when auditing is disabled. *)
Definition audit_step (config : PipelineConfig F) (text language : pystr)
  (primary_analysis : PrimaryAnalysis.t F) : M (option (AuditResult.t F * meta F)) :=
  if enable_audit config then
    do_ check_cancelled ;
    do_ _progress "audit_analysis" 0.6 ;
    do r <- run_audit config text language primary_analysis ;
    ret (Some r)
  else ret None.

(** The value of [requirements] handed to the later steps. *)
Definition requirements_step (deterministic : DeterministicAnalysis)
  (text requirements : pystr) : M pystr :=
  match strip requirements with
  | [] =>
      do_ _progress "generating_requirements" 0.2 ;
      ret (generate_auto_requirements deterministic text)
  | _ :: _ => ret requirements
  end.

Definition read_clock : M (F * pystr) :=
  fun w => (Ok (run_duration_ms (trace w), now_isoformat (trace w)), w).

Definition save_run : M unit := fun w => (Ok tt, emit w SaveRun).

Definition too_long_error (config : PipelineConfig F) (text : pystr) : exn :=
  ValueError (py "Input text exceeds maximum of " ++
              str_of_Z (max_input_chars config) ++ py " characters (got " ++
              str_of_Z (Z.of_nat (length text)) ++
              py "). Please shorten the text.").

(** [Orchestrator.run(text, requirements)] *)
Definition run (config : PipelineConfig F) (text requirements : pystr)
  : M (pystr * pystr * CritiqueReport.t F DeterministicAnalysis) :=
  if (max_input_chars config <? Z.of_nat (length text))%Z
  then raise (too_long_error config text)
  else
    match strip text with
    | [] => raise (ValueError (py "Input text is empty."))
    | _ :: _ =>
        do_ _progress "starting" 0.0 ;
        do_ check_cancelled ;
        do_ _progress "deterministic_analysis" 0.1 ;
        let deterministic := run_deterministic_analysis text in
        let language := det_language deterministic in
        do effective_requirements <- requirements_step deterministic text requirements ;
        do_ check_cancelled ;
        do_ _progress "primary_analysis" 0.3 ;
        do_ new_client ;
        do primary <- run_primary_analysis config text language deterministic
                                           effective_requirements ;
        do audited <- audit_step config text language (fst primary) ;
        do_ _progress "building_report" 0.85 ;
        do clock <- read_clock ;
        do generated_prompt <-
          lift (format_primary_prompt_for_display text language deterministic
                                                  effective_requirements) ;
        let report :=
          CritiqueReport.mk F DeterministicAnalysis
            (py "1.0.0")
            (firstn 16 (sha256_hexdigest text))
            (Z.of_nat (length text))
            text
            requirements
            generated_prompt
            language
            deterministic
            (fst primary)
            (option_map fst audited)
            (snd primary :: match audited with Some a => [snd a] | None => [] end)
            (snd clock)
            (f_round (fst clock) 1) in
        let md_report := build_markdown_report report in
        let json_report := build_json_report report in
        do_ save_run ;
        do_ _progress "done" 1.0 ;
        ret (md_report, json_report, report)
    end.

End WithEnvironment.

End Orchestrator.

(* ================================================================== *)
(** * A concrete environment *)
(* ================================================================== *)

(** Stand-ins for the collaborators, to run the pipeline on examples:
    exact rationals for floats, the identity for the hash, a service
    that answers with an empty object or that fails, a fixed clock. *)
Module Example.
Import Py JsonText Client Json Coercion Orchestrator.

Definition config (audit cache : bool) : PipelineConfig Q :=
  mk_PipelineConfig Q 8192
    (mk_ModelConfig Q (py "gpt-4o") 0.3%Q 1%Q 16384 120 2)
    (mk_ModelConfig Q (py "gpt-4o-mini") 0.2%Q 1%Q 8192 90 2)
    audit cache.

Definition det_language (_ : unit) : pystr := py "en".
Definition run_deterministic_analysis (_ : pystr) : unit := tt.

Definition generate_auto_requirements (_ : unit) (_ : pystr) : pystr :=
  py "=== AUTO-GENERATED ANALYSIS REQUIREMENTS ===".

Definition build_primary_messages (text language : pystr) (_ : unit)
  (requirements : pystr) : list message :=
  [mk_message (py "system") (py "You are a critic.");
   mk_message (py "user") (text ++ [ch_newline] ++ requirements)].

Definition build_audit_messages (text language critique_json : pystr)
  : list message :=
  [mk_message (py "system") (py "You are an auditor.");
   mk_message (py "user") (text ++ [ch_newline] ++ critique_json)].

Definition model_dump_json (_ : PrimaryAnalysis.t Q) : pystr := py "{}".
Definition build_markdown_report (_ : CritiqueReport.t Q unit) : pystr := py "# Report".
Definition build_json_report (_ : CritiqueReport.t Q unit) : pystr := py "{}".
Definition sha256_hexdigest (s : pystr) : pystr := s.

Definition dumps_request (model : pystr) (messages : list message) (_ : Q) : pystr :=
  model ++ flat_map content messages.

Definition json_loads (s : pystr) : json Q + pystr :=
  if json_loads_ok s then inl (JDict []) else inr (py "Expecting value").

(** A service that always answers with an empty object. *)
Definition replying (_ : nat) (_ : kwargs Q) : outcome :=
  Reply (mk_response [Some (py "{}")] None).

(** A service that is never reachable. *)
Definition connection_error : exn :=
  mk_exn (py "APIConnectionError") (py "Connection error.").
Definition failing (_ : nat) (_ : kwargs Q) : outcome := Failure connection_error.

Definition elapsed_ms (_ : nat) : Q := 0%Q.
Definition run_duration_ms (_ : list (event Q)) : Q := 0%Q.
Definition now_isoformat (_ : list (event Q)) : pystr := py "2024-01-01T00:00:00+00:00".

(** A cancellation requested while the first request is in flight. *)
Definition cancel_during_call (t : list (event Q)) : bool := 0 <? requests t.

Definition empty_world : world Q := mk_world Q ∅ [] [].

Definition run (service : nat -> kwargs Q -> outcome)
  (cancel_check : option (list (event Q) -> bool)) (config : PipelineConfig Q)
  (text requirements : pystr) (w : world Q) :=
  Orchestrator.run unit det_language run_deterministic_analysis
    generate_auto_requirements build_primary_messages build_audit_messages
    model_dump_json build_markdown_report build_json_report sha256_hexdigest
    dumps_request service elapsed_ms json_loads cancel_check
    run_duration_ms now_isoformat config text requirements w.

End Example.

(* ================================================================== *)
(** * modules/utils/segmentation.py: split_paragraphs *)
(* ================================================================== *)

Module Paragraphs.
Import JsonText Regex Segmentation.

(** [match_end items s]: what is left of [s] after the match of [items]
    at its start that [re] finds first. *)
Fixpoint match_end (items : list item) (s : pystr) : option pystr :=
  match items with
  | [] => Some s
  | Lit text :: rest =>
      match drop_prefix text s with
      | Some s' => match_end rest s'
      | None => None
      end
  | Star cls :: rest => star_loop cls (match_end rest) s
  | LazyGroup :: rest => lazy_loop (fun _ s' => match_end rest s') [] s
  end.

(** An alternation [a|b|...]: the first alternative that matches. *)
Fixpoint match_alternatives (alts : list (list item)) (s : pystr) : option pystr :=
  match alts with
  | [] => None
  | items :: alts' =>
      match match_end items s with
      | Some rest => Some rest
      | None => match_alternatives alts' s
      end
  end.

Definition ch_cr : ascii := ascii_of_nat 13.

(** The pattern of [split_paragraphs]: a newline, white space, a
    newline; or the same with CR LF for the newlines. *)
Definition blank_line : list (list item) :=
  [ [Lit [ch_newline]; Star is_space; Lit [ch_newline]];
    [Lit [ch_cr; ch_newline]; Star is_space; Lit [ch_cr; ch_newline]] ].

(** [re.split(pattern, s)] for a pattern without groups that matches no
    empty text: the pieces between the successive matches, found from
    left to right.  [skip] counts the characters of the current match
    still to pass, and [cur] is the piece being read, last character
    first. *)
Fixpoint re_split (alts : list (list item)) (skip : nat) (cur s : pystr)
  : list pystr :=
  match s with
  | [] => [rev cur]
  | c :: s' =>
      match skip with
      | S n => re_split alts n cur s'
      | 0 =>
          match match_alternatives alts s with
          | Some rest =>
              match length s - length rest with
              | S n => rev cur :: re_split alts n [] s'
              | 0 => re_split alts 0 (c :: cur) s'
              end
          | None => re_split alts 0 (c :: cur) s'
          end
      end
  end.

(** [split_paragraphs(text)] *)
Definition split_paragraphs (text : pystr) : list pystr :=
  map strip (filter (fun p => nonempty (strip p))
                    (re_split blank_line 0 [] (strip text))).

(** No match of the pattern starts inside [piece] when [tail] follows
    it. *)
Definition unmatched (piece tail : pystr) : Prop :=
  forall a b, piece = a ++ b -> b <> [] ->
              match_alternatives blank_line (b ++ tail) = None.

End Paragraphs.

(* ================================================================== *)
(** * modules/config.py *)
(* ================================================================== *)

Module Config.
Import Py Json.
#[local] Open Scope py_scope.

Definition _SECRET_KEYS : list pystr :=
  map py ["api_key"; "openai_api_key"; "litellm_api_key"]%string.

(** ["*" * n] *)
Definition stars (n : Z) : pystr := repeat "*"%char (Z.to_nat n).

(** [value[start:]], for an index of either sign. *)
Definition slice_from (start : Z) (value : pystr) : pystr :=
  let len := Z.of_nat (length value) in
  let i := if (start <? 0)%Z then Z.max 0 (len + start) else Z.min len start in
  skipn (Z.to_nat i) value.

(** [redact(value, keep)] *)
Definition redact (value : pystr) (keep : Z) : pystr :=
  let len := Z.of_nat (length value) in
  if negb (Segmentation.nonempty value) || (len <=? keep)%Z then py "***"
  else stars (len - keep) ++ slice_from (- keep) value.

(** [needle in hay] for two strings *)
Fixpoint contains_sub (needle hay : pystr) : bool :=
  startswith needle hay ||
  match hay with
  | [] => false
  | _ :: hay' => contains_sub needle hay'
  end.

Section WithFloat.

Context {F : Type} `{PyFloat F}.

(** What [redact_dict] puts under the key [k] for the value [v]: a
    dict is redacted in turn, a non-empty string under one of [keys] is
    masked, and anything else (lists included) is kept. *)
Fixpoint redact_value (keys : list pystr) (k : pystr) (v : json F) : json F :=
  match v with
  | JDict entries =>
      JDict (map (fun kv => (fst kv, redact_value keys (fst kv) (snd kv))) entries)
  | JStr s =>
      if mem k keys && Segmentation.nonempty s then JStr (redact s 4) else v
  | _ => v
  end.

(** [redact_dict(d, keys)]; an empty [keys] stands for [None] as well. *)
Definition redact_dict (d : list (pystr * json F)) (keys : list pystr)
  : list (pystr * json F) :=
  let keys := match keys with [] => _SECRET_KEYS | _ :: _ => keys end in
  map (fun kv => (fst kv, redact_value keys (fst kv) (snd kv))) d.

(** [key in v] *)
Definition contains (key : pystr) (v : json F) : result bool :=
  match v with
  | JDict entries =>
      Ok (match lookup key entries with Some _ => true | None => false end)
  | JList items =>
      Ok (existsb (fun item => match item with
                               | JStr s => str_eqb s key
                               | _ => false
                               end) items)
  | JStr s => Ok (contains_sub key s)
  | _ => Raise (TypeError (py "argument of type '" ++ type_name v ++
                           py "' is not iterable"))
  end.

(** [v[key]] for a string [key] *)
Definition subscript (v : json F) (key : pystr) : result (json F) :=
  match v with
  | JDict entries =>
      match lookup key entries with
      | Some x => Ok x
      | None => Raise (mk_exn (py "KeyError") (py "'" ++ key ++ py "'"))
      end
  | JList _ =>
      Raise (TypeError (py "list indices must be integers or slices, not str"))
  | JStr _ => Raise (TypeError (py "string indices must be integers, not 'str'"))
  | _ => Raise (TypeError (py "'" ++ type_name v ++ py "' object is not subscriptable"))
  end.

(** The dataclasses.  Python does not check the annotations of their
    fields, so a field holds whatever value it was given. *)
Record ModelConfig := mk_ModelConfig {
  model : json F;
  temperature : json F;
  top_p : json F;
  max_tokens : json F;
  timeout : json F;
  retries : json F
}.

Record LiteLLMConfig := mk_LiteLLMConfig {
  base_url : json F;
  api_key : json F
}.

Record PipelineConfig := mk_PipelineConfig {
  max_input_chars : json F;
  max_report_chars : json F;
  primary : ModelConfig;
  audit : ModelConfig;
  provider : json F;
  litellm : LiteLLMConfig;
  openai_api_key : json F;
  enable_audit : json F;
  enable_cache : json F;
  verbosity : json F;
  store_prompts : json F;
  redact_secrets : json F
}.

Definition jstr (s : string) : json F := JStr (py s).

(** [ModelConfig()] *)
Definition default_model : ModelConfig :=
  mk_ModelConfig (jstr "gpt-4o") (JFloat (f_lit 0.3)) (JFloat (f_lit 1))
                 (JInt 16384) (JInt 120) (JInt 2).

(** The default of [PipelineConfig.audit]. *)
Definition default_audit : ModelConfig :=
  mk_ModelConfig (jstr "gpt-4o-mini") (JFloat (f_lit 0.2)) (JFloat (f_lit 1))
                 (JInt 8192) (JInt 90) (JInt 2).

(** [LiteLLMConfig()] *)
Definition default_litellm : LiteLLMConfig :=
  mk_LiteLLMConfig (jstr "http://localhost:4000") (jstr "").

(** [PipelineConfig()] *)
Definition default_config : PipelineConfig :=
  mk_PipelineConfig (JInt 8192) (JInt 65536) default_model default_audit
                    (jstr "openai") default_litellm (jstr "")
                    (JBool true) (JBool false) (JInt 1) (JBool false) (JBool true).

(** [PipelineConfig._model_cfg(d)] *)
Definition _model_cfg (d : json F) : result ModelConfig :=
  let! model := get d (py "model") (jstr "gpt-4o") in
  let! temperature := get d (py "temperature") (JFloat (f_lit 0.3)) in
  let! top_p := get d (py "top_p") (JFloat (f_lit 1)) in
  let! max_tokens := get d (py "max_tokens") (JInt 16384) in
  let! timeout := get d (py "timeout") (JInt 120) in
  let! retries := get d (py "retries") (JInt 2) in
  Ok (mk_ModelConfig model temperature top_p max_tokens timeout retries).

(** [if k in d: setattr(cfg, k, d[k])] for one of the simple keys: the
    value the field ends with. *)
Definition simple_field (d : json F) (k : string) (default : json F)
  : result (json F) :=
  let! present := contains (py k) d in
  if present then subscript d (py k) else Ok default.

(** [if role in models: cfg.role = cls._model_cfg(models[role])] *)
Definition model_field (models : json F) (role : string) (default : ModelConfig)
  : result ModelConfig :=
  let! present := contains (py role) models in
  if present then
    let! section := subscript models (py role) in
    _model_cfg section
  else Ok default.

(** [PipelineConfig._from_dict(d)].  The loop over the set [simple]
    touches one field per key, so its order does not matter. *)
Definition _from_dict (d : json F) : result PipelineConfig :=
  let cfg := default_config in
  let! max_input_chars := simple_field d "max_input_chars" (max_input_chars cfg) in
  let! max_report_chars := simple_field d "max_report_chars" (max_report_chars cfg) in
  let! provider := simple_field d "provider" (provider cfg) in
  let! enable_audit := simple_field d "enable_audit" (enable_audit cfg) in
  let! enable_cache := simple_field d "enable_cache" (enable_cache cfg) in
  let! verbosity := simple_field d "verbosity" (verbosity cfg) in
  let! store_prompts := simple_field d "store_prompts" (store_prompts cfg) in
  let! redact_secrets := simple_field d "redact_secrets" (redact_secrets cfg) in
  let! openai_api_key := simple_field d "openai_api_key" (openai_api_key cfg) in
  let! models := get d (py "models") (JDict []) in
  let! primary := model_field models "primary" (primary cfg) in
  let! audit := model_field models "audit" (audit cfg) in
  let! ll := get d (py "litellm") (JDict []) in
  let! litellm :=
    if truthy ll then
      let! base_url := get ll (py "base_url") (base_url (litellm cfg)) in
      let! api_key := get ll (py "api_key") (api_key (litellm cfg)) in
      Ok (mk_LiteLLMConfig base_url api_key)
    else Ok (litellm cfg) in
  Ok (mk_PipelineConfig max_input_chars max_report_chars primary audit provider
                        litellm openai_api_key enable_audit enable_cache
                        verbosity store_prompts redact_secrets).

(** [dataclasses.asdict] on the two small classes *)
Definition asdict_model (m : ModelConfig) : json F :=
  JDict [(py "model", model m); (py "temperature", temperature m);
         (py "top_p", top_p m); (py "max_tokens", max_tokens m);
         (py "timeout", timeout m); (py "retries", retries m)].

Definition asdict_litellm (l : LiteLLMConfig) : json F :=
  JDict [(py "base_url", base_url l); (py "api_key", api_key l)].

(** [cfg.to_dict(safe)] *)
Definition to_dict (cfg : PipelineConfig) (safe : bool) : list (pystr * json F) :=
  let d :=
    [(py "max_input_chars", max_input_chars cfg);
     (py "max_report_chars", max_report_chars cfg);
     (py "models", JDict [(py "primary", asdict_model (primary cfg));
                          (py "audit", asdict_model (audit cfg))]);
     (py "provider", provider cfg);
     (py "litellm", asdict_litellm (litellm cfg));
     (py "openai_api_key", openai_api_key cfg);
     (py "enable_audit", enable_audit cfg);
     (py "enable_cache", enable_cache cfg);
     (py "verbosity", verbosity cfg);
     (py "store_prompts", store_prompts cfg);
     (py "redact_secrets", redact_secrets cfg)] in
  if safe && truthy (redact_secrets cfg) then redact_dict d [] else d.

(** [os.getenv(name, "")] followed by the test
    [if value and not field: field = value]. *)
Definition env_default (value : pystr) (field : json F) : json F :=
  if Segmentation.nonempty value && negb (truthy field) then JStr value else field.

(** [PipelineConfig.load(config_path, overrides=None)]: [file] is what
    [json.loads] reads from the file, when a path is given and the file
    exists, and [getenv] the environment. *)
Definition load (file : option (json F)) (getenv : pystr -> pystr)
  : result PipelineConfig :=
  let raw := match file with Some v => v | None => JDict [] end in
  let! cfg := _from_dict raw in
  let key := env_default (getenv (py "OPENAI_API_KEY")) (openai_api_key cfg) in
  let ll_key := env_default (getenv (py "LITELLM_API_KEY")) (api_key (litellm cfg)) in
  let ll_url := env_default (getenv (py "LITELLM_BASE_URL")) (base_url (litellm cfg)) in
  Ok (mk_PipelineConfig (max_input_chars cfg) (max_report_chars cfg)
                        (primary cfg) (audit cfg) (provider cfg)
                        (mk_LiteLLMConfig ll_url ll_key) key
                        (enable_audit cfg) (enable_cache cfg) (verbosity cfg)
                        (store_prompts cfg) (redact_secrets cfg)).

(** The value found by following [path] through nested dicts. *)
Fixpoint lookup_path (v : json F) (path : list pystr) : option (json F) :=
  match path with
  | [] => Some v
  | k :: path' =>
      match v with
      | JDict entries =>
          match lookup k entries with
          | Some x => lookup_path x path'
          | None => None
          end
      | _ => None
      end
  end.

(** The configurations the annotations describe: no field holds a dict. *)
Definition scalar (v : json F) : bool :=
  match v with JDict _ => false | _ => true end.

Definition scalar_model (m : ModelConfig) : bool :=
  scalar (model m) && scalar (temperature m) && scalar (top_p m) &&
  scalar (max_tokens m) && scalar (timeout m) && scalar (retries m).

Definition scalar_config (cfg : PipelineConfig) : bool :=
  scalar (max_input_chars cfg) && scalar (max_report_chars cfg) &&
  scalar_model (primary cfg) && scalar_model (audit cfg) &&
  scalar (provider cfg) && scalar (base_url (litellm cfg)) &&
  scalar (api_key (litellm cfg)) && scalar (openai_api_key cfg) &&
  scalar (enable_audit cfg) && scalar (enable_cache cfg) &&
  scalar (verbosity cfg) && scalar (store_prompts cfg) &&
  scalar (redact_secrets cfg).

(** A secret as it is shown: a non-empty string masked to its last four
    characters, anything else as it is. *)
Definition mask (v : json F) : json F :=
  match v with
  | JStr s => if Segmentation.nonempty s then JStr (redact s 4) else v
  | _ => v
  end.

(** The configuration with its two API keys masked. *)
Definition masked (cfg : PipelineConfig) : PipelineConfig :=
  mk_PipelineConfig (max_input_chars cfg) (max_report_chars cfg)
                    (primary cfg) (audit cfg) (provider cfg)
                    (mk_LiteLLMConfig (base_url (litellm cfg))
                                      (mask (api_key (litellm cfg))))
                    (mask (openai_api_key cfg))
                    (enable_audit cfg) (enable_cache cfg) (verbosity cfg)
                    (store_prompts cfg) (redact_secrets cfg).

(** The top-level keys [_from_dict] reads. *)
Definition known_keys : list pystr :=
  map py ["max_input_chars"; "max_report_chars"; "provider"; "enable_audit";
          "enable_cache"; "verbosity"; "store_prompts"; "redact_secrets";
          "openai_api_key"; "models"; "litellm"]%string.

End WithFloat.

End Config.

(* ################################################################## *)
(** * Properties *)
(* ################################################################## *)

Module PyStrFacts.
Import PyStr.

Lemma str_eqb_eq (a b : pystr) : str_eqb a b = true <-> a = b.
Proof.
  revert b; induction a as [|x a IH]; intros [|y b]; simpl; try easy.
  rewrite andb_true_iff, Ascii.eqb_eq, IH. split.
  - intros [-> ->]; reflexivity.
  - intros H; injection H; auto.
Qed.

Lemma str_eqb_refl (a : pystr) : str_eqb a a = true.
Proof. apply str_eqb_eq; reflexivity. Qed.

Lemma str_eqb_neq (a b : pystr) : str_eqb a b = false <-> a <> b.
Proof.
  rewrite <- str_eqb_eq. destruct (str_eqb a b); split; congruence.
Qed.

Lemma str_eqb_sym (a b : pystr) : str_eqb a b = str_eqb b a.
Proof.
  destruct (str_eqb a b) eqn:E.
  - apply str_eqb_eq in E; subst; symmetry; apply str_eqb_refl.
  - symmetry; apply str_eqb_neq. apply str_eqb_neq in E. congruence.
Qed.

End PyStrFacts.

(* ================================================================== *)
(** * Repetition passes *)
(* ================================================================== *)

Module RepetitionFacts.
Import PyStr PyStrFacts Repetition.

(** ** The location dictionary *)

Lemma setdefault_append_keys key pi d :
  map fst (setdefault_append key pi d) =
  if mem key (map fst d) then map fst d else map fst d ++ [key].
Proof.
  induction d as [|[k locs] d IH]; simpl; [reflexivity|].
  rewrite (str_eqb_sym key k).
  destruct (str_eqb k key); simpl; [reflexivity|].
  rewrite IH. unfold mem. destruct (existsb _ _); reflexivity.
Qed.

Lemma mem_In w table : mem w table = true <-> In w table.
Proof.
  unfold mem. rewrite existsb_exists. split.
  - intros (x & Hx & E). apply str_eqb_eq in E. now subst.
  - intros H. exists w. split; [assumption | apply str_eqb_refl].
Qed.

Lemma setdefault_append_NoDup key pi d :
  NoDup (map fst d) -> NoDup (map fst (setdefault_append key pi d)).
Proof.
  intros H. rewrite setdefault_append_keys.
  destruct (mem key (map fst d)) eqn:E; [assumption|].
  apply NoDup_app; [assumption | constructor; [easy | constructor] |].
  intros x Hx [<- | []]. apply mem_In in Hx. congruence.
Qed.

Lemma get0_setdefault_append k key pi d :
  get0 k (setdefault_append key pi d) =
  if str_eqb k key then get0 k d ++ [pi] else get0 k d.
Proof.
  induction d as [|[k' locs] d IH]; simpl.
  - rewrite (str_eqb_sym key k). destruct (str_eqb k key); reflexivity.
  - destruct (str_eqb k' key) eqn:E1; simpl.
    + apply str_eqb_eq in E1; subst k'.
      rewrite (str_eqb_sym key k). destruct (str_eqb k key); reflexivity.
    + destruct (str_eqb k' k) eqn:E2; [|exact IH].
      apply str_eqb_eq in E2; subst k'. now rewrite E1.
Qed.

Lemma get0_In k locs d :
  NoDup (map fst d) -> In (k, locs) d -> get0 k d = locs.
Proof.
  induction d as [|[k' l'] d IH]; simpl; [easy|].
  intros Hnd [E | Hin].
  - injection E as -> ->. now rewrite str_eqb_refl.
  - inversion Hnd; subst.
    destruct (str_eqb k' k) eqn:E.
    + apply str_eqb_eq in E; subst k'.
      exfalso. apply H1. now apply (in_map fst) in Hin.
    + now apply IH.
Qed.

Lemma record_events_NoDup evs d :
  NoDup (map fst d) -> NoDup (map fst (fold_left record_event evs d)).
Proof.
  revert d; induction evs as [|e evs IH]; intros d H; simpl; [assumption|].
  apply IH. now apply setdefault_append_NoDup.
Qed.

Lemma get0_record_events k evs d :
  get0 k (fold_left record_event evs d) = get0 k d ++ locs_of k evs.
Proof.
  revert d; induction evs as [|e evs IH]; intros d; simpl.
  - unfold locs_of; simpl. now rewrite app_nil_r.
  - rewrite IH. unfold record_event. rewrite get0_setdefault_append.
    unfold locs_of; simpl.
    destruct (str_eqb k (fst e)); simpl; [now rewrite <- app_assoc | reflexivity].
Qed.

(** ** The loops as a stream of recorded occurrences *)

Lemma fold_left_flat_map {A B C} (f : A -> B -> A) (g : C -> list B) l a :
  fold_left f (flat_map g l) a = fold_left (fun a x => fold_left f (g x) a) l a.
Proof.
  revert a; induction l as [|x l IH]; intros a; simpl; [reflexivity|].
  now rewrite fold_left_app, IH.
Qed.

Lemma fold_left_ext_in {A B} (f g : A -> B -> A) l a :
  (forall a x, f a x = g a x) -> fold_left f l a = fold_left g l a.
Proof.
  intros H; revert a; induction l as [|x l IH]; intros a; simpl; [reflexivity|].
  now rewrite H, IH.
Qed.

Lemma fold_left_map {A B C} (f : A -> C -> A) (h : B -> C) l a :
  fold_left f (map h l) a = fold_left (fun a x => f a (h x)) l a.
Proof.
  revert a; induction l as [|x l IH]; intros a; simpl; [reflexivity | apply IH].
Qed.

Lemma fold_left_filter_map {A B C} (f : A -> C -> A) (keep : B -> bool)
  (h : B -> C) l a :
  fold_left (fun a x => if keep x then f a (h x) else a) l a =
  fold_left f (map h (filter keep l)) a.
Proof.
  revert a; induction l as [|x l IH]; intros a; simpl; [reflexivity|].
  destruct (keep x); simpl; apply IH.
Qed.

Lemma ngram_size_loop_events stop words pi d n :
  ngram_size_loop stop words pi d n =
  fold_left record_event
    (tag pi (map (join (py " "))
                 (filter (fun g => negb (forallb (fun w => mem w stop) g))
                         (windows words n)))) d.
Proof.
  unfold ngram_size_loop, windows, tag.
  rewrite !map_map.
  rewrite <- (fold_left_filter_map record_event
               (fun g => negb (forallb (fun w => mem w stop) g))
               (fun g => (join (py " ") g, pi))).
  rewrite fold_left_map.
  apply fold_left_ext_in. intros a i. unfold ngram_step, record_event; simpl.
  now destruct (forallb _ _).
Qed.

Lemma tag_flat_map {A} pi (g : A -> list pystr) l :
  tag pi (flat_map g l) = flat_map (fun x => tag pi (g x)) l.
Proof.
  unfold tag. induction l as [|x l IH]; simpl; [reflexivity|].
  now rewrite map_app, IH.
Qed.

Lemma ngram_para_loop_events stop sizes d ip :
  ngram_para_loop stop sizes d ip =
  fold_left record_event (tag (fst ip) (recorded_grams stop sizes (snd ip))) d.
Proof.
  unfold ngram_para_loop, recorded_grams.
  rewrite tag_flat_map, fold_left_flat_map.
  apply fold_left_ext_in. intros a n. apply ngram_size_loop_events.
Qed.

Lemma ngram_locations_events paragraphs language sizes :
  ngram_locations paragraphs language sizes =
  fold_left record_event
    (events (recorded_grams (stop_words language) sizes) (enumerate paragraphs)) [].
Proof.
  unfold ngram_locations, events. rewrite fold_left_flat_map.
  apply fold_left_ext_in. intros a ip. apply ngram_para_loop_events.
Qed.

Lemma word_locs_events paragraphs language :
  word_locs paragraphs language =
  fold_left record_event
    (events (recorded_words (stop_words language)) (enumerate paragraphs)) [].
Proof.
  unfold word_locs, events. rewrite fold_left_flat_map.
  apply fold_left_ext_in. intros a ip.
  unfold word_para_loop, recorded_words, tag.
  rewrite <- (fold_left_filter_map record_event
               (fun w => negb (mem w (stop_words language) || (length w <? 3)))
               (fun w => (w, fst ip))).
  apply fold_left_ext_in. intros b w. unfold word_step, record_event; simpl.
  now destruct (mem w _ || _).
Qed.

(** ** Locations and counts of one phrase *)

Lemma locs_of_app k e1 e2 : locs_of k (e1 ++ e2) = locs_of k e1 ++ locs_of k e2.
Proof. unfold locs_of. now rewrite filter_app, map_app. Qed.

Lemma locs_of_tag k pi keys : locs_of k (tag pi keys) = repeat pi (occ k keys).
Proof.
  unfold locs_of, tag, occ. induction keys as [|w keys IH]; simpl; [reflexivity|].
  destruct (str_eqb k w); simpl; now rewrite IH.
Qed.

Lemma locs_of_events k record l :
  locs_of k (events record l) =
  flat_map (fun ip => repeat (fst ip) (occ k (record (snd ip)))) l.
Proof.
  unfold events. induction l as [|ip l IH]; simpl; [reflexivity|].
  now rewrite locs_of_app, locs_of_tag, IH.
Qed.

Lemma length_locs k record (ps : list pystr) a :
  length (flat_map (fun ip => repeat (fst ip) (occ k (record (snd ip))))
                   (combine (seq a (length ps)) ps)) =
  list_sum (map (fun para => occ k (record para)) ps).
Proof.
  revert a; induction ps as [|p ps IH]; intros a; simpl; [reflexivity|].
  now rewrite length_app, repeat_length, IH.
Qed.

(** An occupied paragraph after position [a] has an index above [a]. *)
Lemma indices_above (keep : nat * pystr -> bool) (ps : list pystr) a :
  Forall (fun i => a <= i) (map fst (filter keep (combine (seq a (length ps)) ps))).
Proof.
  revert a; induction ps as [|p ps IH]; intros a; simpl; [constructor|].
  specialize (IH (S a)).
  assert (H : Forall (fun i => a <= i)
                (map fst (filter keep (combine (seq (S a) (length ps)) ps)))).
  { eapply Forall_impl; [|exact IH]. simpl; lia. }
  destruct (keep (a, p)); simpl; [constructor; [lia | exact H] | exact H].
Qed.

Lemma insert_uniq_below x l :
  Forall (fun i => x < i) l -> insert_uniq x l = x :: l.
Proof.
  destruct l as [|y l]; simpl; [reflexivity|].
  intros H; inversion H; subst.
  destruct (x <? y) eqn:E; [reflexivity | apply Nat.ltb_ge in E; lia].
Qed.

Lemma insert_uniq_head x l : insert_uniq x (x :: l) = x :: l.
Proof. simpl. now rewrite Nat.ltb_irrefl, Nat.eqb_refl. Qed.

Lemma sorted_set_repeat x n l :
  Forall (fun i => x < i) l ->
  fold_right insert_uniq l (repeat x n) = match n with 0 => l | S _ => x :: l end.
Proof.
  intros H. induction n as [|n IH]; simpl; [reflexivity|].
  rewrite IH. destruct n; [now apply insert_uniq_below | apply insert_uniq_head].
Qed.

Lemma sorted_set_locs k record (ps : list pystr) a :
  sorted_set (flat_map (fun ip => repeat (fst ip) (occ k (record (snd ip))))
                       (combine (seq a (length ps)) ps)) =
  map fst (filter (fun ip => 0 <? occ k (record (snd ip)))
                  (combine (seq a (length ps)) ps)).
Proof.
  unfold sorted_set.
  revert a; induction ps as [|p ps IH]; intros a; simpl; [reflexivity|].
  rewrite fold_right_app, IH, sorted_set_repeat.
  - destruct (occ k (record p)); reflexivity.
  - eapply Forall_impl; [|apply indices_above]. simpl; lia.
Qed.

Lemma length_occupied_le k record (l : list (nat * pystr)) :
  length (filter (fun ip => 0 <? occ k (record (snd ip))) l) <=
  list_sum (map (fun ip => occ k (record (snd ip))) l).
Proof.
  induction l as [|ip l IH]; simpl; [lia|].
  destruct (occ k (record (snd ip))); simpl; lia.
Qed.

Lemma length_occupied_eq k record (l : list (nat * pystr)) :
  length (filter (fun ip => 0 <? occ k (record (snd ip))) l) =
  list_sum (map (fun ip => occ k (record (snd ip))) l) <->
  Forall (fun ip => occ k (record (snd ip)) <= 1) l.
Proof.
  induction l as [|ip l IH]; simpl; [split; [constructor | reflexivity]|].
  pose proof (length_occupied_le k record l) as Hle.
  rewrite Forall_cons_iff, <- IH.
  destruct (occ k (record (snd ip))) as [|[|n]]; simpl; lia.
Qed.

Lemma map_snd_enumerate {A} (l : list A) a :
  map snd (combine (seq a (length l)) l) = l.
Proof.
  revert a; induction l as [|x l IH]; intros a; simpl; [reflexivity|].
  now rewrite IH.
Qed.

(** ** Sorting, truncation and collection keep only dictionary items *)

Lemma In_insert_by_count r x l : In r (insert_by_count x l) <-> r = x \/ In r l.
Proof.
  induction l as [|y l IH]; simpl; [intuition|].
  destruct (count y <=? count x); simpl; [intuition|].
  rewrite IH. intuition.
Qed.

Lemma In_sort_by_count_desc r l : In r (sort_by_count_desc l) <-> In r l.
Proof.
  unfold sort_by_count_desc. induction l as [|x l IH]; simpl; [tauto|].
  rewrite In_insert_by_count, IH. intuition.
Qed.

Lemma In_firstn {A} (x : A) n l : In x (firstn n l) -> In x l.
Proof.
  revert l; induction n as [|n IH]; intros [|y l]; simpl; try easy.
  intros [-> | H]; [now left | right; now apply IH].
Qed.

Lemma In_collect r mc d :
  In r (collect mc d) ->
  exists k locs, In (k, locs) d /\ mc <= length locs /\
                 r = mkRepetitionItem k (length locs) (sorted_set locs).
Proof.
  unfold collect. rewrite in_map_iff. intros ([k locs] & <- & Hin).
  apply filter_In in Hin. destruct Hin as [Hin Hmc]. simpl in *.
  exists k, locs. repeat split; [assumption | now apply Nat.leb_le].
Qed.

(** Every reported item, in either pass, is the dictionary entry of its
    phrase: counted once per recorded occurrence. *)
Lemma reported_item record (paragraphs : list pystr) cap mc r :
  In r (firstn cap (sort_by_count_desc
          (collect mc (fold_left record_event
                         (events record (enumerate paragraphs)) [])))) ->
  count r = occurrences (phrase r) record paragraphs /\
  locations r = paragraphs_with (phrase r) record paragraphs /\
  mc <= count r.
Proof.
  intros Hin. apply In_firstn, In_sort_by_count_desc, In_collect in Hin.
  destruct Hin as (k & locs & Hin & Hmc & ->). simpl.
  apply get0_In in Hin; [|apply record_events_NoDup; constructor].
  rewrite get0_record_events in Hin. simpl in Hin.
  rewrite locs_of_events in Hin. subst locs. unfold enumerate in *.
  unfold occurrences, paragraphs_with, enumerate.
  rewrite length_locs in *. rewrite sorted_set_locs. auto.
Qed.

Lemma occupied_le_occurrences p record (paragraphs : list pystr) :
  length (paragraphs_with p record paragraphs) <= occurrences p record paragraphs.
Proof.
  unfold paragraphs_with, occurrences, enumerate. rewrite length_map.
  etransitivity; [apply length_occupied_le|].
  rewrite <- (map_map snd (fun para => occ p (record para))), map_snd_enumerate.
  reflexivity.
Qed.

Lemma occupied_eq_occurrences p record (paragraphs : list pystr) :
  occurrences p record paragraphs = length (paragraphs_with p record paragraphs) <->
  Forall (fun para => occ p (record para) <= 1) paragraphs.
Proof.
  unfold paragraphs_with, occurrences, enumerate. rewrite length_map.
  rewrite <- (map_snd_enumerate paragraphs 0) at 1 4.
  rewrite map_map, Forall_map. rewrite <- length_occupied_eq.
  split; intros H; symmetry; exact H.
Qed.

(** The same item-by-item account for the single-word pass. *)
Lemma word_count_per_occurrence paragraphs language min_count r :
  In r (detect_word_repetitions paragraphs language min_count) ->
  count r = occurrences (phrase r) (recorded_words (stop_words language)) paragraphs /\
  locations r = paragraphs_with (phrase r) (recorded_words (stop_words language)) paragraphs /\
  length (locations r) <= count r.
Proof.
  unfold detect_word_repetitions. rewrite word_locs_events. intros H.
  apply reported_item in H. destruct H as (Hc & Hl & _).
  rewrite Hc, Hl. repeat split. apply occupied_le_occurrences.
Qed.

(** C1, as stated, fails: in the one-paragraph document
    "big dog big dog big dog" the bigram "big dog" is reported by the
    n-gram pass with count 3 although it lies in a single paragraph, so
    count is not len(locations). *)
Lemma ngram_count_exceeds_locations :
  let r := mkRepetitionItem (py "big dog") 3 [0] in
  detect_repetitions [py "big dog big dog big dog"] (py "en") 3 [2; 3] = [r] /\
  count r <> length (locations r).
Proof. split; [vm_compute; reflexivity | simpl; lia]. Qed.

(** C1 (amended): every RepetitionItem of the n-gram pass has count equal
    to the number of recorded occurrences of its phrase (one per window,
    over all paragraphs and sizes, as the word pass counts one per word),
    and locations equal to the increasing list of the distinct paragraphs
    containing it; hence len(locations) <= count, with equality exactly
    when no paragraph contains the phrase more than once. *)
Theorem ngram_count_per_occurrence paragraphs language min_count ngram_sizes r :
  In r (detect_repetitions paragraphs language min_count ngram_sizes) ->
  let record := recorded_grams (stop_words language) ngram_sizes in
  count r = occurrences (phrase r) record paragraphs /\
  locations r = paragraphs_with (phrase r) record paragraphs /\
  length (locations r) <= count r /\
  (count r = length (locations r) <->
   Forall (fun para => occ (phrase r) (record para) <= 1) paragraphs).
Proof.
  unfold detect_repetitions. rewrite ngram_locations_events. intros H.
  apply reported_item in H. destruct H as (Hc & Hl & _).
  cbv zeta. rewrite Hc, Hl. repeat split.
  - apply occupied_le_occurrences.
  - intros E. now apply occupied_eq_occurrences.
  - intros E. now apply occupied_eq_occurrences.
Qed.

Lemma ngram_count_per_occurrence_witness :
  let paragraphs := map py ["The big red dog ran fast."; "The big red cat sat still.";
                            "The big red bird flew high."; "The big red fish swam deep."]%string in
  let r := mkRepetitionItem (py "big red") 4 [0; 1; 2; 3] in
  In r (detect_repetitions paragraphs (py "en") 3 [2; 3]) /\
  count r = occurrences (phrase r)
              (recorded_grams (stop_words (py "en")) [2; 3]) paragraphs.
Proof.
  intros paragraphs r.
  assert (H : In r (detect_repetitions paragraphs (py "en") 3 [2; 3])).
  { vm_compute. right; left; reflexivity. }
  split; [exact H|].
  exact (proj1 (ngram_count_per_occurrence paragraphs (py "en") 3 [2; 3] r H)).
Defined.

(** ** Order, cap and threshold of the reported items *)

Lemma insert_by_count_sorted x l :
  StronglySorted (fun a b => count b <= count a) l ->
  StronglySorted (fun a b => count b <= count a) (insert_by_count x l).
Proof.
  induction 1 as [|y l Hs IH Hy]; simpl; [repeat constructor|].
  destruct (count y <=? count x) eqn:E.
  - apply Nat.leb_le in E. constructor; [now constructor|].
    constructor; [exact E|]. eapply Forall_impl; [|exact Hy]. simpl. lia.
  - apply Nat.leb_gt in E. constructor; [exact IH|].
    apply Forall_forall. intros z Hz. apply In_insert_by_count in Hz.
    destruct Hz as [-> | Hz]; [lia|].
    rewrite Forall_forall in Hy. now apply Hy.
Qed.

Lemma sort_by_count_desc_sorted l :
  StronglySorted (fun a b => count b <= count a) (sort_by_count_desc l).
Proof.
  unfold sort_by_count_desc. induction l as [|x l IH]; simpl; [constructor|].
  now apply insert_by_count_sorted.
Qed.

Lemma firstn_sorted {A} (R : A -> A -> Prop) n l :
  StronglySorted R l -> StronglySorted R (firstn n l).
Proof.
  intros H. revert n. induction H as [|x l Hs IH Hx]; intros [|n]; simpl;
    try constructor; [apply IH|].
  apply Forall_forall. intros y Hy. apply In_firstn in Hy.
  rewrite Forall_forall in Hx. now apply Hx.
Qed.

Lemma collect_threshold mc d : Forall (fun r => mc <= count r) (collect mc d).
Proof.
  apply Forall_forall. intros r Hr. apply In_collect in Hr.
  destruct Hr as (k & locs & _ & Hmc & ->). exact Hmc.
Qed.

Lemma ranked cap mc d :
  let out := firstn cap (sort_by_count_desc (collect mc d)) in
  length out <= cap /\
  StronglySorted (fun a b => count b <= count a) out /\
  Forall (fun r => mc <= count r) out.
Proof.
  cbv zeta. split; [|split].
  - rewrite length_firstn. apply Nat.le_min_l.
  - apply firstn_sorted, sort_by_count_desc_sorted.
  - apply Forall_forall. intros r Hr.
    apply In_firstn in Hr. apply (proj1 (In_sort_by_count_desc _ _)) in Hr.
    pose proof (collect_threshold mc d) as H. rewrite Forall_forall in H.
    now apply H.
Qed.

(** Both repetition passes return a ranking: at most 30 (n-grams) or 20
    (words) items, in non-increasing order of count, each counted at
    least [min_count] times. *)
Theorem repetitions_ranked paragraphs language min_count ngram_sizes :
  let grams := detect_repetitions paragraphs language min_count ngram_sizes in
  let words := detect_word_repetitions paragraphs language min_count in
  (length grams <= 30 /\
   StronglySorted (fun a b => count b <= count a) grams /\
   Forall (fun r => min_count <= count r) grams) /\
  (length words <= 20 /\
   StronglySorted (fun a b => count b <= count a) words /\
   Forall (fun r => min_count <= count r) words).
Proof. split; apply ranked. Qed.

(** ** Distinct phrases *)

Lemma NoDup_map_filter {A B} (f : A -> B) (keep : A -> bool) l :
  NoDup (map f l) -> NoDup (map f (filter keep l)).
Proof.
  induction l as [|x l IH]; simpl; [trivial|].
  intros H. inversion H as [|? ? Hx Hl]; subst.
  destruct (keep x); simpl; [|now apply IH].
  constructor; [|now apply IH].
  intros Hin. apply Hx. apply in_map_iff in Hin.
  destruct Hin as (y & E & Hy). apply filter_In in Hy.
  apply in_map_iff. exists y. tauto.
Qed.

Lemma collect_phrases mc d :
  map phrase (collect mc d) =
  map fst (filter (fun kv => mc <=? length (snd kv)) d).
Proof. unfold collect. rewrite map_map. reflexivity. Qed.

Lemma insert_by_count_NoDup x l :
  NoDup (map phrase (x :: l)) -> NoDup (map phrase (insert_by_count x l)).
Proof.
  induction l as [|y l IH]; simpl; [trivial|].
  intros H. destruct (count y <=? count x); [exact H|].
  simpl. inversion H as [|? ? Hx Hl]; subst.
  inversion Hl as [|? ? Hy Hl']; subst.
  constructor.
  - intros Hin. apply in_map_iff in Hin. destruct Hin as (z & E & Hz).
    apply In_insert_by_count in Hz. destruct Hz as [-> | Hz].
    + apply Hx. left. now symmetry.
    + apply Hy. apply in_map_iff. now exists z.
  - apply IH. simpl. constructor; [|exact Hl'].
    intros Hin. apply Hx. now right.
Qed.

Lemma sort_by_count_desc_NoDup l :
  NoDup (map phrase l) -> NoDup (map phrase (sort_by_count_desc l)).
Proof.
  unfold sort_by_count_desc. induction l as [|x l IH]; simpl; [trivial|].
  intros H. inversion H as [|? ? Hx Hl]; subst.
  apply insert_by_count_NoDup. simpl. constructor; [|now apply IH].
  intros Hin. apply Hx. apply in_map_iff in Hin.
  destruct Hin as (z & E & Hz). apply (proj1 (In_sort_by_count_desc z l)) in Hz.
  apply in_map_iff. now exists z.
Qed.

Lemma firstn_NoDup {A} n (l : list A) : NoDup l -> NoDup (firstn n l).
Proof.
  intros H. revert n. induction H as [|x l Hx Hl IH]; intros [|n]; simpl;
    try constructor; [|apply IH].
  intros Hin. apply Hx. now apply In_firstn in Hin.
Qed.

Lemma distinct_phrases cap mc evs :
  NoDup (map phrase (firstn cap (sort_by_count_desc
                       (collect mc (fold_left record_event evs []))))).
Proof.
  rewrite <- firstn_map. apply firstn_NoDup, sort_by_count_desc_NoDup.
  rewrite collect_phrases. apply NoDup_map_filter, record_events_NoDup.
  constructor.
Qed.

(** No phrase is reported twice by a pass. *)
Theorem repetitions_distinct paragraphs language min_count ngram_sizes :
  NoDup (map phrase (detect_repetitions paragraphs language min_count ngram_sizes)) /\
  NoDup (map phrase (detect_word_repetitions paragraphs language min_count)).
Proof.
  split.
  - unfold detect_repetitions. rewrite ngram_locations_events.
    apply distinct_phrases.
  - unfold detect_word_repetitions. rewrite word_locs_events.
    apply distinct_phrases.
Qed.

(** ** Counts and locations *)

Lemma record_events_keys k evs d :
  In k (map fst (fold_left record_event evs d)) ->
  In k (map fst d) \/ In k (map fst evs).
Proof.
  revert d; induction evs as [|e evs IH]; intros d; simpl; [now left|].
  intros Hin. apply IH in Hin. destruct Hin as [Hin | Hin]; [|right; now right].
  unfold record_event in Hin. rewrite setdefault_append_keys in Hin.
  destruct (mem (fst e) (map fst d)); [now left|].
  apply in_app_or in Hin. destruct Hin as [Hin | [<- | []]]; [now left|].
  right. now left.
Qed.

Lemma locs_of_nonempty k evs : In k (map fst evs) -> locs_of k evs <> [].
Proof.
  unfold locs_of. induction evs as [|e evs IH]; simpl; [easy|].
  intros [E | Hin].
  - subst k. now rewrite str_eqb_refl.
  - destruct (str_eqb k (fst e)); [easy | now apply IH].
Qed.

(** Every reported item was recorded at least once. *)
Lemma reported_positive cap mc evs r :
  In r (firstn cap (sort_by_count_desc
          (collect mc (fold_left record_event evs [])))) ->
  0 < count r.
Proof.
  intros Hin. apply In_firstn in Hin.
  apply (proj1 (In_sort_by_count_desc _ _)) in Hin. apply In_collect in Hin.
  destruct Hin as (k & locs & Hin & _ & ->). simpl.
  assert (Hk : In k (map fst (fold_left record_event evs []))).
  { apply in_map_iff. now exists (k, locs). }
  apply record_events_keys in Hk. destruct Hk as [[] | Hk].
  apply get0_In in Hin; [|apply record_events_NoDup; constructor].
  rewrite get0_record_events in Hin. simpl in Hin. subst locs.
  apply locs_of_nonempty in Hk. destruct (locs_of k evs); [congruence | simpl; lia].
Qed.

Lemma occupied_sorted (keep : nat * pystr -> bool) (ps : list pystr) a :
  StronglySorted lt (map fst (filter keep (combine (seq a (length ps)) ps))) /\
  Forall (fun i => i < a + length ps)
         (map fst (filter keep (combine (seq a (length ps)) ps))).
Proof.
  revert a; induction ps as [|p ps IH]; intros a; simpl;
    [split; constructor|].
  destruct (IH (S a)) as [Hs Hb].
  assert (Hb' : Forall (fun i => i < a + S (length ps))
                  (map fst (filter keep (combine (seq (S a) (length ps)) ps)))).
  { eapply Forall_impl; [|exact Hb]. simpl. lia. }
  destruct (keep (a, p)); simpl; [|now split].
  split.
  - constructor; [exact Hs|].
    eapply Forall_impl; [|apply (indices_above keep ps (S a))]. simpl. lia.
  - constructor; [lia | exact Hb'].
Qed.

Lemma occupied_nonempty {A} (f : A -> nat) (l : list A) :
  0 < list_sum (map f l) -> filter (fun x => 0 <? f x) l <> [].
Proof.
  induction l as [|x l IH]; simpl; [lia|].
  destruct (f x) eqn:E; simpl; [exact IH | easy].
Qed.

Lemma paragraphs_with_shape p record (paragraphs : list pystr) :
  0 < occurrences p record paragraphs ->
  paragraphs_with p record paragraphs <> [] /\
  StronglySorted lt (paragraphs_with p record paragraphs) /\
  Forall (fun i => i < length paragraphs) (paragraphs_with p record paragraphs).
Proof.
  intros Hpos. unfold paragraphs_with, enumerate. split; [|apply occupied_sorted].
  intros E. apply map_eq_nil in E. revert E.
  apply (occupied_nonempty (fun ip => occ p (record (snd ip)))).
  unfold occurrences in Hpos.
  rewrite <- (map_snd_enumerate paragraphs 0) in Hpos at 1.
  now rewrite map_map in Hpos.
Qed.

Lemma reported_shape record (paragraphs : list pystr) cap mc r :
  In r (firstn cap (sort_by_count_desc
          (collect mc (fold_left record_event
                         (events record (enumerate paragraphs)) [])))) ->
  0 < occurrences (phrase r) record paragraphs /\
  0 < count r /\ locations r <> [] /\
  StronglySorted lt (locations r) /\
  Forall (fun i => i < length paragraphs) (locations r).
Proof.
  intros Hin. pose proof (reported_positive _ _ _ _ Hin) as Hpos.
  apply reported_item in Hin. destruct Hin as (Hc & Hl & _).
  rewrite Hc in Hpos. rewrite Hl, Hc.
  split; [exact Hpos|]. split; [exact Hpos|].
  now apply paragraphs_with_shape.
Qed.

(** The locations of a reported item, in either pass, are a non-empty,
    strictly increasing list of paragraph indices of the document, and
    its count is positive. *)
Theorem repetition_locations paragraphs language min_count ngram_sizes r :
  In r (detect_repetitions paragraphs language min_count ngram_sizes) \/
  In r (detect_word_repetitions paragraphs language min_count) ->
  0 < count r /\ locations r <> [] /\
  StronglySorted lt (locations r) /\
  Forall (fun i => i < length paragraphs) (locations r).
Proof.
  intros [H | H].
  - unfold detect_repetitions in H. rewrite ngram_locations_events in H.
    now apply reported_shape in H.
  - unfold detect_word_repetitions in H. rewrite word_locs_events in H.
    now apply reported_shape in H.
Qed.

Lemma repetition_locations_witness :
  let paragraphs := map py ["the cat sat"; "a dog"; "the cat ran"; "the cat hid"]%string in
  let r := mkRepetitionItem (py "the cat") 3 [0; 2; 3] in
  In r (detect_repetitions paragraphs (py "en") 3 [2; 3]) /\
  StronglySorted lt (locations r) /\
  Forall (fun i => i < length paragraphs) (locations r).
Proof.
  intros paragraphs r.
  assert (H : In r (detect_repetitions paragraphs (py "en") 3 [2; 3])).
  { vm_compute. left; reflexivity. }
  split; [exact H|].
  exact (proj2 (proj2 (repetition_locations paragraphs (py "en") 3 [2; 3] r
                         (or_introl H)))).
Defined.

(** ** What is reported *)

Lemma occ_positive p l : 0 < occ p l -> In p l.
Proof.
  unfold occ. induction l as [|x l IH]; simpl; [lia|].
  destruct (str_eqb p x) eqn:E; [|intros H; right; now apply IH].
  intros _. left. apply str_eqb_eq in E. now symmetry.
Qed.

Lemma occurrences_positive p record (paragraphs : list pystr) :
  0 < occurrences p record paragraphs ->
  exists para, In para paragraphs /\ In p (record para).
Proof.
  unfold occurrences. induction paragraphs as [|q ps IH]; simpl; [lia|].
  destruct (occ p (record q)) eqn:E.
  - intros H. destruct (IH H) as (para & Hin & Hp). exists para. auto.
  - intros _. exists q. split; [now left|]. apply occ_positive. lia.
Qed.

Lemma slice_length {A} (l : list A) i n :
  i + n <= length l -> length (slice l i (i + n)) = n.
Proof.
  intros H. unfold slice. rewrite length_firstn, length_skipn. lia.
Qed.

Lemma In_windows words n gram :
  In gram (windows words n) ->
  exists i, i + n <= length words + (if n =? 0 then 1 else 0) /\
            gram = slice words i (i + n).
Proof.
  unfold windows. intros H. apply in_map_iff in H.
  destruct H as (i & <- & Hi). apply in_seq in Hi. exists i. split; [|reflexivity].
  destruct (n =? 0) eqn:E; [apply Nat.eqb_eq in E | apply Nat.eqb_neq in E]; lia.
Qed.

(** A reported word is a lower-cased word of some paragraph, of three
    characters or more, outside the stop list; a reported n-gram is a
    window of [n] consecutive lower-cased words of some paragraph, for
    a configured [n], not all of them stop words, joined by single
    spaces. *)
Theorem repetition_phrases paragraphs language min_count ngram_sizes r :
  (In r (detect_word_repetitions paragraphs language min_count) ->
   exists para,
     In para paragraphs /\
     In (phrase r) (findall_words (lower para)) /\
     mem (phrase r) (stop_words language) = false /\
     3 <= length (phrase r)) /\
  (In r (detect_repetitions paragraphs language min_count ngram_sizes) ->
   exists para n i,
     In para paragraphs /\ In n ngram_sizes /\
     let words := findall_words (lower para) in
     let gram := slice words i (i + n) in
     0 < n /\ i + n <= length words /\
     phrase r = join (py " ") gram /\
     forallb (fun w => mem w (stop_words language)) gram = false).
Proof.
  split; intros H.
  - unfold detect_word_repetitions in H. rewrite word_locs_events in H.
    apply reported_shape in H. destruct H as [H _].
    apply occurrences_positive in H. destruct H as (para & Hin & Hp).
    exists para. split; [exact Hin|].
    unfold recorded_words in Hp. apply filter_In in Hp. destruct Hp as [Hw Hk].
    apply negb_true_iff, orb_false_iff in Hk. destruct Hk as [Hs Hl].
    apply Nat.ltb_ge in Hl. auto.
  - unfold detect_repetitions in H. rewrite ngram_locations_events in H.
    apply reported_shape in H. destruct H as [H _].
    apply occurrences_positive in H. destruct H as (para & Hin & Hp).
    unfold recorded_grams in Hp. apply in_flat_map in Hp.
    destruct Hp as (n & Hn & Hp). apply in_map_iff in Hp.
    destruct Hp as (gram & Hj & Hg). apply filter_In in Hg.
    destruct Hg as [Hw Hk]. apply negb_true_iff in Hk.
    apply In_windows in Hw. destruct Hw as (i & Hi & ->).
    destruct (n =? 0) eqn:E in Hi.
    { apply Nat.eqb_eq in E. subst n. exfalso.
      unfold slice in Hk. rewrite Nat.add_0_r, Nat.sub_diag in Hk.
      simpl in Hk. discriminate. }
    apply Nat.eqb_neq in E.
    exists para, n, i. cbv zeta. repeat split; trivial; try lia. now symmetry.
Qed.

Lemma repetition_phrases_witness :
  let paragraphs := map py ["the cat sat"; "a dog"; "the cat ran"; "the cat hid"]%string in
  let r := mkRepetitionItem (py "cat") 3 [0; 2; 3] in
  In r (detect_word_repetitions paragraphs (py "en") 3) /\
  exists para,
    In para paragraphs /\
    In (phrase r) (findall_words (lower para)) /\
    mem (phrase r) (stop_words (py "en")) = false /\
    3 <= length (phrase r).
Proof.
  intros paragraphs r.
  assert (H : In r (detect_word_repetitions paragraphs (py "en") 3)).
  { vm_compute. left; reflexivity. }
  split; [exact H|].
  exact (proj1 (repetition_phrases paragraphs (py "en") 3 [2; 3] r) H).
Defined.

End RepetitionFacts.

(* ================================================================== *)
(** * Readability *)
(* ================================================================== *)

Module ReadabilityFacts.
Import PyStr PyStrFacts Segmentation Readability.

Section WithFloat.

Context {F : Type} `{PyFloat F}.
Variable razdel : option razdel_lib.

Lemma nonempty_list_iff {A} (l : list A) :
  match l with [] => false | _ :: _ => true end = true <-> l <> [].
Proof. destruct l; split; congruence. Qed.


End WithFloat.

End ReadabilityFacts.

(* ================================================================== *)
(** * Coreference flags *)
(* ================================================================== *)

Module CoreferenceFacts.
Import PyStr PyStrFacts Segmentation Repetition RepetitionFacts Coreference.

Section WithRazdel.

Variable razdel : option razdel_lib.

Lemma nth_error_firstn_lt {A} (l : list A) n k :
  k < n -> nth_error (firstn n l) k = nth_error l k.
Proof.
  revert l k; induction n as [|n IH]; intros l k Hk; [lia|].
  destruct l as [|x l]; [reflexivity|]. destruct k as [|k]; [reflexivity|].
  simpl. apply IH. lia.
Qed.

Lemma nth_error_app_l {A} (l l' : list A) k x :
  nth_error l k = Some x -> nth_error (l ++ l') k = Some x.
Proof.
  revert k; induction l as [|y l IH]; intros [|k]; simpl; try easy. apply IH.
Qed.

Lemma nth_error_map_some {A B} (f : A -> B) l k x :
  nth_error l k = Some x -> nth_error (map f l) k = Some (f x).
Proof.
  revert k; induction l as [|y l IH]; intros [|k]; simpl; try easy.
  - now intros [= ->].
  - apply IH.
Qed.

(** The flags of a first sentence without candidate antecedent. *)
Lemma first_sentence_flags language window sents s0 :
  nouns_in_context language window sents 0 = [] ->
  sentence_flags language window 0 sents (0, s0) =
  map (fun pn => mkCoreferenceFlag pn 0 0 (firstn 100 s0) (issue_very_start pn))
      (sent_pronouns language s0).
Proof.
  intros Hn. unfold sentence_flags. rewrite Hn.
  destruct (sent_pronouns language s0); reflexivity.
Qed.

(** Flags only arise in paragraph 0, sentences 0 and 1. *)
Lemma sentence_flags_early language window pi sents isent f :
  In f (sentence_flags language window pi sents isent) ->
  paragraph_index f = 0 /\ sentence_index f <= 1 /\
  sentence_index f = fst isent /\
  In (pronoun f) (sent_pronouns language (snd isent)).
Proof.
  destruct isent as [si sent]. unfold sentence_flags. cbn [fst snd].
  destruct (sent_pronouns language sent) as [|p ps] eqn:Ep; [easy|].
  destruct (nouns_in_context language window sents si); [|easy].
  destruct (pi =? 0) eqn:Epi; simpl andb.
  - apply Nat.eqb_eq in Epi. subst pi.
    destruct (si =? 0) eqn:Esi.
    + apply Nat.eqb_eq in Esi. subst si.
      rewrite in_map_iff. intros (pn & <- & Hin). cbn. auto with arith.
    + destruct (si <=? 1) eqn:Ele; [|easy]. apply Nat.leb_le in Ele.
      rewrite in_map_iff. intros (pn & <- & Hin). cbn. auto.
  - easy.
Qed.

Lemma detect_coreference_flags_early paragraphs language window f :
  In f (detect_coreference_flags razdel paragraphs language window) ->
  paragraph_index f = 0 /\ sentence_index f <= 1.
Proof.
  unfold detect_coreference_flags. intros Hin. apply In_firstn in Hin.
  apply in_flat_map in Hin. destruct Hin as (ipara & _ & Hin).
  unfold paragraph_flags in Hin. apply in_flat_map in Hin.
  destruct Hin as (isent & _ & Hin).
  apply sentence_flags_early in Hin. tauto.
Qed.



End WithRazdel.


End CoreferenceFacts.

(* ================================================================== *)
(** * The client: cache and retries *)
(* ================================================================== *)

Module ClientFacts.
Import PyStr PyStrFacts Py JsonText ExtractJson Client.

Lemma universal_newlines_no_cr (s : pystr) :
  Forall (fun c => code c <> 13) (universal_newlines s).
Proof.
  remember (length s) as n eqn:Hn. revert s Hn.
  induction n as [n IH] using lt_wf_ind. intros s Hn.
  destruct s as [|c s]; simpl; [constructor|].
  destruct (code c =? 13) eqn:Ec.
  - destruct s as [|d s].
    + constructor; [vm_compute; lia | constructor].
    + destruct (code d =? 10) eqn:Ed.
      * constructor; [vm_compute; lia|].
        apply (IH (length s)); [simpl in Hn; lia | reflexivity].
      * constructor; [vm_compute; lia|].
        apply (IH (length (d :: s))); [simpl in *; lia | reflexivity].
  - constructor; [now apply Nat.eqb_neq|].
    apply (IH (length s)); [simpl in Hn; lia | reflexivity].
Qed.

Lemma universal_newlines_fixed (s : pystr) :
  Forall (fun c => code c <> 13) s -> universal_newlines s = s.
Proof.
  induction 1 as [|c s Hc _ IH]; simpl; [reflexivity|].
  apply Nat.eqb_neq in Hc. now rewrite Hc, IH.
Qed.

(** Reading a cached text back twice gives what reading it once gave. *)
Lemma universal_newlines_idem (s : pystr) :
  universal_newlines (universal_newlines s) = universal_newlines s.
Proof. apply universal_newlines_fixed, universal_newlines_no_cr. Qed.

Section WithEnvironment.

Context {F : Type} `{PyFloat F}.
Variable sha256_hexdigest : pystr -> pystr.
Variable dumps_request : pystr -> list message -> F -> pystr.
Variable service : nat -> kwargs F -> outcome.
Variable elapsed_ms : nat -> F.

#[local] Abbreviation chat := (chat sha256_hexdigest dumps_request service elapsed_ms).
#[local] Abbreviation attempts := (attempts service elapsed_ms).
#[local] Abbreviation _cache_key := (_cache_key sha256_hexdigest dumps_request).

Lemma requests_emit (w : world F) (e : event F) :
  requests (trace (emit w e)) = requests (trace w) + (if is_request e then 1 else 0).
Proof.
  unfold requests, emit; simpl. rewrite filter_app, length_app; simpl.
  destruct (is_request e); simpl; lia.
Qed.

Lemma handle_reply_world config mcfg ck role prompt_id json_mode attempt n r
  (w : world F) res w' :
  handle_reply elapsed_ms config mcfg ck role prompt_id json_mode attempt n r w
    = (res, w') ->
  trace w' = trace w /\
  (forall text m, res = Ok (text, m) ->
     enable_cache config = true -> cache w' !! ck = Some text).
Proof.
  unfold handle_reply. destruct (choices r) as [|first rest].
  - intros [= <- <-]. split; [reflexivity | discriminate].
  - intros [= <- <-]. split.
    + destruct (enable_cache config); reflexivity.
    + intros text m [= <- <-] ->. simpl. apply lookup_insert_eq.
Qed.

(** A successful call leaves its text in the cache under its key. *)
Lemma attempts_ok_cached config mcfg kw ck role prompt_id json_mode todo last
  (w : world F) text m w' :
  attempts config mcfg kw ck role prompt_id json_mode todo last w = (Ok (text, m), w') ->
  enable_cache config = true ->
  cache w' !! ck = Some text.
Proof.
  revert last w. induction todo as [|attempt todo IH]; intros last w; simpl.
  - discriminate.
  - destruct (service (requests (trace w)) kw) as [r|e].
    + destruct (handle_reply _ _ _ _ _ _ _ _ _ _ _) as [[v|e] w2] eqn:Eh.
      * intros [= Hv Hw] Hc. subst v w2.
        apply handle_reply_world in Eh. destruct Eh as [_ Eh].
        now apply (Eh text m).
      * apply IH.
    + apply IH.
Qed.

(** Every attempt issues one request, so a call issues at most as many
    as it has attempts. *)
Lemma attempts_requests_le config mcfg kw ck role prompt_id json_mode todo last
  (w : world F) res w' :
  attempts config mcfg kw ck role prompt_id json_mode todo last w = (res, w') ->
  requests (trace w') <= requests (trace w) + length todo.
Proof.
  revert last w. induction todo as [|attempt todo IH]; intros last w; simpl.
  - intros [= <- <-]. lia.
  - assert (Hreq : requests (trace (emit w (Request kw))) = requests (trace w) + 1)
      by (now rewrite requests_emit).
    destruct (service (requests (trace w)) kw) as [r|e].
    + destruct (handle_reply _ _ _ _ _ _ _ _ _ _ _) as [[v|e] w2] eqn:Eh;
        apply handle_reply_world in Eh; destruct Eh as [Et _].
      * intros [= <- <-]. rewrite Et. lia.
      * intros Ha. apply IH in Ha.
        destruct (Z.of_nat attempt <? retries mcfg)%Z.
        -- rewrite requests_emit in Ha. cbn [is_request] in Ha.
           rewrite Et in Ha. lia.
        -- rewrite Et in Ha. lia.
    + intros Ha. apply IH in Ha.
      destruct (Z.of_nat attempt <? retries mcfg)%Z.
      * rewrite requests_emit in Ha. cbn [is_request] in Ha. lia.
      * lia.
Qed.

Lemma attempts_all_fail config mcfg kw ck role prompt_id json_mode
  (errs : nat -> exn) len first last (w : world F) :
  (forall k, k < len -> service (requests (trace w) + k) kw = Failure (errs (first + k))) ->
  attempts config mcfg kw ck role prompt_id json_mode (seq first len) last w =
  (Raise (RuntimeError
            (failure_message mcfg
               match len with 0 => last | S n => Some (errs (first + n)) end)),
   mk_world F (cache w) (call_log w)
            (trace w ++ failing_trace mcfg kw (seq first len))).
Proof.
  revert first last w. induction len as [|len IH]; intros first last w Hs.
  - simpl. rewrite app_nil_r. now destruct w.
  - cbn [seq attempts].
    pose proof (Hs 0 ltac:(lia)) as H0. rewrite Nat.add_0_r in H0. rewrite H0.
    set (w3 := if (Z.of_nat first <? retries mcfg)%Z
               then emit (emit w (Request kw)) (Sleep (2 ^ Z.of_nat first))
               else emit w (Request kw)).
    assert (Hreq : requests (trace w3) = requests (trace w) + 1).
    { subst w3. destruct (Z.of_nat first <? retries mcfg)%Z;
        rewrite !requests_emit; simpl; lia. }
    rewrite (IH (S first) (Some (errs (first + 0))) w3).
    + f_equal.
      * destruct len as [|n]; [reflexivity | now rewrite Nat.add_succ_comm].
      * unfold failing_trace. cbn [flat_map]. subst w3.
        destruct (Z.of_nat first <? retries mcfg)%Z; unfold emit; simpl;
          rewrite <- !app_assoc; reflexivity.
    + intros k Hk. rewrite Hreq.
      replace (requests (trace w) + 1 + k) with (requests (trace w) + S k) by lia.
      rewrite Hs by lia. f_equal. f_equal. lia.
Qed.

Lemma flat_map_ext_seq {A} (f g : nat -> list A) a n :
  (forall k, a <= k < a + n -> f k = g k) ->
  flat_map f (seq a n) = flat_map g (seq a n).
Proof.
  revert a; induction n as [|n IH]; intros a Hfg; simpl; [reflexivity|].
  rewrite Hfg by lia. f_equal. apply IH. intros k Hk. apply Hfg. lia.
Qed.

Lemma failing_trace_schedule (mcfg : ModelConfig F) (kw : kwargs F) (r : nat) :
  retries mcfg = Z.of_nat r ->
  failing_trace mcfg kw (seq 0 (S r)) = backoff_schedule kw r.
Proof.
  intros Hr. unfold failing_trace, backoff_schedule.
  rewrite seq_S, flat_map_app. cbn [flat_map Nat.add]. rewrite app_nil_r.
  f_equal.
  - apply flat_map_ext_seq. intros k Hk.
    destruct (Z.ltb_spec (Z.of_nat k) (retries mcfg)); [reflexivity | lia].
  - destruct (Z.ltb_spec (Z.of_nat r) (retries mcfg)); [lia | reflexivity].
Qed.

(** C4: with caching enabled, two calls with the same model, the same
    ordered message list and the same temperature have the same
    fingerprint; once the first has succeeded, the second returns the
    cached text (the first reply as the cache file reads back), its
    metadata is flagged as cached, and it adds nothing to the trace of
    effects: no request is issued. *)
Theorem second_call_served_from_cache config (w : world F) messages
  role1 role2 pid1 pid2 jm1 jm2 text1 m1 w1 :
  enable_cache config = true ->
  model (_get_client config role1) = model (_get_client config role2) ->
  temperature (_get_client config role1) = temperature (_get_client config role2) ->
  chat config w messages role1 pid1 jm1 = (Ok (text1, m1), w1) ->
  _cache_key (model (_get_client config role1)) messages
             (temperature (_get_client config role1)) =
  _cache_key (model (_get_client config role2)) messages
             (temperature (_get_client config role2)) /\
  exists m2,
    chat config w1 messages role2 pid2 jm2 =
      (Ok (universal_newlines text1, m2), log_call w1 m2) /\
    cached m2 = true /\
    trace (log_call w1 m2) = trace w1 /\
    requests (trace (log_call w1 m2)) = requests (trace w1).
Proof.
  intros Hc Hm Ht Hfirst.
  split; [now rewrite Hm, Ht|].
  assert (Hread : _read_cache w1
                    (_cache_key (model (_get_client config role2)) messages
                                (temperature (_get_client config role2)))
                  = Some (universal_newlines text1)).
  { rewrite <- Hm, <- Ht. unfold Client.chat in Hfirst. rewrite Hc in Hfirst.
    destruct (_read_cache w _) as [c|] eqn:Er.
    - injection Hfirst as <- _ <-.
      unfold _read_cache, log_call in *; simpl.
      destruct (cache w !! _) as [stored|]; [|discriminate].
      injection Er as <-. simpl. now rewrite universal_newlines_idem.
    - apply attempts_ok_cached in Hfirst; [|assumption].
      unfold _read_cache. now rewrite Hfirst. }
  unfold Client.chat. rewrite Hc, Hread.
  eexists. repeat split.
Qed.

End WithEnvironment.

Lemma second_call_served_from_cache_witness :
  let config :=
    mk_PipelineConfig Q 8192
      (mk_ModelConfig Q (py "gpt-4o") 0.3%Q 1%Q 16384 120 2)
      (mk_ModelConfig Q (py "gpt-4o-mini") 0.2%Q 1%Q 8192 90 2) true true in
  let service := fun (_ : nat) (_ : kwargs Q) =>
                   Reply (mk_response [Some (py "{}")] (Some (7, 2)%Z)) in
  let messages := [mk_message (py "user") (py "hello")] in
  let w := mk_world Q ∅ [] [] in
  let first := chat (fun s => s) (fun m _ _ => m) service (fun _ => 125%Q) config w
                    messages (py "primary") (py "primary_analysis") true in
  exists m2,
    chat (fun s => s) (fun m _ _ => m) service (fun _ => 125%Q) config (snd first)
         messages (py "primary") (py "primary_analysis") true =
      (Ok (py "{}", m2), log_call (snd first) m2) /\ cached m2 = true.
Proof.
  intros config service messages w first.
  assert (E : exists m1, first = (Ok (py "{}", m1), snd first))
    by (vm_compute; eexists; reflexivity).
  destruct E as [m1 E].
  destruct (second_call_served_from_cache (fun s => s) (fun m _ _ => m) service
              (fun _ => 125%Q) config w messages (py "primary") (py "primary")
              (py "primary_analysis") (py "primary_analysis") true true _ _ _
              eq_refl eq_refl eq_refl E) as (_ & m2 & H2 & Hc & _).
  exists m2. split; [exact H2 | exact Hc].
Defined.

End ClientFacts.

(* ================================================================== *)
(** * The orchestrator *)
(* ================================================================== *)

Module OrchestratorFacts.
Import PyStr PyStrFacts Py JsonText ExtractJson Client ClientFacts Json Coercion
       Orchestrator.

Section WithEnvironment.

Context {F : Type} `{PyFloat F}.
Variable DeterministicAnalysis : Type.
Variable det_language : DeterministicAnalysis -> pystr.
Variable run_deterministic_analysis : pystr -> DeterministicAnalysis.
Variable generate_auto_requirements : DeterministicAnalysis -> pystr -> pystr.
Variable build_primary_messages :
  pystr -> pystr -> DeterministicAnalysis -> pystr -> list message.
Variable build_audit_messages : pystr -> pystr -> pystr -> list message.
Variable model_dump_json : PrimaryAnalysis.t F -> pystr.
Variable build_markdown_report : CritiqueReport.t F DeterministicAnalysis -> pystr.
Variable build_json_report : CritiqueReport.t F DeterministicAnalysis -> pystr.
Variable sha256_hexdigest : pystr -> pystr.
Variable dumps_request : pystr -> list message -> F -> pystr.
Variable service : nat -> kwargs F -> outcome.
Variable elapsed_ms : nat -> F.
Variable json_loads : pystr -> json F + pystr.
Variable cancel_check : option (list (event F) -> bool).
Variable run_duration_ms : list (event F) -> F.
Variable now_isoformat : list (event F) -> pystr.

(** The run with a given generator of requirements. *)
#[local] Abbreviation run_with generate :=
  (run DeterministicAnalysis det_language run_deterministic_analysis
       generate build_primary_messages build_audit_messages
       model_dump_json build_markdown_report build_json_report
       sha256_hexdigest dumps_request service elapsed_ms json_loads
       cancel_check run_duration_ms now_isoformat).

#[local] Abbreviation run := (run_with generate_auto_requirements).

Lemma seq_M_ok {A B} (m : M A) (k : A -> M B) (w : world F) b w' :
  seq_M m k w = (Ok b, w') ->
  exists a w1, m w = (Ok a, w1) /\ k a w1 = (Ok b, w').
Proof.
  unfold seq_M. destruct (m w) as [[a|e] w1]; [eauto | discriminate].
Qed.

Lemma seq_M_ext {A B} (m : M A) (k1 k2 : A -> M B) (w : world F) :
  (forall a w1, k1 a w1 = k2 a w1) -> seq_M m k1 w = seq_M m k2 w.
Proof.
  intros Hk. unfold seq_M. destruct (m w) as [[a|e] w1]; [apply Hk | reflexivity].
Qed.

Ltac step H :=
  apply seq_M_ok in H;
  let a := fresh "a" in let w := fresh "w" in let E := fresh "E" in
  destruct H as (a & w & E & H).

(** C9: the requirements field of a returned report is the string the
    caller passed, character for character; and when that string is
    blank, the generated requirements reach the run only through
    [build_primary_messages] (the messages of the primary call and the
    prompt shown in generated_prompt): any other generator whose text
    gives the same messages gives the same run and the same report. *)
Theorem report_requirements_verbatim config text requirements (w : world F)
  md_report json_report report w' :
  run config text requirements w = (Ok (md_report, json_report, report), w') ->
  CritiqueReport.requirements report = requirements /\
  forall generate',
    strip requirements = [] ->
    (let deterministic := run_deterministic_analysis text in
     let language := det_language deterministic in
     build_primary_messages text language deterministic (generate' deterministic text) =
     build_primary_messages text language deterministic
       (generate_auto_requirements deterministic text)) ->
    run_with generate' config text requirements w =
      (Ok (md_report, json_report, report), w').
Proof.
  intros Hrun. split.
  - unfold Orchestrator.run in Hrun.
    destruct (max_input_chars config <? Z.of_nat (length text))%Z; [discriminate|].
    destruct (strip text); [discriminate|].
    do 14 step Hrun.
    unfold ret in Hrun. injection Hrun as _ _ <- _. reflexivity.
  - intros generate' Hblank Hsame. rewrite <- Hrun.
    unfold Orchestrator.run.
    destruct (max_input_chars config <? Z.of_nat (length text))%Z; [reflexivity|].
    destruct (strip text); [reflexivity|].
    unfold requirements_step. rewrite Hblank.
    unfold run_primary_analysis, format_primary_prompt_for_display.
    cbv zeta in Hsame.
    do 3 (apply seq_M_ext; intros ? ?).
    cbv [seq_M _progress ret]. rewrite Hsame. reflexivity.
Qed.

(** ** Cancellation *)

#[local] Abbreviation sound := (@sound F cancel_check).
#[local] Abbreviation checks_answer := (@checks_answer F cancel_check).
#[local] Abbreviation checks_precede := (@checks_precede F cancel_check).

Lemma app_eq_app_cons {A} (l1 l2 before after : list A) x :
  l1 ++ l2 = before ++ x :: after ->
  (exists a1, l1 = before ++ x :: a1 /\ after = a1 ++ l2) \/
  (exists b2, before = l1 ++ b2 /\ l2 = b2 ++ x :: after).
Proof.
  revert before. induction l1 as [|y l1 IH]; intros before E; simpl in E.
  - right. exists before. auto.
  - destruct before as [|z before]; simpl in E.
    + injection E as -> <-. left. exists l1. auto.
    + injection E as -> E. destruct (IH _ E) as [(a1 & -> & ->) | (b2 & -> & ->)].
      * left. exists a1. auto.
      * right. exists b2. auto.
Qed.

Lemma silent_no_check (evs before after : list (event F)) b :
  Forall silent evs -> evs <> before ++ CancelCheck b :: after.
Proof.
  intros Hs ->. apply Forall_app in Hs. destruct Hs as [_ Hs].
  inversion Hs; subst. assumption.
Qed.

Lemma silent_no_progress (evs before after : list (event F)) stage pct :
  Forall silent evs -> evs <> before ++ Progress stage pct :: after.
Proof.
  intros Hs ->. apply Forall_app in Hs. destruct Hs as [_ Hs].
  inversion Hs; subst. assumption.
Qed.

Lemma sound_silent {A} (m : M A) :
  (forall w res w', m w = (res, w') ->
     exists evs, trace w' = trace w ++ evs /\ Forall silent evs) ->
  sound m.
Proof.
  intros Hm w res w' E. destruct (Hm _ _ _ E) as (evs & Ht & Hs).
  exists evs. split; [assumption|]. split; [|split].
  - intros before b after Hd. now apply silent_no_check in Hd.
  - intros before after Hd. now apply silent_no_check in Hd.
  - intros before stage pct after Hd. now apply silent_no_progress in Hd.
Qed.

Lemma sound_bind {A B} (m : M A) (k : A -> M B) :
  sound m -> (forall a, sound (k a)) -> sound (seq_M m k).
Proof.
  intros Hm Hk w res w' E. unfold seq_M in E.
  destruct (m w) as [[a|e] w1] eqn:Em.
  - destruct (Hm _ _ _ Em) as (evs1 & Ht1 & Ha1 & Hs1 & Hp1).
    destruct (Hk a _ _ _ E) as (evs2 & Ht2 & Ha2 & Hs2 & Hp2).
    exists (evs1 ++ evs2). split; [now rewrite Ht2, Ht1, app_assoc|].
    rewrite Ht1 in Ha2, Hp2. split; [|split].
    + intros before b after Hd.
      destruct (app_eq_app_cons _ _ _ _ _ Hd) as [(a1 & E1 & _) | (b2 & -> & E2)].
      * eapply Ha1; eassumption.
      * rewrite app_assoc. eapply Ha2; eassumption.
    + intros before after Hd.
      destruct (app_eq_app_cons _ _ _ _ _ Hd) as [(a1 & E1 & _) | (b2 & -> & E2)].
      * destruct (Hs1 _ _ E1) as [_ Habs]. discriminate Habs.
      * now destruct (Hs2 _ _ E2).
    + intros before stage pct after Hd Hg Hc.
      destruct (app_eq_app_cons _ _ _ _ _ Hd) as [(a1 & E1 & _) | (b2 & -> & E2)].
      * eapply Hp1; eassumption.
      * rewrite app_assoc. eapply Hp2; eassumption.
  - injection E as <- <-.
    destruct (Hm _ _ _ Em) as (evs1 & Ht1 & Ha1 & Hs1 & Hp1).
    exists evs1. split; [assumption|]. split; [assumption | split; [|assumption]].
    intros before after Hd. destruct (Hs1 _ _ Hd) as [-> Hr].
    injection Hr as ->. split; reflexivity.
Qed.

Lemma cons_eq_app_cons {A} (x y : A) l before after :
  x :: l = before ++ y :: after ->
  (before = [] /\ x = y /\ l = after) \/
  (exists b', before = x :: b' /\ l = b' ++ y :: after).
Proof.
  destruct before as [|z before]; simpl; intros E; injection E as -> E.
  - left. auto.
  - right. exists before. auto.
Qed.

Lemma sound_quiet {A} (m : M A) :
  (forall w, exists res, m w = (res, w)) -> sound m.
Proof.
  intros Hm. apply sound_silent. intros w res w' E.
  destruct (Hm w) as [r Er]. rewrite Er in E. injection E as <- <-.
  exists []. split; [now rewrite app_nil_r | constructor].
Qed.

Lemma sound_ret {A} (a : A) : sound (ret a).
Proof. apply sound_quiet. intros w. now exists (Ok a). Qed.

Lemma sound_lift {A} (r : result A) : sound (lift r).
Proof. apply sound_quiet. intros w. now exists r. Qed.

Lemma sound_read_clock : sound (read_clock run_duration_ms now_isoformat).
Proof. apply sound_quiet. intros w. eexists. reflexivity. Qed.

Lemma sound_new_client : sound new_client.
Proof.
  apply sound_silent. intros w res w' [= <- <-]. exists []. simpl.
  split; [now rewrite app_nil_r | constructor].
Qed.

Lemma sound_save_run : sound save_run.
Proof.
  apply sound_silent. intros w res w' [= <- <-]. exists [SaveRun]. simpl.
  split; [reflexivity | repeat constructor].
Qed.

(** A progress report of a stage that is not guarded. *)
Lemma sound_progress stage pct :
  guarded_stage (py stage) = false -> sound (_progress stage pct).
Proof.
  intros Hg w res w' [= <- <-]. exists [Progress (py stage) pct].
  split; [reflexivity|]. split; [|split].
  - intros before b after Hd.
    apply cons_eq_app_cons in Hd. destruct Hd as [(_ & Hd & _) | (b' & _ & Hd)];
      [discriminate | now destruct b'].
  - intros before after Hd.
    apply cons_eq_app_cons in Hd. destruct Hd as [(_ & Hd & _) | (b' & _ & Hd)];
      [discriminate | now destruct b'].
  - intros before stage' pct' after Hd Hg'.
    apply cons_eq_app_cons in Hd. destruct Hd as [(_ & Hd & _) | (b' & _ & Hd)];
      [|now destruct b'].
    injection Hd as <- _. congruence.
Qed.

(** The check of the cancellation followed by the entry of a stage. *)
Lemma sound_checked_progress {A} stage pct (k : unit -> M A) :
  (forall a, sound (k a)) ->
  sound (seq_M (check_cancelled cancel_check)
               (fun _ => seq_M (_progress stage pct) k)).
Proof.
  intros Hk w res w' E.
  cbv [seq_M check_cancelled _cancelled _progress raise ret] in E.
  destruct cancel_check as [answer|] eqn:Ec; cbv beta iota zeta in E.
  - destruct (answer (trace w)) eqn:Eb; cbv beta iota zeta in E.
    + injection E as <- <-. exists [CancelCheck true].
      split; [reflexivity|]. split; [|split].
      * intros before b after Hd. apply cons_eq_app_cons in Hd.
        destruct Hd as [(-> & Hd & _) | (b' & _ & Hd)]; [|now destruct b'].
        injection Hd as <-. exists answer. now rewrite app_nil_r.
      * intros before after Hd. apply cons_eq_app_cons in Hd.
        destruct Hd as [(_ & _ & <-) | (b' & _ & Hd)]; [auto | now destruct b'].
      * intros before stage' pct' after Hd. apply cons_eq_app_cons in Hd.
        destruct Hd as [(_ & Hd & _) | (b' & _ & Hd)];
          [discriminate | now destruct b'].
    + destruct (Hk tt _ _ _ E) as (evs & Ht & Ha & Hs & Hp).
      exists (CancelCheck false :: Progress (py stage) pct :: evs).
      split; [rewrite Ht; simpl; now rewrite <- !app_assoc|].
      simpl in Ha, Hp. split; [|split].
      * intros before b after Hd. apply cons_eq_app_cons in Hd.
        destruct Hd as [(-> & Hd & _) | (b1 & -> & Hd)].
        { injection Hd as <-. exists answer. now rewrite app_nil_r. }
        apply cons_eq_app_cons in Hd.
        destruct Hd as [(_ & Hd & _) | (b2 & -> & Hd)]; [discriminate|].
        apply Ha in Hd. rewrite <- !app_assoc in Hd. exact Hd.
      * intros before after Hd. apply cons_eq_app_cons in Hd.
        destruct Hd as [(_ & Hd & _) | (b1 & -> & Hd)]; [discriminate|].
        apply cons_eq_app_cons in Hd.
        destruct Hd as [(_ & Hd & _) | (b2 & -> & Hd)]; [discriminate|].
        now apply Hs in Hd.
      * intros before stage' pct' after Hd Hg Hc. apply cons_eq_app_cons in Hd.
        destruct Hd as [(_ & Hd & _) | (b1 & -> & Hd)]; [discriminate|].
        apply cons_eq_app_cons in Hd.
        destruct Hd as [(-> & _ & _) | (b2 & -> & Hd)].
        { exists (trace w). reflexivity. }
        destruct (Hp _ _ _ _ Hd Hg Hc) as [before' Hb].
        rewrite <- !app_assoc in Hb. now exists before'.
  - destruct (Hk tt _ _ _ E) as (evs & Ht & Ha & Hs & Hp).
    exists (Progress (py stage) pct :: evs).
    split; [rewrite Ht; simpl; now rewrite <- !app_assoc|].
    split; [|split].
    + intros before b after Hd. apply cons_eq_app_cons in Hd.
      destruct Hd as [(_ & Hd & _) | (b1 & -> & Hd)]; [discriminate|].
      apply Ha in Hd. destruct Hd as (answer & Habs & _). discriminate.
    + intros before after Hd. apply cons_eq_app_cons in Hd.
      destruct Hd as [(_ & Hd & _) | (b1 & -> & Hd)]; [discriminate|].
      now apply Hs in Hd.
    + intros before stage' pct' after _ _ Hc. now contradiction Hc.
Qed.

(** A call of the client only issues requests and sleeps. *)
Lemma attempts_silent config mcfg kw ck role prompt_id json_mode todo last
  (w : world F) res w' :
  attempts service elapsed_ms config mcfg kw ck role prompt_id json_mode todo last w
    = (res, w') ->
  exists cs, trace w' = trace w ++ cs /\ Forall silent cs.
Proof.
  revert last w. induction todo as [|attempt todo IH]; intros last w; simpl.
  - intros [= <- <-]. exists []. split; [now rewrite app_nil_r | constructor].
  - assert (Hstep : forall e w2,
              trace w2 = trace (emit w (Request kw)) ->
              attempts service elapsed_ms config mcfg kw ck role prompt_id json_mode
                todo (Some e)
                (if (Z.of_nat attempt <? retries mcfg)%Z
                 then emit w2 (Sleep (2 ^ Z.of_nat attempt)) else w2) = (res, w') ->
              exists cs, trace w' = trace w ++ cs /\ Forall silent cs).
    { intros e w2 Et Ha. apply IH in Ha. destruct Ha as (cs & Hc & Hs).
      destruct (Z.of_nat attempt <? retries mcfg)%Z.
      - exists (Request kw :: Sleep (2 ^ Z.of_nat attempt) :: cs).
        split; [|repeat constructor; assumption].
        rewrite Hc. simpl. rewrite Et. simpl. now rewrite <- !app_assoc.
      - exists (Request kw :: cs). split; [|repeat constructor; assumption].
        rewrite Hc, Et. simpl. now rewrite <- !app_assoc. }
    destruct (service (requests (trace w)) kw) as [r|e].
    + destruct (handle_reply _ _ _ _ _ _ _ _ _ _ _) as [[v|e] w2] eqn:Eh;
        apply handle_reply_world in Eh; destruct Eh as [Et _].
      * intros [= <- <-]. exists [Request kw].
        split; [exact Et | repeat constructor].
      * now apply Hstep.
    + now apply Hstep.
Qed.

Lemma sound_client_chat config messages role prompt_id :
  sound (client_chat sha256_hexdigest dumps_request service elapsed_ms
                     config messages role prompt_id).
Proof.
  apply sound_silent. intros w res w'. unfold client_chat, chat.
  destruct (if enable_cache config then _ else _) as [cached_text|].
  - intros [= <- <-]. exists []. simpl. split; [now rewrite app_nil_r | constructor].
  - apply attempts_silent.
Qed.

Lemma sound_run_primary_analysis config text language deterministic requirements :
  sound (run_primary_analysis DeterministicAnalysis build_primary_messages
           sha256_hexdigest dumps_request service elapsed_ms json_loads
           config text language deterministic requirements).
Proof.
  unfold run_primary_analysis.
  apply sound_bind; [apply sound_client_chat | intros reply].
  apply sound_bind; [apply sound_lift | intros analysis]. apply sound_ret.
Qed.

Lemma sound_run_audit config text language primary_analysis :
  sound (run_audit build_audit_messages model_dump_json sha256_hexdigest
           dumps_request service elapsed_ms json_loads
           config text language primary_analysis).
Proof.
  unfold run_audit.
  apply sound_bind; [apply sound_client_chat | intros reply].
  apply sound_bind; [apply sound_lift | intros audit]. apply sound_ret.
Qed.

Lemma sound_raise {A} (e : exn) : sound (@raise F A e).
Proof. apply sound_quiet. intros w. now exists (Raise e). Qed.

(** Every run checks, answers and stops as stated. *)
Lemma run_sound config text requirements : sound (run config text requirements).
Proof.
  unfold Orchestrator.run.
  destruct (max_input_chars config <? Z.of_nat (length text))%Z;
    [apply sound_raise|].
  destruct (strip text); [apply sound_raise|].
  apply sound_bind; [now apply sound_progress | intros _].
  apply sound_checked_progress; intros _.
  apply sound_bind.
  { unfold requirements_step. destruct (strip requirements); [|apply sound_ret].
    apply sound_bind; [now apply sound_progress | intros _; apply sound_ret]. }
  intros effective_requirements.
  apply sound_checked_progress; intros _.
  apply sound_bind; [apply sound_new_client | intros _].
  apply sound_bind; [apply sound_run_primary_analysis | intros primary].
  apply sound_bind.
  { unfold audit_step. destruct (enable_audit config); [|apply sound_ret].
    apply sound_checked_progress; intros _.
    apply sound_bind; [apply sound_run_audit | intros r; apply sound_ret]. }
  intros audited.
  apply sound_bind; [now apply sound_progress | intros _].
  apply sound_bind; [apply sound_read_clock | intros clock].
  apply sound_bind; [apply sound_lift | intros generated_prompt].
  apply sound_bind; [apply sound_save_run | intros _].
  apply sound_bind; [now apply sound_progress | intros _].
  apply sound_ret.
Qed.

Lemma cancelled_is_not_service_failure (mcfg : ModelConfig F) last :
  cancelled_error <> RuntimeError (failure_message mcfg last).
Proof. unfold cancelled_error, RuntimeError, failure_message. simpl. congruence. Qed.


(** ** Retries *)

#[local] Abbreviation chat := (chat sha256_hexdigest dumps_request service elapsed_ms).
#[local] Abbreviation _cache_key := (_cache_key sha256_hexdigest dumps_request).

Lemma chat_requests_le config (w : world F) messages role prompt_id json_mode :
  (0 <= retries (_get_client config role))%Z ->
  requests (trace (snd (chat config w messages role prompt_id json_mode))) <=
  requests (trace w) + Z.to_nat (retries (_get_client config role) + 1).
Proof.
  intros Hr. unfold Client.chat.
  destruct (if enable_cache config then _ else _) as [cached_text|].
  - simpl. lia.
  - destruct (attempts _ _ _ _ _ _ _ _ _ _ _ _) as [res w'] eqn:Ea.
    apply attempts_requests_le in Ea. rewrite length_seq in Ea. exact Ea.
Qed.

Lemma chat_all_fail config (w : world F) messages role prompt_id json_mode errs :
  let mcfg := _get_client config role in
  let kw := make_kwargs mcfg messages json_mode in
  (0 <= retries mcfg)%Z ->
  (enable_cache config = true ->
   cache w !! _cache_key (model mcfg) messages (temperature mcfg) = None) ->
  (forall k, k <= Z.to_nat (retries mcfg) ->
     service (requests (trace w) + k) kw = Failure (errs k)) ->
  chat config w messages role prompt_id json_mode =
  (Raise (RuntimeError (failure_message mcfg (Some (errs (Z.to_nat (retries mcfg)))))),
   mk_world F (cache w) (call_log w)
            (trace w ++ backoff_schedule kw (Z.to_nat (retries mcfg)))).
Proof.
  intros mcfg kw Hr Hmiss Hfail. unfold Client.chat. fold mcfg. fold kw.
  assert (Hhit : (if enable_cache config
                  then _read_cache w (_cache_key (model mcfg) messages (temperature mcfg))
                  else None) = None).
  { destruct (enable_cache config); [|reflexivity].
    unfold _read_cache. now rewrite Hmiss. }
  rewrite Hhit.
  replace (Z.to_nat (retries mcfg + 1)) with (S (Z.to_nat (retries mcfg))) by lia.
  rewrite (attempts_all_fail service elapsed_ms config mcfg kw _ role prompt_id
             json_mode errs (S (Z.to_nat (retries mcfg))) 0 None w).
  - rewrite failing_trace_schedule by lia. reflexivity.
  - intros k Hk. apply Hfail. lia.
Qed.


End WithEnvironment.




Lemma report_requirements_verbatim_witness :
  let out := Example.run Example.replying None (Example.config true false)
               (py "Some text.") (py "formal tone") Example.empty_world in
  exists md_report json_report report,
    fst out = Ok (md_report, json_report, report) /\
    CritiqueReport.requirements report = py "formal tone".
Proof.
  intros out.
  destruct out as [[[[md_report json_report] report]|e] w'] eqn:E.
  - exists md_report, json_report, report. split; [reflexivity|].
    exact (proj1 (report_requirements_verbatim unit Example.det_language
                    Example.run_deterministic_analysis
                    Example.generate_auto_requirements
                    Example.build_primary_messages Example.build_audit_messages
                    Example.model_dump_json Example.build_markdown_report
                    Example.build_json_report Example.sha256_hexdigest
                    Example.dumps_request Example.replying Example.elapsed_ms
                    Example.json_loads None
                    Example.run_duration_ms Example.now_isoformat
                    (Example.config true false) (py "Some text.") (py "formal tone")
                    Example.empty_world md_report json_report report w' E)).
  - exfalso. vm_compute in E. discriminate E.
Defined.

End OrchestratorFacts.

(* ================================================================== *)
(** * Coercion of a decoded reply *)
(* ================================================================== *)

Module CoercionFacts.
Import PyStr PyStrFacts Py Json Coercion.

Section WithFloat.

Context {F : Type} `{PyFloat F}.

Lemma bind_ok {A B} (r : result A) (k : A -> result B) b :
  bind r k = Ok b -> exists a, r = Ok a /\ k a = Ok b.
Proof. destruct r as [a|e]; simpl; [eauto | discriminate]. Qed.

Lemma lookup_store_same key (v : json F) entries :
  lookup key (store key v entries) = Some v.
Proof.
  induction entries as [|[k v'] entries IH]; simpl.
  - now rewrite str_eqb_refl.
  - destruct (str_eqb k key) eqn:E; simpl; rewrite E; [reflexivity | exact IH].
Qed.

Lemma lookup_store_other key key' (v : json F) entries :
  str_eqb key key' = false ->
  lookup key' (store key v entries) = lookup key' entries.
Proof.
  intros Hne. induction entries as [|[k v'] entries IH]; simpl.
  - now rewrite Hne.
  - destruct (str_eqb k key) eqn:E; simpl.
    + apply str_eqb_eq in E. subst k. now rewrite Hne.
    + now rewrite IH.
Qed.

(** The loop builds the items one by one: replacing one element of the
    input replaces the item at the same position and nothing else. *)
Lemma build_all_replace {A} (build : json F -> result A) pre x post y b l :
  build_all build (pre ++ x :: post) = Ok l ->
  build y = Ok b ->
  build_all build (pre ++ y :: post) = Ok (replace_at (length pre) b l).
Proof.
  intros Hl Hy. revert l Hl. induction pre as [|p pre IH]; intros l; simpl.
  - destruct (build x) as [a|e]; [|discriminate].
    destruct (build_all build post) as [l'|e]; [|discriminate].
    intros [= <-]. now rewrite Hy.
  - destruct (build p) as [a|e]; [|discriminate].
    destruct (build_all build (pre ++ x :: post)) as [l'|e]; [|discriminate].
    intros [= <-]. rewrite (IH l' eq_refl). reflexivity.
Qed.

Lemma build_all_length {A} (build : json F -> result A) items l :
  build_all build items = Ok l -> length l = length items.
Proof.
  revert l. induction items as [|x items IH]; intros l; simpl.
  - now intros [= <-].
  - destruct (build x) as [a|e]; [|discriminate].
    destruct (build_all build items) as [l'|e]; [|discriminate].
    intros [= <-]. simpl. now rewrite (IH l' eq_refl).
Qed.

(** An absorbed entry always builds. *)
Lemma absorbed_builds (fld : list_field) (entry : json F) :
  In fld list_fields -> absorbed fld entry = true ->
  exists b, build fld entry = Ok b.
Proof.
  intros Hin Ha. destruct entry as [| | | | | |entries]; try discriminate Ha.
  simpl in Hin.
  destruct Hin as [<-|[<-|[<-|[<-|[<-|[<-|[]]]]]]];
    cbn [absorbed text_keys int_keys forallb map
         structural_outline_field local_issues_field global_issues_field
         cliche_detection_field reader_questions_field
         improvement_suggestions_field] in Ha;
    unfold text_ok, int_ok in Ha;
    rewrite ?andb_true_r, ?andb_true_iff in Ha;
    cbn [build structural_outline_field local_issues_field global_issues_field
         cliche_detection_field reader_questions_field
         improvement_suggestions_field];
    unfold structural_outline_item_of, local_issue_of, global_issue_of,
      cliche_item_of, reader_question_of, improvement_suggestion_of, get, jstr;
    cbn [bind].
  all: repeat match goal with Hc : _ /\ _ |- _ => destruct Hc end.
  all: repeat match goal with
         | Hc : context [lookup ?k ?es] |- _ =>
             destruct (lookup k es) as [[| | | | ? | |]|];
             cbn in Hc; try discriminate Hc; cbn [_safe_int validate_str bind]
         end.
  all: try (eexists; reflexivity).
  all: repeat match goal with
         | |- context [f_to_int ?x] =>
             destruct (f_to_int x); try discriminate; cbn [bind]
         end.
  all: try (eexists; reflexivity).
Qed.

Ltac step_coercion Ha Hb :=
  apply bind_ok in Ha;
  let v := fresh "v" in
  let E := fresh "E" in
  destruct Ha as (v & E & Ha);
  first [ rewrite E | rewrite (build_all_replace _ _ _ _ _ _ _ E Hb) ];
  cbn [bind].

(** C2 (amended): take a decoded reply that coerces, one of its nested
    lists, and one entry of that list.  Replacing this entry by a
    malformed one that is still an object whose text fields, where
    present, hold strings (fields may be missing, enumeration values
    unrecognized, numbers unconvertible) leaves the coercion successful:
    the result is the same, field for field and item for item, except
    for the one item built from the malformed entry. *)
Theorem malformed_entry_degrades_only_itself (fld : list_field)
  (entries : list (pystr * json F)) pre x post y a :
  In fld list_fields ->
  lookup (key fld) entries = Some (JList (pre ++ x :: post)) ->
  _dict_to_primary (JDict entries) = Ok a ->
  absorbed fld y = true ->
  exists b,
    build fld y = Ok b /\
    _dict_to_primary (JDict (store (key fld) (JList (pre ++ y :: post)) entries)) =
      Ok (with_items fld a (replace_at (length pre) b (items_of fld a))).
Proof.
  intros Hin Hl Ha Hy.
  destruct (absorbed_builds fld y Hin Hy) as [b Hb]. exists b. split; [exact Hb|].
  simpl in Hin.
  destruct Hin as [<-|[<-|[<-|[<-|[<-|[<-|[]]]]]]];
    cbn [key build with_items items_of
         structural_outline_field local_issues_field global_issues_field
         cliche_detection_field reader_questions_field
         improvement_suggestions_field] in *;
    unfold _dict_to_primary, coerce_list, get in *;
    rewrite lookup_store_same;
    rewrite !lookup_store_other by reflexivity;
    rewrite Hl in Ha;
    cbn [bind iterate] in *;
    do 8 step_coercion Ha Hb;
    injection Ha as <-; reflexivity.
Qed.

End WithFloat.

(** C2, as stated, fails: an entry that is not an object makes the
    whole coercion raise.  Here the second entry of local_issues is a
    string; the first is well formed, and so is everything else. *)
Lemma non_object_entry_aborts_coercion :
  let good := JDict [(py "paragraph_index", JInt 1); (py "sentence", JStr (py "It was."))] in
  let d := JDict [(py "local_issues", JList [good; JStr (py "oops")]);
                  (py "summary", JStr (py "fine"))] in
  _dict_to_primary (F := Q) (JDict [(py "local_issues", JList [good; good]);
                                    (py "summary", JStr (py "fine"))])
    = Ok (PrimaryAnalysis.mk Q TextOverview.default []
            [LocalIssue.mk 1 (py "It was.") [] Severity.minor [] [];
             LocalIssue.mk 1 (py "It was.") [] Severity.minor [] []]
            [] QualityScores.default [] [] [] (JList []) (JStr (py "fine"))) /\
  _dict_to_primary (F := Q) d
    = Raise (AttributeError (py "'str' object has no attribute 'get'")).
Proof. split; vm_compute; reflexivity. Qed.

Lemma malformed_entry_degrades_only_itself_witness :
  let good := JDict [(py "paragraph_index", JInt 1); (py "sentence", JStr (py "It was."))] in
  let bad := JDict [(py "paragraph_index", JStr (py "first"));
                    (py "severity", JStr (py "catastrophic"))] in
  _dict_to_primary (F := Q)
    (JDict [(py "local_issues", JList [good; bad; good]);
            (py "summary", JStr (py "fine"))])
  = Ok (PrimaryAnalysis.mk Q TextOverview.default []
          [LocalIssue.mk 1 (py "It was.") [] Severity.minor [] [];
           LocalIssue.mk 0 [] [] Severity.minor [] [];
           LocalIssue.mk 1 (py "It was.") [] Severity.minor [] []]
          [] QualityScores.default [] [] [] (JList []) (JStr (py "fine"))).
Proof.
  intros good bad.
  destruct (malformed_entry_degrades_only_itself (F := Q) local_issues_field
              [(py "local_issues", JList [good; good; good]);
               (py "summary", JStr (py "fine"))]
              [good] good [good] bad
              (PrimaryAnalysis.mk Q TextOverview.default []
                 [LocalIssue.mk 1 (py "It was.") [] Severity.minor [] [];
                  LocalIssue.mk 1 (py "It was.") [] Severity.minor [] [];
                  LocalIssue.mk 1 (py "It was.") [] Severity.minor [] []]
                 [] QualityScores.default [] [] [] (JList []) (JStr (py "fine"))))
    as (b & Hb & Hd).
  - right; left; reflexivity.
  - reflexivity.
  - vm_compute; reflexivity.
  - reflexivity.
  - vm_compute in Hb. injection Hb as <-. exact Hd.
Defined.

End CoercionFacts.

(* ================================================================== *)
(** * extract_json *)
(* ================================================================== *)

Module ExtractJsonFacts.
Import PyStr PyStrFacts JsonText Regex ExtractJson.

(** ** Stripping *)

Lemma lstrip_idem (s : pystr) : lstrip (lstrip s) = lstrip s.
Proof.
  induction s as [|c s IH]; simpl; [reflexivity|].
  destruct (is_space c) eqn:E; [exact IH | simpl; now rewrite E].
Qed.

Lemma lstrip_head (s : pystr) c r : lstrip s = c :: r -> is_space c = false.
Proof.
  induction s as [|x s IH]; simpl; [discriminate|].
  destruct (is_space x) eqn:E; [exact IH | now intros [= <- _]].
Qed.

Lemma lstrip_app_nonspace (l : pystr) c :
  is_space c = false -> lstrip (l ++ [c]) = lstrip l ++ [c].
Proof.
  intros Hc. induction l as [|x l IH]; simpl; [now rewrite Hc|].
  destruct (is_space x); [exact IH | reflexivity].
Qed.

Lemma rstrip_cons_nonspace c (r : pystr) :
  is_space c = false -> rstrip (c :: r) = c :: rstrip r.
Proof.
  intros Hc. unfold rstrip. simpl.
  now rewrite lstrip_app_nonspace, rev_app_distr.
Qed.

Lemma rstrip_idem (s : pystr) : rstrip (rstrip s) = rstrip s.
Proof. unfold rstrip. now rewrite rev_involutive, lstrip_idem. Qed.

(** [strip] leaves a text alone that neither starts nor ends with white
    space. *)
Lemma strip_idem (s : pystr) : strip (strip s) = strip s.
Proof.
  unfold strip. destruct (lstrip s) as [|c r] eqn:E; [reflexivity|].
  apply lstrip_head in E.
  rewrite (rstrip_cons_nonspace c r E). simpl. rewrite E.
  now rewrite (rstrip_cons_nonspace c _ E), rstrip_idem.
Qed.

Lemma strip_fixed c (mid : pystr) d :
  is_space c = false -> is_space d = false ->
  strip (c :: mid ++ [d]) = c :: mid ++ [d].
Proof.
  intros Hc Hd. unfold strip. cbn [lstrip]. rewrite Hc.
  change (c :: mid ++ [d]) with ((c :: mid) ++ [d]).
  generalize (c :: mid). intros l.
  unfold rstrip. rewrite rev_app_distr. cbn [rev app lstrip]. rewrite Hd.
  cbn [rev]. now rewrite rev_involutive.
Qed.

(** ** The candidates *)

Lemma try_patterns_valid pats text candidate :
  try_patterns pats text = Some candidate ->
  json_loads_ok candidate = true /\ strip candidate = candidate.
Proof.
  induction pats as [|pat pats IH]; simpl; [discriminate|].
  destruct (search pat text) as [g|]; [|exact IH].
  destruct (json_loads_ok (strip g)) eqn:E; [|exact IH].
  intros [= <-]. split; [exact E | apply strip_idem].
Qed.

(** The candidate of the brace scan is what was seen, some more text and
    a closing brace. *)
Lemma brace_scan_shape depth in_string escape seen s candidate :
  brace_scan depth in_string escape seen s = Some candidate ->
  exists mid, candidate = rev seen ++ mid ++ [ch_rbrace].
Proof.
  revert depth in_string escape seen.
  induction s as [|ch s IH]; intros depth in_string escape seen; simpl;
    [discriminate|].
  assert (Hnext : forall d i e,
            brace_scan d i e (ch :: seen) s = Some candidate ->
            exists mid, candidate = rev seen ++ mid ++ [ch_rbrace]).
  { intros d i e Hs. destruct (IH _ _ _ _ Hs) as [mid ->].
    exists (ch :: mid). simpl. now rewrite <- app_assoc. }
  destruct escape; [apply Hnext|].
  destruct (is_ch ch ch_backslash); [apply Hnext|].
  destruct (is_ch ch ch_quote); [apply Hnext|].
  destruct in_string; [apply Hnext|].
  destruct (is_ch ch ch_lbrace); [apply Hnext|].
  destruct (is_ch ch ch_rbrace) eqn:Er; [|apply Hnext].
  destruct (depth - 1 =? 0)%Z; [|apply Hnext].
  intros [= <-]. exists []. simpl.
  apply Ascii.eqb_eq in Er. now subst ch.
Qed.

Lemma from_first_brace_head text s :
  from_first_brace text = Some s -> exists s', s = ch_lbrace :: s'.
Proof.
  induction text as [|c text IH]; simpl; [discriminate|].
  destruct (is_ch c ch_lbrace) eqn:E; [|exact IH].
  intros [= <-]. apply Ascii.eqb_eq in E. subst c. now exists text.
Qed.

Lemma brace_candidate_shape text candidate :
  brace_candidate text = Some candidate ->
  exists mid, candidate = ch_lbrace :: mid ++ [ch_rbrace].
Proof.
  unfold brace_candidate.
  destruct (from_first_brace text) as [s|] eqn:E; [|discriminate].
  apply from_first_brace_head in E. destruct E as [s' ->].
  cbn. intros Hs. apply brace_scan_shape in Hs. exact Hs.
Qed.

Lemma brace_candidate_trimmed text candidate :
  brace_candidate text = Some candidate -> strip candidate = candidate.
Proof.
  intros Hc. apply brace_candidate_shape in Hc. destruct Hc as [mid ->].
  now apply strip_fixed.
Qed.

(** A text that parses and has no white space around it is returned as
    it is. *)
Lemma extract_json_valid (s : pystr) :
  json_loads_ok s = true -> strip s = s -> extract_json s = s.
Proof.
  intros Hv Hs. unfold extract_json. rewrite Hs.
  destruct s as [|c s]; [reflexivity|]. cbv beta iota zeta. now rewrite Hv.
Qed.

(** What [extract_json] returns is its input, or a text that parses
    and has no white space around it. *)
Lemma extract_json_cases (t : pystr) :
  extract_json t = t \/
  (json_loads_ok (extract_json t) = true /\ strip (extract_json t) = extract_json t).
Proof.
  unfold extract_json.
  destruct (strip t) as [|c r] eqn:Es; [now left|]. cbv zeta.
  destruct (json_loads_ok (c :: r)) eqn:Ev.
  { right. split; [exact Ev|]. rewrite <- Es. apply strip_idem. }
  destruct (try_patterns md_patterns t) as [candidate|] eqn:Ep.
  { right. now apply try_patterns_valid in Ep. }
  destruct (brace_candidate t) as [candidate|] eqn:Eb; [|now left].
  destruct (json_loads_ok candidate) eqn:Ec; [|now left].
  right. split; [exact Ec|]. eapply brace_candidate_trimmed; eassumption.
Qed.


(** ** Characters *)

Ltac by_chars c :=
  destruct c as [[] [] [] [] [] [] [] []]; vm_compute;
  repeat split; solve [reflexivity | discriminate | congruence].

Lemma ws_plain c : is_json_ws c = true -> plain c = true.
Proof. by_chars c. Qed.

Lemma ws_space c : is_json_ws c = true -> is_space c = true.
Proof. by_chars c. Qed.

Lemma space_plain c : is_space c = true -> plain c = true.
Proof. by_chars c. Qed.

Lemma digit_plain c : is_digit c = true -> plain c = true.
Proof. by_chars c. Qed.

Lemma hex_char c :
  is_hex c = true ->
  is_ch c ch_quote = false /\ is_ch c ch_backslash = false /\ (code c <? 32) = false.
Proof. by_chars c. Qed.

Lemma simple_escape_char c : is_simple_escape c = true -> (code c <? 32) = false.
Proof. by_chars c. Qed.

Lemma plain_char c :
  plain c = true ->
  is_ch c ch_quote = false /\ is_ch c ch_backslash = false /\
  is_ch c ch_backtick = false /\ is_ch c ch_lbrace = false /\
  is_ch c ch_rbrace = false.
Proof. by_chars c. Qed.

Lemma is_ch_eq c d : is_ch c d = true -> c = d.
Proof. apply Ascii.eqb_eq. Qed.

(** ** What the scanners consume *)

#[local] Abbreviation all_plain v := (Forall (fun c => plain c = true) v).

Lemma skip_ws_split s :
  exists w, s = w ++ skip_ws s /\ Forall (fun c => is_json_ws c = true) w.
Proof.
  induction s as [|c s [w [E Hw]]]; simpl; [now exists []|].
  destruct (is_json_ws c) eqn:Ec; [|now exists []].
  exists (c :: w). split; [simpl; now rewrite <- E | now constructor].
Qed.

Lemma drop_prefix_split word s r : drop_prefix word s = Some r -> s = word ++ r.
Proof.
  revert s; induction word as [|x word IH]; intros [|y s]; simpl;
    try discriminate; try (now intros [= <-]).
  destruct (Ascii.eqb x y) eqn:E; [|discriminate].
  apply Ascii.eqb_eq in E. subst y. intros H. now rewrite (IH _ H).
Qed.

Lemma drop_prefix_app word r : drop_prefix word (word ++ r) = Some r.
Proof.
  induction word as [|x word IH]; simpl; [reflexivity|].
  now rewrite Ascii.eqb_refl.
Qed.

Lemma str_tail_last body : str_tail body -> exists w, body = w ++ [ch_quote].
Proof.
  induction 1 as [|c s _ _ _ _ [w ->]|e s _ _ [w ->]].
  - now exists [].
  - now exists (c :: w).
  - now exists (ch_backslash :: e :: w).
Qed.

(** A string is read to its closing quote. *)
Lemma scan_string_tail s r :
  scan_string s = Some r -> exists body, s = body ++ r /\ str_tail body.
Proof.
  remember (length s) as n eqn:En.
  assert (Hn : length s <= n) by lia. clear En.
  revert s r Hn. induction n as [|n IH]; intros [|c s] r Hn; simpl in *;
    try discriminate; try lia.
  destruct (is_ch c ch_quote) eqn:Eq.
  { intros [= <-]. apply is_ch_eq in Eq. subst c.
    exists [ch_quote]. split; [reflexivity | constructor]. }
  destruct (is_ch c ch_backslash) eqn:Eb.
  - apply is_ch_eq in Eb. subst c.
    destruct s as [|e s]; [discriminate|].
    destruct (code e =? 117) eqn:Eu.
    + destruct s as [|h1 [|h2 [|h3 [|h4 s]]]]; try discriminate.
      destruct (is_hex h1) eqn:E1; [|discriminate].
      destruct (is_hex h2) eqn:E2; [|discriminate].
      destruct (is_hex h3) eqn:E3; [|discriminate].
      destruct (is_hex h4) eqn:E4; [|discriminate].
      cbn [andb]. intros Hs.
      destruct (IH s r ltac:(simpl in Hn; lia) Hs) as [body [-> Hb]].
      exists (ch_backslash :: e :: h1 :: h2 :: h3 :: h4 :: body).
      split; [reflexivity|].
      apply hex_char in E1, E2, E3, E4.
      apply st_escape.
      { apply Nat.eqb_eq in Eu. apply Nat.ltb_ge. lia. }
      repeat (apply st_char; try tauto).
    + destruct (is_simple_escape e) eqn:Ee; [|discriminate].
      intros Hs.
      destruct (IH s r ltac:(simpl in Hn; lia) Hs) as [body [-> Hb]].
      exists (ch_backslash :: e :: body). split; [reflexivity|].
      apply st_escape; [now apply simple_escape_char | exact Hb].
  - destruct (code c <? 32) eqn:Ec; [discriminate|].
    intros Hs.
    destruct (IH s r ltac:(lia) Hs) as [body [-> Hb]].
    exists (c :: body). split; [reflexivity | now apply st_char].
Qed.

Lemma skip_digits_split s : exists w, s = w ++ skip_digits s /\ all_plain w.
Proof.
  induction s as [|c s [w [E Hw]]]; simpl; [now exists []|].
  destruct (is_digit c) eqn:Ec; [|now exists []].
  exists (c :: w). split; [simpl; now rewrite <- E|].
  constructor; [now apply digit_plain | exact Hw].
Qed.

Lemma code_plain c n :
  (code c =? n) = true ->
  plain (ascii_of_nat n) = true -> plain c = true.
Proof.
  intros E H. apply Nat.eqb_eq in E. subst n.
  unfold code in H. now rewrite ascii_nat_embedding in H.
Qed.

Lemma skip_frac_split s : exists w, s = w ++ skip_frac s /\ all_plain w.
Proof.
  destruct s as [|dot [|d r]]; simpl; try (now exists []).
  destruct (code dot =? 46) eqn:E1; [|now exists []].
  destruct (is_digit d) eqn:E2; [|now exists []]. cbn [andb].
  destruct (skip_digits_split r) as [w [E Hw]].
  exists (dot :: d :: w). split; [simpl; now rewrite <- E|].
  constructor; [now apply (code_plain _ 46)|].
  constructor; [now apply digit_plain | exact Hw].
Qed.

Lemma skip_sign_split s : exists w, s = w ++ skip_sign s /\ all_plain w.
Proof.
  destruct s as [|c r]; simpl; [now exists []|].
  destruct (code c =? 43) eqn:E1; cbn [orb].
  { exists [c]. split; [reflexivity|].
    constructor; [now apply (code_plain _ 43) | constructor]. }
  destruct (code c =? 45) eqn:E2; [|now exists []].
  exists [c]. split; [reflexivity|].
  constructor; [now apply (code_plain _ 45) | constructor].
Qed.

Lemma all_plain_app v w : all_plain v -> all_plain w -> all_plain (v ++ w).
Proof. intros Hv Hw. apply Forall_app. now split. Qed.

Lemma skip_exp_split s : exists w, s = w ++ skip_exp s /\ all_plain w.
Proof.
  destruct s as [|e r]; simpl; [now exists []|].
  assert (He : (code e =? 101) || (code e =? 69) = true -> plain e = true).
  { intros H. apply orb_true_iff in H. destruct H as [H|H];
      [now apply (code_plain _ 101) | now apply (code_plain _ 69)]. }
  destruct ((code e =? 101) || (code e =? 69)); [|now exists []].
  destruct (skip_sign_split r) as [w1 [E1 H1]].
  destruct (skip_sign r) as [|d r']; [now exists []|].
  destruct (is_digit d) eqn:Ed; [|now exists []].
  destruct (skip_digits_split r') as [w2 [E2 H2]].
  exists (e :: w1 ++ d :: w2). split.
  { simpl. rewrite <- app_assoc. simpl. now rewrite <- E2, <- E1. }
  constructor; [now apply He|].
  apply all_plain_app; [exact H1|].
  constructor; [now apply digit_plain | exact H2].
Qed.

Lemma scan_number_split s r :
  scan_number s = Some r -> exists v, s = v ++ r /\ v <> [] /\ all_plain v.
Proof.
  unfold scan_number.
  assert (Hsign : exists sg, s = sg ++ match s with
                                     | c :: r0 => if code c =? 45 then r0 else s
                                     | [] => []
                                     end /\ all_plain sg).
  { destruct s as [|c r0]; [now exists []|].
    destruct (code c =? 45) eqn:E; [|now exists []].
    exists [c]. split; [reflexivity|].
    constructor; [now apply (code_plain _ 45) | constructor]. }
  destruct Hsign as [sg [Es Hsg]].
  destruct (match s with
            | c :: r0 => if code c =? 45 then r0 else s
            | [] => []
            end) as [|d r1]; [discriminate|].
  assert (Hd : is_digit d = true -> plain d = true) by apply digit_plain.
  assert (Hz : (code d =? 48) = true -> plain d = true)
    by (intros; now apply (code_plain _ 48)).
  destruct (skip_digits_split r1) as [w1 [E1 H1]].
  destruct (skip_frac_split r1) as [w2 [E2 H2]].
  destruct (skip_exp_split (skip_frac r1)) as [w3 [E3 H3]].
  destruct (skip_frac_split (skip_digits r1)) as [w4 [E4 H4]].
  destruct (skip_exp_split (skip_frac (skip_digits r1))) as [w5 [E5 H5]].
  destruct (code d =? 48).
  { intros [= <-]. exists (sg ++ d :: w2 ++ w3). split; [|split].
    - rewrite Es at 1. rewrite <- app_assoc. simpl. rewrite <- app_assoc.
      now rewrite <- E3, <- E2.
    - destruct sg; discriminate.
    - apply all_plain_app; [exact Hsg|].
      constructor; [now apply Hz | now apply all_plain_app]. }
  destruct (is_digit d); [|discriminate].
  intros [= <-]. exists (sg ++ d :: w1 ++ w4 ++ w5). split; [|split].
  - rewrite Es at 1. rewrite <- app_assoc. simpl. rewrite <- !app_assoc.
    now rewrite <- E5, <- E4, <- E1.
  - destruct sg; discriminate.
  - apply all_plain_app; [exact Hsg|].
    constructor; [now apply Hd|]. now repeat apply all_plain_app.
Qed.

Lemma scan_constant_split s r :
  scan_constant s = Some r -> exists v, s = v ++ r /\ v <> [] /\ all_plain v.
Proof.
  unfold scan_constant.
  assert (Hword : forall word,
             word <> [] -> forallb plain word = true ->
             forall r0, drop_prefix word s = Some r0 ->
             exists v, s = v ++ r0 /\ v <> [] /\ all_plain v).
  { intros word Hne Hp r0 H. exists word. split; [|split]; trivial.
    - now apply drop_prefix_split.
    - apply Forall_forall. now apply forallb_forall. }
  destruct (drop_prefix (py "null") s) eqn:E1.
  { intros [= <-]. now apply (Hword (py "null")). }
  destruct (drop_prefix (py "true") s) eqn:E2.
  { intros [= <-]. now apply (Hword (py "true")). }
  destruct (drop_prefix (py "false") s) eqn:E3.
  { intros [= <-]. now apply (Hword (py "false")). }
  destruct (scan_number s) eqn:E4.
  { intros [= <-]. now apply scan_number_split. }
  destruct (drop_prefix (py "NaN") s) eqn:E5.
  { intros [= <-]. now apply (Hword (py "NaN")). }
  destruct (drop_prefix (py "Infinity") s) eqn:E6.
  { intros [= <-]. now apply (Hword (py "Infinity")). }
  intros H. now apply (Hword (py "-Infinity")).
Qed.

(** ** The shape of a text that parses *)

Lemma jtext_app v w : jtext v -> jtext w -> jtext (v ++ w).
Proof.
  intros Hv Hw. induction Hv as [|c s Hc _ IH|body s Hb _ IH|inner s Hi _ _ IH];
    simpl.
  - exact Hw.
  - now apply jt_plain.
  - rewrite <- app_assoc. now apply jt_string.
  - rewrite <- app_assoc. simpl. now apply jt_object.
Qed.

Lemma plain_jtext v : all_plain v -> jtext v.
Proof. induction 1; [apply jt_nil | now apply jt_plain]. Qed.

Lemma ws_jtext w : Forall (fun c => is_json_ws c = true) w -> jtext w.
Proof.
  intros H. apply plain_jtext. eapply Forall_impl; [|exact H].
  apply ws_plain.
Qed.

Lemma value_text_jtext v : value_text v -> jtext v.
Proof.
  intros [inner Hi|c w d _ _ H _]; [|exact H].
  now apply (jt_object inner []), jt_nil.
Qed.

Ltac jt :=
  repeat first
    [ assumption
    | apply jt_nil
    | apply ws_jtext; assumption
    | apply value_text_jtext; assumption
    | apply jtext_app
    | apply jt_plain; [reflexivity|] ].

Ltac list_eq := simpl; repeat (rewrite <- app_assoc; simpl); reflexivity.

Ltac split_ws r w c1 r1 E H :=
  destruct (skip_ws_split r) as [w [E H]]; revert E;
  destruct (skip_ws r) as [|c1 r1]; intros E; [try discriminate|].

(** What the parser reads: a value is an object in matching braces or
    a text that neither starts with an opening brace nor ends with a
    closing one; the members of an object run to its closing brace and
    the elements of an array to its closing bracket. *)
Lemma scan_shapes fuel :
  (forall s r, scan_value fuel s = Some r ->
     exists v, s = v ++ r /\ value_text v) /\
  (forall s r, scan_members fuel s = Some r ->
     exists m, s = m ++ ch_rbrace :: r /\ jtext (ch_quote :: m)) /\
  (forall s r, scan_elements fuel s = Some r ->
     exists m, s = m ++ ch_rbracket :: r /\ jtext m).
Proof.
  induction fuel as [|f [IHv [IHm IHe]]]; [repeat split; discriminate|].
  split; [|split]; intros s r; simpl.
  - destruct s as [|c r0]; [discriminate|].
    destruct (is_ch c ch_quote) eqn:Eq.
    { intros H. apply scan_string_tail in H. destruct H as [body [-> Hb]].
      apply is_ch_eq in Eq. subst c.
      exists (ch_quote :: body). split; [reflexivity|].
      destruct (str_tail_last _ Hb) as [w Ew].
      apply (vt_other ch_quote body ch_quote); try reflexivity.
      - rewrite <- (app_nil_r body). now apply jt_string, jt_nil.
      - exists (ch_quote :: w). now rewrite Ew. }
    destruct (is_ch c ch_lbrace) eqn:El.
    { apply is_ch_eq in El. subst c.
      split_ws r0 w c1 r1 E Hw.
      destruct (is_ch c1 ch_rbrace) eqn:Er.
      { intros [= <-]. apply is_ch_eq in Er. subst c1 r0.
        exists (ch_lbrace :: w ++ [ch_rbrace]). split; [list_eq|].
        apply vt_object. jt. }
      destruct (is_ch c1 ch_quote) eqn:Eq1; [|discriminate].
      intros H. apply IHm in H. destruct H as [m [-> Hm]].
      apply is_ch_eq in Eq1. subst c1 r0.
      exists (ch_lbrace :: (w ++ ch_quote :: m) ++ [ch_rbrace]).
      split; [list_eq|]. apply vt_object. jt. }
    destruct (is_ch c ch_lbracket) eqn:Ek.
    { apply is_ch_eq in Ek. subst c.
      split_ws r0 w c1 r1 E Hw.
      destruct (is_ch c1 ch_rbracket) eqn:Er.
      { intros [= <-]. apply is_ch_eq in Er. subst c1 r0.
        exists (ch_lbracket :: w ++ [ch_rbracket]). split; [list_eq|].
        apply (vt_other _ _ ch_rbracket); try reflexivity; [jt|].
        now exists (ch_lbracket :: w). }
      intros H. apply IHe in H. destruct H as [m [Em Hm]].
      rewrite Em in E. subst r0.
      exists (ch_lbracket :: (w ++ m) ++ [ch_rbracket]). split; [list_eq|].
      apply (vt_other _ _ ch_rbracket); try reflexivity; [jt|].
      now exists (ch_lbracket :: w ++ m). }
    intros H. apply scan_constant_split in H.
    destruct H as [v [E [Hne Hp]]].
    destruct (exists_last Hne) as [w' [d Ed]].
    exists v. split; [exact E|].
    destruct v as [|c' v']; [congruence|].
    injection E as <- _.
    apply (vt_other _ _ d); trivial.
    + rewrite Ed in Hp. apply Forall_app in Hp. destruct Hp as [_ Hd].
      inversion Hd as [|? ? Hd' _]. now apply plain_char in Hd'.
    + now apply plain_jtext.
    + now exists w'.
  - destruct (scan_string s) as [p|] eqn:Es; [|discriminate].
    apply scan_string_tail in Es. destruct Es as [body [-> Hb]].
    split_ws p w1 c0 r1 E1 H1.
    destruct (is_ch c0 ch_colon) eqn:Ec; [|discriminate].
    apply is_ch_eq in Ec. subst c0 p.
    destruct (skip_ws_split r1) as [w2 [E2 H2]].
    destruct (scan_value f (skip_ws r1)) as [r2|] eqn:Ev; [|discriminate].
    apply IHv in Ev. destruct Ev as [v [Ev Hv]]. rewrite Ev in E2. subst r1.
    split_ws r2 w3 c2 r3 E3 H3.
    destruct (is_ch c2 ch_rbrace) eqn:Er.
    { intros [= <-]. apply is_ch_eq in Er. subst c2 r2.
      exists (body ++ (w1 ++ ch_colon :: w2 ++ v ++ w3)). split; [list_eq|].
      apply jt_string; [exact Hb|]. jt. }
    destruct (is_ch c2 ch_comma) eqn:Eo; [|discriminate].
    apply is_ch_eq in Eo. subst c2 r2.
    split_ws r3 w4 c3 r4 E4 H4.
    destruct (is_ch c3 ch_quote) eqn:Eq; [|discriminate].
    apply is_ch_eq in Eq. subst c3 r3.
    intros H. apply IHm in H. destruct H as [m [-> Hm]].
    exists (body ++ (w1 ++ ch_colon :: w2 ++ v ++ w3 ++
                     ch_comma :: w4 ++ ch_quote :: m)).
    split; [list_eq|]. apply jt_string; [exact Hb|]. jt.
  - destruct (scan_value f s) as [r2|] eqn:Ev; [|discriminate].
    apply IHv in Ev. destruct Ev as [v [-> Hv]].
    split_ws r2 w c r1 E Hw.
    destruct (is_ch c ch_rbracket) eqn:Er.
    { intros [= <-]. apply is_ch_eq in Er. subst c r2.
      exists (v ++ w). split; [list_eq | jt]. }
    destruct (is_ch c ch_comma) eqn:Eo; [|discriminate].
    apply is_ch_eq in Eo. subst c r2.
    destruct (skip_ws_split r1) as [w2 [E2 H2]].
    intros H. apply IHe in H. destruct H as [m [Em Hm]].
    rewrite Em in E2. subst r1.
    exists (v ++ w ++ ch_comma :: w2 ++ m). split; [list_eq | jt].
Qed.

(** ** Fuel *)

Lemma skip_ws_length s : length (skip_ws s) <= length s.
Proof.
  destruct (skip_ws_split s) as [w [E _]].
  apply (f_equal (@length _)) in E. rewrite length_app in E. lia.
Qed.

Lemma skip_ws_cons_length s c r : skip_ws s = c :: r -> length r < length s.
Proof.
  intros E. pose proof (skip_ws_length s) as H. rewrite E in H. simpl in H. lia.
Qed.

Lemma scan_string_length s r : scan_string s = Some r -> length r < length s.
Proof.
  intros H. apply scan_string_tail in H. destruct H as [body [-> Hb]].
  rewrite length_app. destruct Hb; simpl; lia.
Qed.

Lemma scan_constant_length s r : scan_constant s = Some r -> length r < length s.
Proof.
  intros H. apply scan_constant_split in H. destruct H as [v [-> [Hne _]]].
  rewrite length_app. destruct v; [congruence | simpl; lia].
Qed.

(** The parser's result does not depend on the fuel once the fuel
    covers the text that is read. *)
Lemma scan_fuel fuel :
  (forall s r, scan_value fuel s = Some r ->
     length r < length s /\
     forall fuel', length s <= fuel' + length r -> scan_value fuel' s = Some r) /\
  (forall s r, scan_members fuel s = Some r ->
     length r < length s /\
     forall fuel', length s <= fuel' + length r -> scan_members fuel' s = Some r) /\
  (forall s r, scan_elements fuel s = Some r ->
     length r < length s /\
     forall fuel', length s <= fuel' + length r -> scan_elements fuel' s = Some r).
Proof.
  induction fuel as [|f [IHv [IHm IHe]]]; [repeat split; discriminate|].
  split; [|split]; intros s r; simpl.
  - destruct s as [|c r0]; [discriminate|].
    destruct (is_ch c ch_quote) eqn:Eq.
    { intros H. pose proof (scan_string_length _ _ H) as Hl.
      split; [simpl; lia|]. intros [|f'] Hf; [simpl in Hf; lia|].
      simpl. now rewrite Eq. }
    destruct (is_ch c ch_lbrace) eqn:El.
    { destruct (skip_ws r0) as [|c1 r1] eqn:Ew; [discriminate|].
      apply skip_ws_cons_length in Ew as Hw.
      destruct (is_ch c1 ch_rbrace) eqn:Er.
      { intros [= <-]. split; [simpl; lia|].
        intros [|f'] Hf; [simpl in Hf; lia|].
        simpl. now rewrite Eq, El, Ew, Er. }
      destruct (is_ch c1 ch_quote) eqn:Eq1; [|discriminate].
      intros H. destruct (IHm _ _ H) as [Hl Hfuel].
      split; [simpl; lia|]. intros [|f'] Hf; [simpl in Hf; lia|].
      simpl. rewrite Eq, El, Ew, Er, Eq1. apply Hfuel. simpl in Hf. lia. }
    destruct (is_ch c ch_lbracket) eqn:Ek.
    { destruct (skip_ws r0) as [|c1 r1] eqn:Ew; [discriminate|].
      apply skip_ws_cons_length in Ew as Hw.
      destruct (is_ch c1 ch_rbracket) eqn:Er.
      { intros [= <-]. split; [simpl; lia|].
        intros [|f'] Hf; [simpl in Hf; lia|].
        simpl. now rewrite Eq, El, Ek, Ew, Er. }
      intros H. destruct (IHe _ _ H) as [Hl Hfuel].
      split; [simpl in *; lia|]. intros [|f'] Hf; [simpl in *; lia|].
      simpl. rewrite Eq, El, Ek, Ew, Er. apply Hfuel. simpl in *. lia. }
    intros H. pose proof (scan_constant_length _ _ H) as Hl.
    split; [exact Hl|]. intros [|f'] Hf; [simpl in *; lia|].
    simpl. now rewrite Eq, El, Ek.
  - destruct (scan_string s) as [p|] eqn:Es; [|discriminate].
    apply scan_string_length in Es as Hp.
    destruct (skip_ws p) as [|c r1] eqn:E1; [discriminate|].
    apply skip_ws_cons_length in E1 as H1.
    destruct (is_ch c ch_colon) eqn:Ec; [|discriminate].
    pose proof (skip_ws_length r1) as H2.
    destruct (scan_value f (skip_ws r1)) as [r2|] eqn:Ev; [|discriminate].
    destruct (IHv _ _ Ev) as [Hv Hvf].
    destruct (skip_ws r2) as [|c2 r3] eqn:E3; [discriminate|].
    apply skip_ws_cons_length in E3 as H3.
    destruct (is_ch c2 ch_rbrace) eqn:Er.
    { intros [= <-]. split; [lia|]. intros [|f'] Hf; [lia|].
      simpl. rewrite Es, E1, Ec, (Hvf f') by lia. now rewrite E3, Er. }
    destruct (is_ch c2 ch_comma) eqn:Eo; [|discriminate].
    destruct (skip_ws r3) as [|c3 r4] eqn:E4; [discriminate|].
    apply skip_ws_cons_length in E4 as H4.
    destruct (is_ch c3 ch_quote) eqn:Eq; [|discriminate].
    intros H. destruct (IHm _ _ H) as [Hm Hmf].
    split; [lia|]. intros [|f'] Hf; [lia|].
    simpl. rewrite Es, E1, Ec, (Hvf f') by lia.
    rewrite E3, Er, Eo, E4, Eq. apply Hmf. lia.
  - destruct (scan_value f s) as [r2|] eqn:Ev; [|discriminate].
    destruct (IHv _ _ Ev) as [Hv Hvf].
    destruct (skip_ws r2) as [|c r1] eqn:E1; [discriminate|].
    apply skip_ws_cons_length in E1 as H1.
    destruct (is_ch c ch_rbracket) eqn:Er.
    { intros [= <-]. split; [lia|]. intros [|f'] Hf; [lia|].
      simpl. rewrite (Hvf f') by lia. now rewrite E1, Er. }
    destruct (is_ch c ch_comma) eqn:Eo; [|discriminate].
    pose proof (skip_ws_length r1) as H2.
    intros H. destruct (IHe _ _ H) as [He Hef].
    split; [lia|]. intros [|f'] Hf; [lia|].
    simpl. rewrite (Hvf f') by lia. rewrite E1, Er, Eo. apply Hef. lia.
Qed.

(** The length of the text is fuel enough. *)
Lemma scan_value_fuel fuel s r :
  scan_value fuel s = Some r -> scan_value (S (length s)) s = Some r.
Proof.
  intros H. destruct (proj1 (scan_fuel fuel) _ _ H) as [_ Hf]. apply Hf. lia.
Qed.

(** [json_loads_ok] accepts what the parser accepts with any fuel. *)
Lemma json_loads_ok_fuel fuel s r :
  scan_value fuel (skip_ws s) = Some r -> skip_ws r = [] ->
  json_loads_ok s = true.
Proof.
  intros H Hr. unfold json_loads_ok.
  destruct (proj1 (scan_fuel fuel) _ _ H) as [_ Hf].
  rewrite (Hf (S (length s))) by (pose proof (skip_ws_length s); lia).
  now rewrite Hr.
Qed.

#[local] Abbreviation all_ws w := (Forall (fun c => is_json_ws c = true) w).

Lemma json_loads_ok_shape s :
  json_loads_ok s = true ->
  exists w1 v w2, s = w1 ++ v ++ w2 /\ all_ws w1 /\ value_text v /\ all_ws w2.
Proof.
  unfold json_loads_ok. destruct (skip_ws_split s) as [w1 [E1 H1]].
  destruct (scan_value _ (skip_ws s)) as [r|] eqn:Ev; [|discriminate].
  apply scan_shapes in Ev. destruct Ev as [v [Ev Hv]].
  destruct (skip_ws_split r) as [w2 [E2 H2]].
  destruct (skip_ws r); [|discriminate]. intros _.
  exists w1, v, w2. rewrite app_nil_r in E2. subst r.
  rewrite Ev in E1. now repeat split.
Qed.

Lemma json_object_shape obj :
  json_object obj ->
  exists inner, obj = ch_lbrace :: inner ++ [ch_rbrace] /\ jtext inner.
Proof.
  intros [rest [fuel [E Hs]]]. apply scan_shapes in Hs.
  destruct Hs as [v [Ev Hv]]. rewrite app_nil_r in Ev. subst v.
  destruct Hv as [inner Hi|c w d Hc _ _ _]; [now exists inner|].
  injection E as -> _. discriminate.
Qed.

Lemma json_object_loads obj : json_object obj -> json_loads_ok obj = true.
Proof.
  intros [rest [fuel [E Hs]]]. apply (json_loads_ok_fuel fuel obj []).
  - now subst obj.
  - reflexivity.
Qed.

Lemma json_object_jtext obj : json_object obj -> jtext obj.
Proof.
  intros H. destruct (json_object_shape _ H) as [inner [-> Hi]].
  now apply (jt_object inner []), jt_nil.
Qed.

(** ** The brace scan over a text that parses *)

Lemma str_tail_brace_scan body :
  str_tail body ->
  forall depth seen tail,
    brace_scan depth true false seen (body ++ tail) =
    brace_scan depth false false (rev body ++ seen) tail.
Proof.
  induction 1 as [|c s Hq Hb _ _ IH|e s _ _ IH]; intros depth seen tail.
  - reflexivity.
  - simpl. rewrite Hb, Hq, IH. now rewrite <- app_assoc.
  - simpl. rewrite IH. now rewrite <- !app_assoc.
Qed.

Lemma jtext_brace_scan v :
  jtext v ->
  forall depth seen tail,
    (1 <= depth)%Z ->
    brace_scan depth false false seen (v ++ tail) =
    brace_scan depth false false (rev v ++ seen) tail.
Proof.
  induction 1 as [|c s Hc _ IH|body s Hb _ IH|inner s _ IHi _ IHs];
    intros depth seen tail Hd.
  - reflexivity.
  - apply plain_char in Hc. destruct Hc as (Hq & Hb & _ & Hl & Hr).
    simpl. rewrite Hb, Hq, Hl, Hr, IH by exact Hd. now rewrite <- app_assoc.
  - simpl. rewrite <- app_assoc, str_tail_brace_scan by exact Hb.
    rewrite IH by exact Hd. rewrite rev_app_distr, <- !app_assoc.
    reflexivity.
  - simpl. rewrite <- app_assoc. rewrite IHi by lia. simpl.
    replace (depth + 1 - 1 =? 0)%Z with false by (symmetry; apply Z.eqb_neq; lia).
    replace (depth + 1 - 1)%Z with depth by lia.
    rewrite IHs by exact Hd.
    rewrite rev_app_distr. simpl. rewrite <- !app_assoc. reflexivity.
Qed.

(** The scan from the opening brace of an object stops at its closing
    brace. *)
Lemma brace_scan_object obj tail :
  json_object obj -> brace_scan 0 false false [] (obj ++ tail) = Some obj.
Proof.
  intros H. destruct (json_object_shape _ H) as [inner [-> Hi]].
  simpl. rewrite <- app_assoc. rewrite jtext_brace_scan by (trivial; lia).
  simpl. now rewrite rev_app_distr, rev_involutive.
Qed.

Lemma from_first_brace_skip pre s :
  Forall (fun c => is_ch c ch_lbrace = false) pre ->
  from_first_brace (pre ++ ch_lbrace :: s) = Some (ch_lbrace :: s).
Proof.
  induction 1 as [|c pre Hc _ IH]; simpl; [reflexivity|]. now rewrite Hc.
Qed.

(** ** The string state over a text that parses *)

Lemma lex_app st a b :
  lex st (a ++ b) =
  match lex st a with Some st' => lex st' b | None => None end.
Proof.
  revert st; induction a as [|c a IH]; intros st; simpl; [reflexivity|].
  destruct (lex_step st c); [apply IH | reflexivity].
Qed.

Lemma str_tail_lex body : str_tail body -> lex Inside body = Some Outside.
Proof.
  induction 1 as [|c s Hq Hb Hc _ IH|e s He _ IH]; simpl.
  - reflexivity.
  - now rewrite Hq, Hb, Hc.
  - now rewrite He.
Qed.

Lemma jtext_lex v : jtext v -> lex Outside v = Some Outside.
Proof.
  induction 1 as [|c s Hc _ IH|body s Hb _ IH|inner s _ IHi _ IHs].
  - reflexivity.
  - apply plain_char in Hc. destruct Hc as (Hq & Hb & Ht & _).
    simpl. now rewrite Hq, Hb, Ht.
  - change (lex Outside (ch_quote :: body ++ s)) with (lex Inside (body ++ s)).
    now rewrite lex_app, str_tail_lex.
  - change (lex Outside (ch_lbrace :: inner ++ ch_rbrace :: s))
      with (lex Outside (inner ++ ch_rbrace :: s)).
    now rewrite lex_app, IHi.
Qed.

(** ** Fences and strings *)

#[local] Abbreviation all_space w := (Forall (fun c => is_space c = true) w).
#[local] Abbreviation inert c :=
  (is_ch c ch_quote = false /\ is_ch c ch_backslash = false).

Lemma space_inert c : is_space c = true -> inert c.
Proof. intros H. apply space_plain, plain_char in H. tauto. Qed.

(** Inside a string, text without quotes and backslashes stays inside. *)
Lemma lex_inside_inert x :
  Forall (fun c => inert c) x ->
  lex Inside x = None \/ lex Inside x = Some Inside.
Proof.
  induction 1 as [|c x [Hq Hb] _ IH]; simpl; [now right|].
  rewrite Hq, Hb. destruct (code c <? 32); [now left | exact IH].
Qed.

Lemma lex_inside_newline x rest :
  Forall (fun c => inert c) x -> lex Inside (x ++ ch_newline :: rest) = None.
Proof.
  intros H. rewrite lex_app.
  destruct (lex_inside_inert x H) as [-> | ->]; reflexivity.
Qed.

(** No string state survives the opening line of a fence. *)
Lemma lex_fence_open st tag ws rest :
  Forall (fun c => inert c) tag -> all_space ws ->
  lex st (fence ++ tag ++ ws ++ ch_newline :: rest) = None.
Proof.
  intros Ht Hw.
  assert (H : lex Inside (tag ++ ws ++ ch_newline :: rest) = None).
  { rewrite app_assoc. apply lex_inside_newline. apply Forall_app. split; [exact Ht|].
    eapply Forall_impl; [|exact Hw]. apply space_inert. }
  destruct st; [reflexivity | exact H | exact H].
Qed.

Lemma lex_outside_space ws rest :
  all_space ws -> lex Outside (ws ++ rest) = lex Outside rest.
Proof.
  induction 1 as [|c ws Hc _ IH]; simpl; [reflexivity|].
  apply space_plain, plain_char in Hc. destruct Hc as (Hq & Hb & Ht & _).
  now rewrite Hq, Hb, Ht.
Qed.

(** The opening line of a fence does not start inside a text that
    parses. *)
Lemma no_open_inside a b tail tag ws rest :
  lex Outside (a ++ b) = Some Outside -> b <> [] ->
  Forall (fun c => inert c) tag -> all_space ws ->
  b ++ tail = fence ++ tag ++ ws ++ ch_newline :: rest -> False.
Proof.
  intros Hl Hb Ht Hw E. rewrite lex_app in Hl.
  destruct (lex Outside a) as [st|]; [|discriminate].
  replace (fence ++ tag ++ ws ++ ch_newline :: rest)
    with ((fence ++ tag ++ ws ++ [ch_newline]) ++ rest) in E by list_eq.
  apply app_eq_app in E. destruct E as [l [[-> _] | [E _]]].
  - replace ((fence ++ tag ++ ws ++ [ch_newline]) ++ l)
      with (fence ++ tag ++ ws ++ ch_newline :: l) in Hl by list_eq.
    now rewrite lex_fence_open in Hl.
  - destruct b as [|c b]; [congruence|].
    injection E as <- E.
    assert (Hin : Forall (fun c => inert c) (b ++ l)).
    { rewrite <- E. repeat constructor; try reflexivity.
      apply Forall_app. split; [exact Ht|]. apply Forall_app. split.
      - eapply Forall_impl; [|exact Hw]. apply space_inert.
      - repeat constructor. }
    apply Forall_app in Hin. destruct Hin as [Hin _].
    destruct (lex_inside_inert b Hin) as [Hn | Hn];
      destruct st; simpl in Hl; congruence.
Qed.

Lemma last_not_space a b w d :
  a ++ b = w ++ [d] -> b <> [] -> all_space b -> is_space d = false -> False.
Proof.
  intros E Hb Hs Hd. destruct (exists_last Hb) as [b' [x ->]].
  rewrite app_assoc in E. apply app_inj_tail in E. destruct E as [_ ->].
  apply Forall_app in Hs. destruct Hs as [_ Hs].
  inversion Hs as [|? ? Hx _]. congruence.
Qed.

(** The closing line of a fence does not start inside a text that
    parses and ends with something other than white space. *)
Lemma no_close_inside a b tail ws rest w d :
  lex Outside (a ++ b) = Some Outside -> b <> [] ->
  a ++ b = w ++ [d] -> is_space d = false ->
  all_space ws ->
  b ++ tail = ch_newline :: ws ++ fence ++ rest -> False.
Proof.
  intros Hl Hb Hlast Hd Hw E.
  change (ch_newline :: ws ++ fence ++ rest)
    with ((ch_newline :: ws) ++ fence ++ rest) in E.
  assert (Hnl : all_space (ch_newline :: ws)) by now constructor.
  apply app_eq_app in E. destruct E as [l [[-> E] | [E _]]].
  - destruct l as [|c l].
    { rewrite app_nil_r in *. eapply last_not_space; eassumption. }
    injection E as <- _.
    rewrite lex_app in Hl. destruct (lex Outside a) as [st|]; [|discriminate].
    destruct st; simpl in Hl; try discriminate.
    rewrite lex_outside_space in Hl by exact Hw. discriminate.
  - rewrite E in Hnl. apply Forall_app in Hnl. destruct Hnl as [Hnl _].
    eapply last_not_space; eassumption.
Qed.

(** ** The matcher *)

Lemma star_loop_split cls k s g :
  star_loop cls k s = Some g ->
  exists ws s', s = ws ++ s' /\ Forall (fun c => cls c = true) ws /\ k s' = Some g.
Proof.
  induction s as [|c s IH]; simpl.
  - intros H. now exists [], [].
  - destruct (cls c) eqn:Ec; [|intros H; now exists [], (c :: s)].
    destruct (star_loop cls k s) as [g'|] eqn:Es.
    + intros [= ->]. destruct (IH eq_refl) as [ws [s' [-> [Hw Hk]]]].
      exists (c :: ws), s'. repeat split; trivial. now constructor.
    + intros H. now exists [], (c :: s).
Qed.

Lemma lazy_loop_found k acc s g :
  k (rev acc) s = Some g -> lazy_loop k acc s = Some g.
Proof. intros H. destruct s; simpl; now rewrite H. Qed.

Lemma lazy_loop_skip k body tail :
  (forall a b, body = a ++ b -> b <> [] -> forall g, k g (b ++ tail) = None) ->
  forall acc, lazy_loop k acc (body ++ tail) = lazy_loop k (rev body ++ acc) tail.
Proof.
  induction body as [|c body IH]; intros Hk acc; [reflexivity|].
  simpl. rewrite (Hk [] (c :: body) eq_refl ltac:(discriminate)).
  rewrite IH.
  - now rewrite <- app_assoc.
  - intros a b -> Hb g. apply (Hk (c :: a) b eq_refl Hb).
Qed.

Lemma lazy_loop_split k acc s g :
  lazy_loop k acc s = Some g ->
  exists a b g0, s = a ++ b /\ k g0 b = Some g.
Proof.
  revert acc; induction s as [|c s IH]; intros acc; simpl.
  - destruct (k (rev acc) []) eqn:E; [|discriminate].
    intros [= <-]. now exists [], [], (rev acc).
  - destruct (k (rev acc) (c :: s)) eqn:E.
    + intros [= <-]. now exists [], (c :: s), (rev acc).
    + intros H. destruct (IH _ H) as [a [b [g0 [-> Hk]]]].
      now exists (c :: a), b, g0.
Qed.

Lemma closing_split s g r :
  match_here closing s g = Some r ->
  exists ws rest, s = ch_newline :: ws ++ fence ++ rest /\ all_space ws.
Proof.
  unfold closing. cbn [match_here].
  destruct (drop_prefix [ch_newline] s) as [s1|] eqn:E1; [|discriminate].
  apply drop_prefix_split in E1. subst s.
  intros H. apply star_loop_split in H. destruct H as [ws [s' [-> [Hw H]]]].
  destruct (drop_prefix fence s') as [s2|] eqn:E2; [|discriminate].
  apply drop_prefix_split in E2. subst s'. now exists ws, s2.
Qed.

Lemma closing_match post g :
  match_here closing (ch_newline :: fence ++ post) g = Some g.
Proof. reflexivity. Qed.

Lemma fenced_split tag s g0 g :
  match_here (fenced tag) s g0 = Some g ->
  exists ws s',
    s = fence ++ tag ++ ws ++ ch_newline :: s' /\ all_space ws /\
    exists a ws' rest,
      s' = a ++ ch_newline :: ws' ++ fence ++ rest /\ all_space ws'.
Proof.
  unfold fenced. cbn [match_here].
  destruct (drop_prefix (fence ++ tag) s) as [s1|] eqn:E1; [|discriminate].
  apply drop_prefix_split in E1. subst s.
  intros H. apply star_loop_split in H. destruct H as [ws [s2 [-> [Hw H]]]].
  destruct (drop_prefix [ch_newline] s2) as [s3|] eqn:E3; [|discriminate].
  apply drop_prefix_split in E3. subst s2.
  apply lazy_loop_split in H. destruct H as [a [b [g1 [-> H]]]].
  apply closing_split in H. destruct H as [ws' [rest [-> Hw']]].
  exists ws, (a ++ ch_newline :: ws' ++ fence ++ rest).
  split; [list_eq|]. split; [exact Hw|]. now exists a, ws', rest.
Qed.

Lemma search_found pat s g :
  match_here pat s [] = Some g -> search pat s = Some g.
Proof. intros H. destruct s; simpl; now rewrite H. Qed.

Lemma search_cons pat c s :
  match_here pat (c :: s) [] = None -> search pat (c :: s) = search pat s.
Proof. intros H. simpl. now rewrite H. Qed.

Lemma search_skip pat pre s :
  (forall a b, pre = a ++ b -> b <> [] -> match_here pat (b ++ s) [] = None) ->
  search pat (pre ++ s) = search pat s.
Proof.
  induction pre as [|c pre IH]; intros H; [reflexivity|].
  change ((c :: pre) ++ s) with (c :: pre ++ s).
  rewrite search_cons by (apply (H [] (c :: pre) eq_refl); discriminate).
  apply IH. intros a b -> Hb. now apply (H (c :: a) b).
Qed.

#[local] Abbreviation no_backtick s :=
  (Forall (fun c => is_ch c ch_backtick = false) s).

Lemma fenced_head tag c s g0 :
  is_ch c ch_backtick = false -> match_here (fenced tag) (c :: s) g0 = None.
Proof.
  intros H. unfold fenced, is_ch in *. cbn.
  now rewrite Ascii.eqb_sym, H.
Qed.

Lemma search_no_backtick tag pre s :
  no_backtick pre -> search (fenced tag) (pre ++ s) = search (fenced tag) s.
Proof.
  intros H. apply search_skip. intros a [|c b] -> Hb; [congruence|].
  apply Forall_app in H. destruct H as [_ H]. inversion H; subst.
  now apply fenced_head.
Qed.

Lemma search_blank tag s : no_backtick s -> search (fenced tag) s = None.
Proof.
  intros H. rewrite <- (app_nil_r s). now rewrite search_no_backtick.
Qed.

(** No fenced block starts inside an object. *)
Lemma search_object tag obj tail :
  json_object obj -> Forall (fun c => inert c) tag ->
  search (fenced tag) (obj ++ tail) = search (fenced tag) tail.
Proof.
  intros Hobj Ht. apply search_skip. intros a b -> Hb.
  destruct (match_here (fenced tag) (b ++ tail) []) as [g|] eqn:E;
    [exfalso | reflexivity].
  apply fenced_split in E. destruct E as [ws [s' [E [Hw _]]]].
  apply json_object_jtext, jtext_lex in Hobj.
  eapply no_open_inside; eassumption.
Qed.

Lemma star_loop_one cls k c d s :
  cls c = true -> cls d = false -> k (d :: s) = None ->
  star_loop cls k (c :: d :: s) = k (c :: d :: s).
Proof. intros Hc Hd Hk. simpl. now rewrite Hc, Hd, Hk. Qed.

(** The group of a fenced block that holds an object is the object. *)
Lemma fenced_group tag obj post :
  json_object obj ->
  match_here (fenced tag) (fence ++ tag ++ ch_newline :: obj ++ ch_newline :: fence ++ post) []
  = Some obj.
Proof.
  intros Hobj. unfold fenced. cbn [match_here].
  rewrite app_assoc, drop_prefix_app.
  destruct (json_object_shape _ Hobj) as [inner [E Hi]].
  assert (Hgroup :
    lazy_loop (fun g s' => match_here closing s' g) []
      (obj ++ ch_newline :: fence ++ post) = Some obj).
  { rewrite lazy_loop_skip.
    - apply lazy_loop_found. rewrite app_nil_r, rev_involutive.
      apply closing_match.
    - intros a b Eab Hb g.
      destruct (match_here closing (b ++ ch_newline :: fence ++ post) g)
        as [g'|] eqn:Ec; [exfalso | reflexivity].
      apply closing_split in Ec. destruct Ec as [ws [rest [Ec Hw]]].
      apply json_object_jtext, jtext_lex in Hobj. rewrite Eab in Hobj.
      eapply (no_close_inside a b _ ws rest (ch_lbrace :: inner) ch_rbrace);
        try eassumption; [|reflexivity].
      now rewrite <- Eab, E. }
  revert Hgroup. generalize (ch_newline :: fence ++ post). intros T Hgroup.
  rewrite E in *. clear E.
  change ((ch_lbrace :: inner ++ [ch_rbrace]) ++ T)
    with (ch_lbrace :: (inner ++ [ch_rbrace]) ++ T) in *.
  rewrite star_loop_one by reflexivity.
  cbn [match_here].
  change (ch_newline :: ch_lbrace :: (inner ++ [ch_rbrace]) ++ T)
    with ([ch_newline] ++ ch_lbrace :: (inner ++ [ch_rbrace]) ++ T).
  rewrite drop_prefix_app. exact Hgroup.
Qed.

(** ** Stripping around a text *)

Lemma lstrip_suffix s : exists w, s = w ++ lstrip s /\ all_space w.
Proof.
  induction s as [|c s [w [E Hw]]]; simpl; [now exists []|].
  destruct (is_space c) eqn:Ec; [|now exists []].
  exists (c :: w). split; [simpl; now rewrite <- E | now constructor].
Qed.

Lemma lstrip_keeps pre c s :
  is_space c = false -> lstrip (pre ++ c :: s) = lstrip pre ++ c :: s.
Proof.
  intros Hc. induction pre as [|x pre IH]; simpl; [now rewrite Hc|].
  destruct (is_space x); [exact IH | reflexivity].
Qed.

Lemma rstrip_keeps s d post :
  is_space d = false -> rstrip (s ++ d :: post) = s ++ d :: rstrip post.
Proof.
  intros Hd. unfold rstrip. rewrite rev_app_distr. simpl.
  rewrite <- app_assoc. simpl. rewrite lstrip_keeps by exact Hd.
  rewrite rev_app_distr. simpl. rewrite rev_involutive, <- app_assoc.
  reflexivity.
Qed.

Lemma strip_keeps pre c mid d post :
  is_space c = false -> is_space d = false ->
  strip (pre ++ c :: mid ++ d :: post) =
  lstrip pre ++ c :: mid ++ d :: rstrip post.
Proof.
  intros Hc Hd. unfold strip. rewrite lstrip_keeps by exact Hc.
  replace (lstrip pre ++ c :: mid ++ d :: post)
    with ((lstrip pre ++ c :: mid) ++ d :: post) by list_eq.
  rewrite rstrip_keeps by exact Hd. list_eq.
Qed.

Lemma lstrip_blank s : lstrip s = [] -> all_space s.
Proof.
  intros H. destruct (lstrip_suffix s) as [w [E Hw]].
  rewrite H, app_nil_r in E. now subst.
Qed.

Lemma strip_blank s : strip s = [] -> all_space s.
Proof.
  unfold strip, rstrip. intros H.
  apply (f_equal (@rev ascii)) in H. rewrite rev_involutive in H. simpl in H.
  apply lstrip_blank in H. apply Forall_rev in H. rewrite rev_involutive in H.
  destruct (lstrip_suffix s) as [w [E Hw]].
  rewrite E. apply Forall_app. now split.
Qed.

(** ** The stages *)

Lemma from_first_brace_none s :
  Forall (fun c => is_ch c ch_lbrace = false) s -> from_first_brace s = None.
Proof. induction 1 as [|c s Hc _ IH]; simpl; [reflexivity|]. now rewrite Hc. Qed.

(** The stages in their order: the first that yields a text that parses
    wins, and the input is returned when none does. *)
Lemma extract_json_staged (t : pystr) :
  extract_json t =
  if json_loads_ok (strip t) then strip t
  else match try_patterns md_patterns t with
       | Some candidate => candidate
       | None =>
           match brace_candidate t with
           | Some candidate => if json_loads_ok candidate then candidate else t
           | None => t
           end
       end.
Proof.
  unfold extract_json. destruct (strip t) as [|c rest] eqn:Es; [|reflexivity].
  apply strip_blank in Es.
  assert (Hb : no_backtick t).
  { eapply Forall_impl; [|exact Es]. intros c Hc.
    now apply space_plain, plain_char in Hc. }
  assert (Hl : Forall (fun c => is_ch c ch_lbrace = false) t).
  { eapply Forall_impl; [|exact Es]. intros c Hc.
    now apply space_plain, plain_char in Hc. }
  unfold md_patterns, md_json, md_plain, brace_candidate. cbn [try_patterns].
  rewrite !search_blank by exact Hb.
  now rewrite from_first_brace_none.
Qed.

Lemma loads_lex s : json_loads_ok s = true -> lex Outside s = Some Outside.
Proof.
  intros H. apply json_loads_ok_shape in H.
  destruct H as (w1 & v & w2 & -> & H1 & Hv & H2).
  apply jtext_lex. jt.
Qed.

Lemma json_object_trimmed obj : json_object obj -> strip obj = obj.
Proof.
  intros H. destruct (json_object_shape _ H) as [inner [-> _]].
  now apply strip_fixed.
Qed.

(** ** Recovery of an object *)

Lemma recover_bare obj t :
  json_object obj -> strip t = obj -> extract_json t = obj.
Proof.
  intros Hobj Ht. rewrite extract_json_staged, Ht.
  now rewrite json_object_loads.
Qed.

Lemma fenced_short tag post g :
  no_backtick post ->
  match_here (fenced tag) (ch_backtick :: ch_backtick :: post) g = None /\
  match_here (fenced tag) (ch_backtick :: post) g = None.
Proof.
  intros H. unfold fenced, is_ch in *.
  destruct H as [|c post Hc _]; [now split|].
  rewrite Ascii.eqb_sym in Hc. cbn. now rewrite Hc.
Qed.

Lemma fenced_needs_closing tag post g :
  no_backtick post -> match_here (fenced tag) (fence ++ post) g = None.
Proof.
  intros H.
  destruct (match_here (fenced tag) (fence ++ post) g) as [g'|] eqn:E;
    [exfalso | reflexivity].
  apply fenced_split in E.
  destruct E as (ws & s' & E & _ & a & ws' & rest & -> & _).
  apply app_inv_head in E. subst post.
  repeat (apply Forall_app in H; destruct H as [_ H]).
  inversion H as [|? ? _ H']. clear H.
  repeat (apply Forall_app in H'; destruct H' as [_ H']).
  inversion H' as [|? ? _ H'']. clear H'.
  repeat (apply Forall_app in H''; destruct H'' as [_ H'']).
  inversion H'' as [|? ? Hc _]. discriminate.
Qed.

Lemma json_tag_inert : Forall (fun c => inert c) (py "json").
Proof. repeat constructor. Qed.

Lemma recover_fenced obj pre tag post :
  json_object obj -> tag = [] \/ tag = py "json" ->
  no_backtick pre -> no_backtick post ->
  extract_json (pre ++ fence ++ tag ++ ch_newline :: obj ++ ch_newline :: fence ++ post)
  = obj.
Proof.
  intros Hobj Htag Hpre Hpost.
  assert (Hinert : Forall (fun c => inert c) tag)
    by (destruct Htag as [-> | ->]; [constructor | apply json_tag_inert]).
  rewrite extract_json_staged.
  set (text := pre ++ fence ++ tag ++ ch_newline :: obj ++ ch_newline :: fence ++ post).
  assert (H1 : json_loads_ok (strip text) = false).
  { destruct (json_loads_ok (strip text)) eqn:E; [exfalso | reflexivity].
    apply loads_lex in E. revert E. unfold text.
    replace (pre ++ fence ++ tag ++ ch_newline :: obj ++ ch_newline :: fence ++ post)
      with (pre ++ ch_backtick ::
              ([ch_backtick; ch_backtick] ++ tag ++ ch_newline :: obj ++
               [ch_newline; ch_backtick; ch_backtick]) ++
              ch_backtick :: post) by (unfold fence; list_eq).
    rewrite strip_keeps by reflexivity.
    rewrite lex_app. destruct (lex Outside (lstrip pre)) as [st|]; [|discriminate].
    replace (ch_backtick ::
              ([ch_backtick; ch_backtick] ++ tag ++ ch_newline :: obj ++
               [ch_newline; ch_backtick; ch_backtick]) ++
              ch_backtick :: rstrip post)
      with (fence ++ tag ++ [] ++ ch_newline :: obj ++
              ch_newline :: fence ++ rstrip post) by (unfold fence; list_eq).
    rewrite lex_fence_open; [discriminate | exact Hinert | constructor]. }
  rewrite H1.
  assert (Hfound : forall tag',
             Forall (fun c => inert c) tag' ->
             search (fenced tag')
               (pre ++ fence ++ tag' ++ ch_newline :: obj ++ ch_newline :: fence ++ post)
             = Some obj).
  { intros tag' _. rewrite search_no_backtick by exact Hpre.
    apply search_found. now apply fenced_group. }
  assert (Hcand : json_loads_ok (strip obj) = true)
    by (rewrite json_object_trimmed by exact Hobj; now apply json_object_loads).
  unfold md_patterns, md_json, md_plain. cbn [try_patterns].
  destruct Htag as [-> | ->].
  - assert (Hnone : search (fenced (py "json")) text = None).
    { unfold text. rewrite search_no_backtick by exact Hpre.
      change (fence ++ [] ++ ch_newline :: obj ++ ch_newline :: fence ++ post)
        with (ch_backtick :: ch_backtick :: ch_backtick :: ch_newline ::
                obj ++ ch_newline :: fence ++ post).
      rewrite 4 search_cons by reflexivity.
      rewrite search_object by (trivial; apply json_tag_inert).
      rewrite search_cons by reflexivity.
      change (fence ++ post)
        with (ch_backtick :: ch_backtick :: ch_backtick :: post).
      rewrite search_cons
        by (apply (fenced_needs_closing (py "json") post []); exact Hpost).
      destruct (fenced_short (py "json") post [] Hpost) as [H2 H3].
      rewrite search_cons by exact H2. rewrite search_cons by exact H3.
      now apply search_blank. }
    rewrite Hnone. unfold text. rewrite Hfound by constructor.
    rewrite Hcand. now apply json_object_trimmed.
  - unfold text. rewrite Hfound by apply json_tag_inert.
    rewrite Hcand. now apply json_object_trimmed.
Qed.

Lemma recover_after_prose obj pre :
  json_object obj ->
  Forall (fun c => is_ch c ch_lbrace = false) pre -> no_backtick pre ->
  extract_json (pre ++ obj) = obj.
Proof.
  intros Hobj Hbrace Htick.
  destruct (json_object_shape _ Hobj) as [inner [E Hi]].
  assert (Hstrip : strip (pre ++ obj) = lstrip pre ++ obj).
  { rewrite E.
    replace (pre ++ ch_lbrace :: inner ++ [ch_rbrace])
      with (pre ++ ch_lbrace :: inner ++ ch_rbrace :: []) by reflexivity.
    now rewrite strip_keeps. }
  destruct (lstrip pre) as [|c p] eqn:Ep.
  { apply recover_bare; assumption. }
  rewrite extract_json_staged, Hstrip.
  assert (H1 : json_loads_ok ((c :: p) ++ obj) = false).
  { destruct (json_loads_ok ((c :: p) ++ obj)) eqn:Ev; [exfalso | reflexivity].
    apply json_loads_ok_shape in Ev.
    destruct Ev as (w1 & v & w2 & Ev & H1 & Hv & H2).
    assert (Hc : is_space c = false) by (eapply lstrip_head; eassumption).
    destruct w1 as [|x w1].
    2:{ injection Ev as <- _. inversion H1 as [|? ? Hx _].
        apply ws_space in Hx. congruence. }
    assert (w2 = []) as ->.
    { destruct w2 as [|x w2]; [reflexivity|]. exfalso.
      rewrite E in Ev.
      replace ((c :: p) ++ ch_lbrace :: inner ++ [ch_rbrace])
        with (((c :: p) ++ ch_lbrace :: inner) ++ [ch_rbrace]) in Ev by list_eq.
      simpl in Ev.
      apply (last_not_space v (x :: w2) (c :: p ++ ch_lbrace :: inner)
               ch_rbrace (eq_sym Ev));
        [discriminate | | reflexivity].
      eapply Forall_impl; [|exact H2]. apply ws_space. }
    simpl in Ev. rewrite app_nil_r in Ev. subst v.
    assert (Hlb : is_ch c ch_lbrace = false).
    { destruct (lstrip_suffix pre) as [w [Ew _]]. rewrite Ep in Ew.
      rewrite Ew in Hbrace. apply Forall_app in Hbrace.
      destruct Hbrace as [_ Hbrace]. now inversion Hbrace. }
    inversion Hv as [inner' Hi' Eo | c' w d Hc' Hd _ [w' Ew] Eo].
    - rewrite <- Eo in Hlb. discriminate.
    - rewrite E in Ew.
      change ((c :: p) ++ ch_lbrace :: inner ++ [ch_rbrace])
        with (c :: p ++ ch_lbrace :: inner ++ [ch_rbrace]) in Ew.
      replace (c :: p ++ ch_lbrace :: inner ++ [ch_rbrace])
        with ((c :: p ++ ch_lbrace :: inner) ++ [ch_rbrace]) in Ew by list_eq.
      apply app_inj_tail in Ew. destruct Ew as [_ <-]. discriminate. }
  rewrite H1.
  unfold md_patterns, md_json, md_plain. cbn [try_patterns].
  assert (Hs : forall tag, Forall (fun c => inert c) tag ->
             search (fenced tag) (pre ++ obj) = None).
  { intros tag Ht. rewrite search_no_backtick by exact Htick.
    rewrite <- (app_nil_r obj). now rewrite search_object. }
  rewrite !Hs by (try apply json_tag_inert; constructor).
  unfold brace_candidate. rewrite E at 1.
  rewrite from_first_brace_skip by exact Hbrace. rewrite <- E.
  rewrite <- (app_nil_r obj) at 1. rewrite brace_scan_object by exact Hobj.
  now rewrite json_object_loads.
Qed.


(** A block tagged [json] is taken before an untagged block that comes
    first in the text. *)
Example tagged_block_before_plain_block :
  extract_json (fence ++ ch_newline :: py "[1]" ++ ch_newline :: fence ++
                py " then " ++
                fence ++ py "json" ++ ch_newline :: py "[2]" ++ ch_newline :: fence)
  = py "[2]".
Proof. reflexivity. Qed.



End ExtractJsonFacts.

(* ================================================================== *)
(** * Sentences *)
(* ================================================================== *)

Module SegmentationFacts.
Import PyStr PyStrFacts JsonText ExtractJson ExtractJsonFacts Segmentation.

(** A text with no white space at either end. *)
#[local] Abbreviation trimmed s := (s <> [] /\ strip s = s).

Lemma rstrip_last (s : pystr) :
  rstrip s = [] \/ exists r d, rstrip s = r ++ [d] /\ is_space d = false.
Proof.
  unfold rstrip. destruct (lstrip (rev s)) as [|d r] eqn:E; [now left|].
  right. exists (rev r), d. split; [reflexivity|].
  eapply lstrip_head; eassumption.
Qed.

Lemma strip_ends (s : pystr) c r :
  strip s = c :: r ->
  is_space c = false /\
  exists r' d, strip s = r' ++ [d] /\ is_space d = false.
Proof.
  intros E. split.
  - unfold strip in E. destruct (lstrip s) as [|c' l] eqn:El; [discriminate|].
    pose proof (lstrip_head _ _ _ El) as Hc.
    rewrite (rstrip_cons_nonspace c' l Hc) in E. now injection E as -> _.
  - destruct (rstrip_last (lstrip s)) as [E0 | (r' & d & E' & Hd)].
    + unfold strip in E. congruence.
    + exists r', d. split; [exact E' | exact Hd].
Qed.

Lemma trimmed_strip (s : pystr) : strip s <> [] -> trimmed (strip s).
Proof. intros H. split; [exact H | apply strip_idem]. Qed.

Lemma trimmed_ends (s : pystr) :
  trimmed s ->
  (exists c r, s = c :: r /\ is_space c = false) /\
  (exists r d, s = r ++ [d] /\ is_space d = false).
Proof.
  intros [Hne Hs]. destruct s as [|c r]; [congruence|].
  rewrite <- Hs. destruct (strip_ends _ _ _ Hs) as [Hc Hd]. split.
  - exists c, r. split; [exact Hs | exact Hc].
  - exact Hd.
Qed.

Lemma trimmed_app (a b mid : pystr) : trimmed a -> trimmed b -> trimmed (a ++ mid ++ b).
Proof.
  intros Ha Hb.
  destruct (proj1 (trimmed_ends a Ha)) as (c & r & -> & Hc).
  destruct (proj2 (trimmed_ends b Hb)) as (r' & d & -> & Hd).
  split; [discriminate|].
  replace ((c :: r) ++ mid ++ r' ++ [d]) with (c :: (r ++ mid ++ r') ++ [d])
    by (simpl; now rewrite <- !app_assoc).
  now apply strip_fixed.
Qed.

(** The merging loop keeps its sentences and its buffer trimmed. *)
Lemma merge_step_trimmed st part :
  Forall (fun s => trimmed s) (fst st) ->
  (snd st = [] \/ trimmed (snd st)) ->
  Forall (fun s => trimmed s) (fst (merge_step st part)) /\
  (snd (merge_step st part) = [] \/ trimmed (snd (merge_step st part))).
Proof.
  destruct st as [sentences buffer]. unfold merge_step. cbn [fst snd].
  intros Hs Hb.
  destruct (strip part) as [|c r] eqn:Ep; [now split|].
  assert (Hp : trimmed (c :: r)).
  { rewrite <- Ep. apply trimmed_strip. now rewrite Ep. }
  destruct buffer as [|b0 buffer]; [cbn [fst snd]; split; [exact Hs | now right]|].
  destruct Hb as [Hb | Hb]; [discriminate|].
  destruct (existsb _ _); cbn [fst snd].
  - split; [exact Hs|]. right.
    now apply (trimmed_app (b0 :: buffer) (c :: r) (py " ")).
  - split; [|now right]. apply Forall_app. split; [exact Hs|].
    now constructor.
Qed.

Lemma merge_trimmed parts st :
  Forall (fun s => trimmed s) (fst st) ->
  (snd st = [] \/ trimmed (snd st)) ->
  Forall (fun s => trimmed s) (fst (fold_left merge_step parts st)) /\
  (snd (fold_left merge_step parts st) = [] \/
   trimmed (snd (fold_left merge_step parts st))).
Proof.
  revert st; induction parts as [|p parts IH]; intros st Hs Hb; simpl;
    [now split|].
  destruct (merge_step_trimmed st p Hs Hb) as [Hs' Hb']. now apply IH.
Qed.

Section WithRazdel.

Variable razdel : option razdel_lib.

(** Whichever splitter is in use, every sentence that [split_sentences]
    returns is non-empty and has no white space at either end, and a
    blank text has no sentences. *)
Theorem split_sentences_trimmed (text : pystr) :
  Forall (fun s => s <> [] /\ strip s = s) (split_sentences razdel text) /\
  (strip text = [] -> split_sentences razdel text = []).
Proof.
  unfold split_sentences. split.
  - destruct (strip text) as [|c r]; [constructor|].
    destruct razdel as [lib|].
    + apply Forall_forall. intros s Hs. apply in_map_iff in Hs.
      destruct Hs as (x & <- & Hx). apply filter_In in Hx.
      destruct Hx as [_ Hx]. apply trimmed_strip.
      destruct (strip x); [discriminate | discriminate].
    + destruct (merge_trimmed (re_split_sentences [] [] (c :: r)) ([], []))
        as [Hs Hb]; [constructor | now left|].
      destruct (fold_left merge_step _ _) as [sentences buffer]. simpl in *.
      destruct buffer as [|b0 buffer]; [exact Hs|].
      apply Forall_app. split; [exact Hs|].
      destruct Hb as [Hb | Hb]; [discriminate | now constructor].
  - now intros ->.
Qed.

End WithRazdel.

Lemma split_sentences_trimmed_witness :
  split_sentences None (py "  ") = [].
Proof. apply (proj2 (split_sentences_trimmed None (py "  "))). reflexivity. Defined.

(** ** What the built-in splitter keeps *)

(** The characters of a text that are not white space. *)
#[local] Abbreviation ink s := (filter (fun c => negb (is_space c)) s).

Lemma ink_space (w : pystr) : Forall (fun c => is_space c = true) w -> ink w = [].
Proof.
  induction 1 as [|c w Hc _ IH]; simpl; [reflexivity|]. now rewrite Hc.
Qed.

Lemma ink_strip (s : pystr) : ink (strip s) = ink s.
Proof.
  assert (Hl : forall t, ink (lstrip t) = ink t).
  { intros t. destruct (lstrip_suffix t) as [w [E Hw]].
    rewrite E at 2. now rewrite filter_app, (ink_space w Hw). }
  assert (Hr : forall t, ink (rstrip t) = ink t).
  { intros t. unfold rstrip.
    rewrite <- (rev_involutive (ink t)), <- (rev_involutive (ink (rev _))).
    f_equal. rewrite <- !filter_rev, rev_involutive. apply Hl. }
  unfold strip. now rewrite Hr, Hl.
Qed.

Lemma ink_split cur pend s :
  Forall (fun c => is_space c = true) pend ->
  ink (concat (re_split_sentences cur pend s)) = ink (rev cur) ++ ink s.
Proof.
  revert cur pend; induction s as [|c s IH]; intros cur pend Hp; simpl.
  - rewrite !app_nil_r, rev_app_distr, filter_app.
    rewrite (ink_space (rev pend)) by now apply Forall_rev.
    now rewrite app_nil_r.
  - destruct pend as [|p pend].
    + destruct (is_space c && last_is_terminator cur) eqn:E.
      * apply andb_true_iff in E. destruct E as [Ec _].
        rewrite IH by (constructor; [exact Ec | constructor]).
        now rewrite Ec.
      * rewrite IH by constructor. simpl. rewrite filter_app. simpl.
        destruct (is_space c); simpl; now rewrite <- ?app_assoc, ?app_nil_r.
    + destruct (is_space c) eqn:Ec.
      * rewrite IH by (constructor; [exact Ec | exact Hp]). reflexivity.
      * simpl. destruct (is_starter c).
        -- simpl. rewrite filter_app, IH by constructor.
           simpl. now rewrite Ec.
        -- rewrite IH by constructor. simpl.
           rewrite !filter_app, rev_app_distr, filter_app. simpl.
           rewrite Ec. simpl.
           inversion Hp as [|? ? Hp0 Hp']; subst.
           rewrite (ink_space (rev pend)) by now apply Forall_rev.
           rewrite Hp0. simpl. now rewrite <- !app_assoc.
Qed.

Lemma ink_merge_step st part :
  ink (concat (fst (merge_step st part)) ++ snd (merge_step st part)) =
  ink (concat (fst st) ++ snd st) ++ ink part.
Proof.
  destruct st as [sentences buffer]. unfold merge_step. cbn [fst snd].
  rewrite <- (ink_strip part).
  destruct (strip part) as [|c r]; [cbn [fst snd filter]; now rewrite app_nil_r|].
  destruct buffer as [|b0 buffer]; cbn [fst snd].
  { now rewrite app_nil_r, filter_app. }
  destruct (existsb _ _); cbn [fst snd];
    generalize (b0 :: buffer) (c :: r); intros B P.
  - rewrite !filter_app. change (ink (py " ")) with (@nil ascii).
    simpl. now rewrite <- !app_assoc.
  - rewrite concat_app. cbn [concat]. rewrite app_nil_r, !filter_app.
    now rewrite <- !app_assoc.
Qed.

Lemma ink_merge parts st :
  ink (concat (fst (fold_left merge_step parts st)) ++
       snd (fold_left merge_step parts st)) =
  ink (concat (fst st) ++ snd st) ++ ink (concat parts).
Proof.
  revert st; induction parts as [|p parts IH]; intros st; simpl.
  - now rewrite app_nil_r.
  - rewrite IH, ink_merge_step, (filter_app _ p (concat parts)).
    now rewrite <- app_assoc.
Qed.

(** Without razdel, splitting into sentences neither loses nor adds a
    character other than white space: the sentences, read one after the
    other, spell the text. *)
Theorem split_sentences_keeps_text (text : pystr) :
  filter (fun c => negb (is_space c)) (concat (split_sentences None text)) =
  filter (fun c => negb (is_space c)) text.
Proof.
  unfold split_sentences. rewrite <- (ink_strip text).
  destruct (strip text) as [|c r]; [reflexivity|].
  pose proof (ink_merge (re_split_sentences [] [] (c :: r)) ([], [])) as Hm.
  rewrite ink_split in Hm by constructor. simpl in Hm.
  destruct (fold_left merge_step _ _) as [sentences buffer]. simpl in Hm.
  destruct buffer as [|b0 buffer].
  - rewrite app_nil_r in Hm. exact Hm.
  - rewrite concat_app. simpl. rewrite app_nil_r. exact Hm.
Qed.

End SegmentationFacts.

(* ================================================================== *)
(** * Paragraphs *)
(* ================================================================== *)

Module ParagraphsFacts.
Import PyStr PyStrFacts JsonText Regex ExtractJson ExtractJsonFacts
       Segmentation SegmentationFacts Paragraphs.

#[local] Abbreviation all_space w := (Forall (fun c => is_space c = true) w).
#[local] Abbreviation ink s := (filter (fun c => negb (is_space c)) s).

(** One alternative of the pattern: literal, white space, literal. *)
Lemma separator_split a z s rest :
  match_end [Lit a; Star is_space; Lit z] s = Some rest ->
  exists ws, s = a ++ ws ++ z ++ rest /\ all_space ws.
Proof.
  cbn [match_end].
  destruct (drop_prefix a s) as [s1|] eqn:E1; [|discriminate].
  apply drop_prefix_split in E1. subst s.
  intros H. apply star_loop_split in H. destruct H as (ws & s2 & -> & Hw & H).
  destruct (drop_prefix z s2) as [s3|] eqn:E3; [|discriminate].
  apply drop_prefix_split in E3. injection H as <-. subst s2.
  now exists ws.
Qed.

Lemma star_loop_complete cls (k : pystr -> option pystr) ws s :
  Forall (fun c => cls c = true) ws -> k s <> None ->
  star_loop cls k (ws ++ s) <> None.
Proof.
  intros Hw Hk. induction Hw as [|c ws Hc _ IH]; simpl.
  - destruct s as [|c s]; simpl; [exact Hk|].
    destruct (cls c); [|exact Hk].
    destruct (star_loop cls k s); [discriminate | exact Hk].
  - rewrite Hc. destruct (star_loop cls k (ws ++ s)); [discriminate | contradiction].
Qed.

Lemma separator_found a z ws rest :
  all_space ws ->
  match_end [Lit a; Star is_space; Lit z] (a ++ ws ++ z ++ rest) <> None.
Proof.
  intros Hw. cbn [match_end]. rewrite drop_prefix_app.
  apply star_loop_complete; [exact Hw|]. now rewrite drop_prefix_app.
Qed.

(** A match of the pattern passes white space only, and at least two
    characters of it. *)
Lemma blank_line_split s rest :
  match_alternatives blank_line s = Some rest ->
  exists c sep, s = (c :: sep) ++ rest /\ all_space (c :: sep).
Proof.
  unfold blank_line. cbn [match_alternatives].
  destruct (match_end [Lit [ch_newline]; _; _] s) as [r1|] eqn:E1.
  { intros [= <-]. apply separator_split in E1. destruct E1 as (ws & -> & Hw).
    exists ch_newline, (ws ++ [ch_newline]). split.
    - simpl. now rewrite <- app_assoc.
    - constructor; [reflexivity|]. apply Forall_app. split; [exact Hw|].
      now constructor. }
  destruct (match_end [Lit [ch_cr; _]; _; _] s) as [r2|] eqn:E2; [|discriminate].
  intros [= <-]. apply separator_split in E2. destruct E2 as (ws & -> & Hw).
  exists ch_cr, (ch_newline :: ws ++ [ch_cr; ch_newline]). split.
  - simpl. now rewrite <- app_assoc.
  - repeat constructor. apply Forall_app. split; [exact Hw|].
    now repeat constructor.
Qed.

(** Text after a match does not undo it. *)
Lemma blank_line_monotone s t :
  match_alternatives blank_line s <> None ->
  match_alternatives blank_line (s ++ t) <> None.
Proof.
  unfold blank_line. cbn [match_alternatives].
  destruct (match_end [Lit [ch_newline]; _; _] s) as [r1|] eqn:E1.
  { intros _. apply separator_split in E1. destruct E1 as (ws & -> & Hw).
    pose proof (separator_found [ch_newline] [ch_newline] ws (r1 ++ t) Hw) as H.
    replace (([ch_newline] ++ ws ++ [ch_newline] ++ r1) ++ t)
      with ([ch_newline] ++ ws ++ [ch_newline] ++ r1 ++ t)
      by (simpl; now rewrite <- !app_assoc).
    destruct (match_end _ _); [discriminate | contradiction]. }
  destruct (match_end [Lit [ch_cr; _]; _; _] s) as [r2|] eqn:E2; [|contradiction].
  intros _. apply separator_split in E2. destruct E2 as (ws & -> & Hw).
  pose proof (separator_found [ch_cr; ch_newline] [ch_cr; ch_newline] ws
                (r2 ++ t) Hw) as H.
  replace (([ch_cr; ch_newline] ++ ws ++ [ch_cr; ch_newline] ++ r2) ++ t)
    with ([ch_cr; ch_newline] ++ ws ++ [ch_cr; ch_newline] ++ r2 ++ t)
    by (simpl; now rewrite <- !app_assoc).
  destruct (match_end [Lit [ch_newline]; _; _] _); [discriminate|].
  destruct (match_end _ _); [discriminate | contradiction].
Qed.

Lemma blank_line_none s t :
  match_alternatives blank_line (s ++ t) = None ->
  match_alternatives blank_line s = None.
Proof.
  intros H. destruct (match_alternatives blank_line s) eqn:E; [|reflexivity].
  exfalso. apply (blank_line_monotone s t); [now rewrite E | exact H].
Qed.

(** ** The pieces *)

Lemma re_split_ink s : forall n cur,
  all_space (firstn n s) ->
  ink (concat (re_split blank_line n cur s)) = ink (rev cur) ++ ink s.
Proof.
  induction s as [|c s IH]; intros n cur Hn.
  - simpl. now rewrite !app_nil_r.
  - assert (Hadd : ink (concat (re_split blank_line 0 (c :: cur) s)) =
                   ink (rev cur) ++ ink (c :: s)).
    { rewrite IH by (simpl; constructor). simpl. rewrite filter_app. simpl.
      destruct (is_space c); simpl; now rewrite <- ?app_assoc, ?app_nil_r. }
    destruct n as [|n].
    + cbn [re_split].
      destruct (match_alternatives blank_line (c :: s)) as [rest|] eqn:E;
        [|exact Hadd].
      destruct (length (c :: s) - length rest) as [|m] eqn:El; [exact Hadd|].
      apply blank_line_split in E. destruct E as (c' & sep & E & Hs).
      injection E as <- ->.
      assert (m = length sep).
      { simpl in El. rewrite length_app in El. lia. }
      subst m. inversion Hs as [|? ? Hc Hsep]; subst.
      cbn [concat]. rewrite filter_app, IH.
      * simpl. now rewrite Hc.
      * now rewrite firstn_app, firstn_all, Nat.sub_diag, app_nil_r.
    + cbn [re_split]. simpl in Hn. inversion Hn as [|? ? Hc Hrest]; subst.
      rewrite IH by exact Hrest. simpl. now rewrite Hc.
Qed.

Lemma ink_nonblank (l : list pystr) :
  ink (concat (map strip (filter (fun p => nonempty (strip p)) l))) =
  ink (concat l).
Proof.
  induction l as [|p l IH]; simpl; [reflexivity|].
  rewrite filter_app, <- IH, <- (ink_strip p).
  destruct (strip p) as [|c r] eqn:E; simpl; [reflexivity|].
  now rewrite E, filter_app.
Qed.

Lemma unmatched_snoc piece c tail :
  unmatched piece (c :: tail) ->
  match_alternatives blank_line (c :: tail) = None ->
  unmatched (piece ++ [c]) tail.
Proof.
  intros Hq Hc a b E Hb.
  destruct (exists_last Hb) as (b0 & x & ->).
  rewrite app_assoc in E. apply app_inj_tail in E. destruct E as [-> ->].
  rewrite <- app_assoc. simpl.
  destruct b0 as [|y b0]; [exact Hc|].
  apply (Hq a (y :: b0) eq_refl). discriminate.
Qed.

Lemma unmatched_piece piece tail :
  unmatched piece tail ->
  forall a b, piece = a ++ b -> match_alternatives blank_line b = None.
Proof.
  intros Hq a b E. destruct b as [|c b]; [reflexivity|].
  apply (blank_line_none _ tail). apply (Hq a (c :: b) E). discriminate.
Qed.

Lemma re_split_unmatched s : forall n cur,
  (n = 0 -> unmatched (rev cur) s) ->
  (n <> 0 -> cur = []) ->
  Forall (fun piece => forall a b, piece = a ++ b ->
                                   match_alternatives blank_line b = None)
         (re_split blank_line n cur s).
Proof.
  induction s as [|c s IH]; intros n cur Hq Hcur.
  - simpl. constructor; [|constructor].
    destruct n as [|n].
    + now apply (unmatched_piece _ []), Hq.
    + rewrite Hcur by discriminate. intros [|x a] [|y b] E; try discriminate.
      reflexivity.
  - destruct n as [|n]; cbn [re_split].
    + specialize (Hq eq_refl).
      assert (Hadd : match_alternatives blank_line (c :: s) = None ->
                Forall (fun piece => forall a b, piece = a ++ b ->
                          match_alternatives blank_line b = None)
                       (re_split blank_line 0 (c :: cur) s)).
      { intros Hc. apply IH; [|congruence]. intros _. simpl.
        now apply unmatched_snoc. }
      destruct (match_alternatives blank_line (c :: s)) as [rest|] eqn:E;
        [|now apply Hadd].
      destruct (length (c :: s) - length rest) as [|m] eqn:El.
      * exfalso. apply blank_line_split in E.
        destruct E as (c' & sep & E & _). rewrite E in El.
        rewrite length_app in El. simpl in El. lia.
      * constructor; [now apply (unmatched_piece _ (c :: s))|].
        apply IH; [|reflexivity].
        intros -> a b Hab Hb. destruct a; destruct b; try discriminate.
        contradiction.
    + apply IH; [|intros _; apply Hcur; discriminate].
      intros ->. rewrite Hcur by discriminate.
      intros a b Hab Hb. destruct a; destruct b; try discriminate.
      contradiction.
Qed.

Lemma strip_inside (p : pystr) :
  exists l r, p = l ++ strip p ++ r.
Proof.
  destruct (lstrip_suffix p) as (l & El & _).
  assert (Hr : forall t : pystr, exists r, t = rstrip t ++ r).
  { intros t. unfold rstrip. destruct (lstrip_suffix (rev t)) as (w & Ew & _).
    exists (rev w). rewrite <- rev_app_distr, <- Ew. now rewrite rev_involutive. }
  destruct (Hr (lstrip p)) as (r & Er). exists l, r.
  unfold strip. now rewrite <- Er.
Qed.

(** [split_paragraphs] returns paragraphs that are non-empty, have no
    white space at either end, and contain no blank line: nowhere inside
    a paragraph does the separating pattern match.  A blank text has no
    paragraphs. *)
Theorem split_paragraphs_clean (text : pystr) :
  Forall (fun p => p <> [] /\ strip p = p /\
                   forall a b, p = a ++ b ->
                               match_alternatives blank_line b = None)
         (split_paragraphs text) /\
  (strip text = [] -> split_paragraphs text = []).
Proof.
  unfold split_paragraphs. split; [|now intros ->].
  apply Forall_forall. intros p Hp. apply in_map_iff in Hp.
  destruct Hp as (piece & <- & Hpiece). apply filter_In in Hpiece.
  destruct Hpiece as [Hin Hne].
  assert (Ht : strip piece <> []) by (destruct (strip piece); easy).
  split; [exact Ht|]. split; [apply strip_idem|].
  intros a b E.
  pose proof (re_split_unmatched (strip text) 0 []) as H.
  rewrite Forall_forall in H.
  destruct (strip_inside piece) as (l & r & Ep).
  apply (blank_line_none b r).
  apply (H ltac:(intros _ [|x a'] [|y b'] E'; try discriminate; contradiction)
           ltac:(congruence) piece Hin (l ++ a) (b ++ r)).
  rewrite Ep at 1. rewrite E. now rewrite <- !app_assoc.
Qed.

Lemma split_paragraphs_clean_witness :
  split_paragraphs (py "   ") = [] /\
  Forall (fun p => p <> [] /\ strip p = p)
         (split_paragraphs (py "One." ++ [ch_newline; ch_newline] ++ py "Two.")).
Proof.
  split.
  - apply (proj2 (split_paragraphs_clean (py "   "))). reflexivity.
  - eapply Forall_impl;
      [|exact (proj1 (split_paragraphs_clean
                        (py "One." ++ [ch_newline; ch_newline] ++ py "Two.")))].
    intros p (H1 & H2 & _). now split.
Defined.

(** Splitting into paragraphs neither loses nor adds a character other
    than white space. *)
Theorem split_paragraphs_keeps_text (text : pystr) :
  filter (fun c => negb (is_space c)) (concat (split_paragraphs text)) =
  filter (fun c => negb (is_space c)) text.
Proof.
  unfold split_paragraphs. rewrite ink_nonblank, re_split_ink by constructor.
  simpl. apply ink_strip.
Qed.

End ParagraphsFacts.

(* ================================================================== *)
(** * Syllables and sentence lengths *)
(* ================================================================== *)

Module ReadabilityBounds.
Import PyStr PyStrFacts Segmentation Readability.

Lemma syllable_groups word : forall count prev,
  fst (fold_left syllable_step word (count, prev)) <=
  count + length (filter is_vowel word).
Proof.
  induction word as [|ch word IH]; intros count prev; simpl; [lia|].
  destruct (is_vowel ch) eqn:E; simpl.
  - destruct prev; simpl; etransitivity; try apply IH; simpl; lia.
  - etransitivity; [apply IH | lia].
Qed.

Lemma filter_length_le {A} (keep : A -> bool) (l : list A) :
  length (filter keep l) <= length l.
Proof. induction l as [|x l IH]; simpl; [lia|]. destruct (keep x); simpl; lia. Qed.

(** [_count_syllables] gives 0 exactly for a blank word, never more
    than the number of characters of the trimmed word, and, outside
    Russian, at least 1 for a word that is not blank and at most the
    number of its vowels when it has one. *)
Theorem count_syllables_bounds (word language : pystr) :
  let w := strip (lower word) in
  let n := _count_syllables word language in
  (n = 0 -> str_eqb language (py "ru") = false -> w = []) /\
  (w = [] -> n = 0) /\
  n <= length w /\
  (str_eqb language (py "ru") = false -> w <> [] ->
   1 <= n /\ n <= Nat.max 1 (length (filter is_vowel w))).
Proof.
  cbv zeta. unfold _count_syllables.
  destruct (strip (lower word)) as [|c r] eqn:Ew.
  { split; [trivial|]. split; [trivial|]. split; [simpl; lia|].
    intros _ Hne. congruence. }
  set (w := c :: r).
  pose proof (syllable_groups w 0 false) as Hg. cbn [Nat.add] in Hg.
  pose proof (filter_length_le is_vowel w) as Hv.
  assert (Hlen : 1 <= length w) by (simpl; lia).
  destruct (str_eqb language (py "ru")).
  - split; [discriminate|]. split; [discriminate|]. split; [exact Hv|].
    discriminate.
  - set (g := fst (fold_left syllable_step w (0, false))) in *.
    assert (Hn : (if endswith (py "e") w && (1 <? g) then g - 1 else g) <= g)
      by (destruct (endswith (py "e") w && (1 <? g)); lia).
    split; [intros Hz; lia|]. split; [discriminate|]. split; [lia|].
    intros _ _. split; lia.
Qed.

Lemma count_syllables_bounds_witness :
  1 <= _count_syllables (py "Readable") (py "en") /\
  _count_syllables (py "Readable") (py "en") <= 4.
Proof.
  assert (H : strip (lower (py "Readable")) <> []) by discriminate.
  destruct (proj2 (proj2 (proj2 (count_syllables_bounds (py "Readable") (py "en"))))
              eq_refl H) as [H1 H2].
  split; [exact H1 | exact H2].
Defined.

Section WithFloat.

Context {F : Type} `{PyFloat F}.
Variable razdel : option razdel_lib.

Lemma filter_length_mono {A} (p q : A -> bool) (l : list A) :
  (forall x, p x = true -> q x = true) ->
  length (filter p l) <= length (filter q l).
Proof.
  intros Hpq. induction l as [|x l IH]; simpl; [lia|].
  destruct (p x) eqn:Ep.
  - rewrite (Hpq x Ep). simpl. lia.
  - destruct (q x); simpl; lia.
Qed.

(** The sentences counted as very long (over 40 words) are among those
    counted as long (over 25), which are among the sentences of the
    text; a text with no word or no sentence gets the default metrics,
    with both counts at 0 and no reading-ease score. *)
Theorem readability_counts (text language : pystr) :
  let m := compute_readability razdel text language in
  very_long_sentence_count m <= long_sentence_count m /\
  long_sentence_count m <= length (split_sentences razdel text) /\
  (findall_words text = [] \/ split_sentences razdel text = [] ->
   m = default_metrics).
Proof.
  cbv zeta. unfold compute_readability.
  destruct (findall_words text) as [|w ws] eqn:Ew.
  { simpl. repeat split; try lia. }
  destruct (split_sentences razdel text) as [|s ss] eqn:Es.
  { simpl. repeat split; lia. }
  cbn [very_long_sentence_count long_sentence_count].
  split; [|split].
  - apply filter_length_mono. intros x Hx.
    apply Nat.ltb_lt in Hx. apply Nat.ltb_lt. lia.
  - etransitivity; [apply filter_length_le|]. now rewrite length_map.
  - intros [E | E]; discriminate.
Qed.

End WithFloat.

Lemma readability_counts_witness :
  compute_readability (F := Q) None (py "   ") (py "en") = default_metrics.
Proof.
  apply (proj2 (proj2 (readability_counts (F := Q) None (py "   ") (py "en")))).
  left. reflexivity.
Defined.

End ReadabilityBounds.

(* ================================================================== *)
(** * Configuration and redaction *)
(* ================================================================== *)

Module ConfigFacts.
Import PyStr PyStrFacts Py Json Segmentation Config.
#[local] Open Scope py_scope.

(** ** redact *)

Lemma redact_short (value : pystr) (keep : Z) :
  (Z.of_nat (length value) <= keep)%Z -> redact value keep = py "***".
Proof.
  intros H. unfold redact. apply Z.leb_le in H. rewrite H.
  now rewrite orb_true_r.
Qed.

Lemma redact_long (value : pystr) (keep : Z) :
  (0 < keep < Z.of_nat (length value))%Z ->
  redact value keep =
  repeat "*"%char (length value - Z.to_nat keep) ++
  skipn (length value - Z.to_nat keep) value.
Proof.
  intros [Hk Hl]. unfold redact, stars, slice_from.
  destruct value as [|c r]; [simpl in Hl; lia|]. cbn [nonempty negb orb].
  replace (Z.of_nat (length (c :: r)) <=? keep)%Z with false
    by (symmetry; apply Z.leb_gt; exact Hl).
  replace (- keep <? 0)%Z with true by (symmetry; apply Z.ltb_lt; lia).
  rewrite Z.max_r by lia.
  replace (Z.of_nat (length (c :: r)) + - keep)%Z
    with (Z.of_nat (length (c :: r)) - keep)%Z by lia.
  now rewrite Z2Nat.inj_sub, Nat2Z.id by lia.
Qed.

Lemma redact_long_length (value : pystr) (keep : Z) :
  (0 < keep < Z.of_nat (length value))%Z ->
  length (redact value keep) = length value.
Proof.
  intros Hk. rewrite redact_long by exact Hk.
  rewrite length_app, repeat_length, length_skipn. lia.
Qed.

(** With a positive [keep], [redact] shows at most the last [keep]
    characters: a value of [keep] characters or fewer becomes three
    stars, a longer one keeps its length, with stars for all but its
    last [keep] characters. *)
Theorem redact_masks (value : pystr) (keep : Z) :
  (0 < keep)%Z ->
  ((Z.of_nat (length value) <= keep)%Z -> redact value keep = py "***") /\
  ((keep < Z.of_nat (length value))%Z ->
   redact value keep =
     repeat "*"%char (length value - Z.to_nat keep) ++
     skipn (length value - Z.to_nat keep) value /\
   length (redact value keep) = length value).
Proof.
  intros Hk. split; [apply redact_short|].
  intros Hl. split; [apply redact_long | apply redact_long_length]; lia.
Qed.

Lemma redact_masks_witness :
  redact (py "sk-1234567890abcdef") 4 = py "***************cdef" /\
  redact (py "abc") 4 = py "***".
Proof.
  split.
  - exact (proj1 (proj2 (redact_masks (py "sk-1234567890abcdef") 4 eq_refl)
                    eq_refl)).
  - apply (proj1 (redact_masks (py "abc") 4 eq_refl)). discriminate.
Defined.

(** With [keep] at 0 or below nothing is masked the way the name
    promises: the stars are followed by [value[-keep:]], which for
    [keep = 0] is the whole value. *)
Theorem redact_without_keep (value : pystr) (keep : Z) :
  (keep <= 0)%Z -> value <> [] ->
  redact value keep =
    repeat "*"%char (length value + Z.to_nat (- keep)) ++
    skipn (Z.to_nat (- keep)) value /\
  (keep = 0%Z -> redact value keep = repeat "*"%char (length value) ++ value).
Proof.
  intros Hk Hne.
  assert (E : redact value keep =
              repeat "*"%char (length value + Z.to_nat (- keep)) ++
              skipn (Z.to_nat (- keep)) value).
  { unfold redact, stars, slice_from.
    destruct value as [|c r]; [congruence|]. cbn [nonempty negb orb].
    assert (Hpos : (0 < Z.of_nat (length (c :: r)))%Z) by (simpl; lia).
    replace (Z.of_nat (length (c :: r)) <=? keep)%Z with false
      by (symmetry; apply Z.leb_gt; lia).
    replace (- keep <? 0)%Z with false by (symmetry; apply Z.ltb_ge; lia).
    replace (Z.to_nat (Z.of_nat (length (c :: r)) - keep))
      with (length (c :: r) + Z.to_nat (- keep)) by lia.
    f_equal.
    destruct (Z.le_gt_cases (- keep) (Z.of_nat (length (c :: r)))) as [Hle | Hgt].
    - now rewrite Z.min_r by lia.
    - rewrite Z.min_l, Nat2Z.id by lia.
      rewrite !skipn_all2; trivial; lia. }
  split; [exact E|]. intros ->. rewrite E. simpl. now rewrite Nat.add_0_r.
Qed.

Lemma redact_without_keep_witness :
  redact (py "secret") 0 = py "******secret".
Proof.
  exact (proj2 (redact_without_keep (py "secret") 0 ltac:(discriminate)
                  ltac:(discriminate)) eq_refl).
Defined.

Lemma redact_idempotent (value : pystr) (keep : Z) :
  (0 < keep)%Z -> redact (redact value keep) keep = redact value keep.
Proof.
  intros Hk.
  destruct (Z.le_gt_cases (Z.of_nat (length value)) keep) as [Hs | Hl].
  - rewrite (redact_short value keep Hs).
    destruct (Z.le_gt_cases 3 keep) as [H3 | H3]; [now apply redact_short|].
    assert (Hcase : keep = 1%Z \/ keep = 2%Z) by lia.
    destruct Hcase as [-> | ->]; reflexivity.
  - assert (E := redact_long value keep ltac:(lia)).
    assert (Hlen := redact_long_length value keep ltac:(lia)).
    rewrite (redact_long (redact value keep) keep) by lia.
    rewrite Hlen. rewrite E.
    rewrite skipn_app, repeat_length, Nat.sub_diag.
    rewrite skipn_all2 by (rewrite repeat_length; lia).
    reflexivity.
Qed.

Lemma redact_nonempty (value : pystr) : nonempty (redact value 4) = true.
Proof.
  destruct (Z.le_gt_cases (Z.of_nat (length value)) 4) as [Hs | Hl].
  - now rewrite (redact_short value 4 Hs).
  - assert (Hlen := redact_long_length value 4 ltac:(lia)).
    destruct (redact value 4); [simpl in Hlen; lia | reflexivity].
Qed.

Section WithFloat.

Context {F : Type} `{PyFloat F}.

(** ** redact_dict *)

Lemma lookup_map_values (g : pystr -> json F -> json F) k entries :
  lookup k (map (fun kv => (fst kv, g (fst kv) (snd kv))) entries) =
  option_map (g k) (lookup k entries).
Proof.
  induction entries as [|[k' v] entries IH]; simpl; [reflexivity|].
  destruct (str_eqb k' k) eqn:E; [|exact IH].
  apply str_eqb_eq in E. now subst k'.
Qed.

Lemma redact_value_at_path keys path : forall k0 (v : json F) k,
  lookup_path (redact_value keys k0 v) (path ++ [k]) =
  option_map (redact_value keys k) (lookup_path v (path ++ [k])).
Proof.
  induction path as [|k1 path IH]; intros k0 v k.
  - destruct v as [| | | |s|items|entries]; simpl; try reflexivity.
    + destruct (mem k0 keys && nonempty s); reflexivity.
    + rewrite lookup_map_values. now destruct (lookup k entries).
  - destruct v as [| | | |s|items|entries]; simpl; try reflexivity.
    + destruct (mem k0 keys && nonempty s); reflexivity.
    + rewrite lookup_map_values. destruct (lookup k1 entries) as [x|]; simpl.
      * apply IH.
      * reflexivity.
Qed.

(** [redact_dict] reaches every value that lies under nested dicts, and
    only those: following any path of keys, the result holds the
    original value, masked when it is a non-empty string under a secret
    key and redacted in turn when it is a dict; strings under other
    keys, numbers and lists (with whatever they hold) are kept. *)
Theorem redact_dict_at_paths (d : list (pystr * json F)) (keys path : list pystr)
  (k : pystr) :
  let secret := match keys with [] => _SECRET_KEYS | _ :: _ => keys end in
  lookup_path (JDict (redact_dict d keys)) (path ++ [k]) =
    option_map (redact_value secret k) (lookup_path (JDict d) (path ++ [k])) /\
  (forall s, redact_value secret k (JStr s : json F) =
             if mem k secret && nonempty s then JStr (redact s 4) else JStr s) /\
  (forall items, redact_value secret k (JList items : json F) = JList items).
Proof.
  cbv zeta. split; [|split; reflexivity].
  apply (redact_value_at_path _ path k (JDict d) k).
Qed.

(** Induction over decoded values. *)
Lemma json_induction (P : json F -> Prop) :
  P JNull -> (forall b, P (JBool b)) -> (forall z, P (JInt z)) ->
  (forall x, P (JFloat x)) -> (forall s, P (JStr s)) ->
  (forall items, Forall P items -> P (JList items)) ->
  (forall entries, Forall (fun kv => P (snd kv)) entries -> P (JDict entries)) ->
  forall v, P v.
Proof.
  intros Hnull Hbool Hint Hfloat Hstr Hlist Hdict.
  fix IH 1. intros [| b | z | x | s | items | entries].
  - exact Hnull.
  - apply Hbool.
  - apply Hint.
  - apply Hfloat.
  - apply Hstr.
  - apply Hlist. induction items as [|v items IHi]; constructor; [apply IH | exact IHi].
  - apply Hdict. induction entries as [|[k v] entries IHe]; constructor;
      [apply IH | exact IHe].
Qed.

Lemma redact_value_idempotent keys (v : json F) : forall k,
  redact_value keys k (redact_value keys k v) = redact_value keys k v.
Proof.
  induction v as [| b | z | x | s | items _ | entries IH] using json_induction;
    intros k; try reflexivity.
  - simpl. destruct (mem k keys && nonempty s) eqn:E; simpl; [|now rewrite E].
    apply andb_true_iff in E. destruct E as [Ek _].
    now rewrite Ek, redact_nonempty, redact_idempotent.
  - simpl. f_equal. rewrite map_map. simpl.
    induction IH as [|[k' v'] entries Hv _ IHe]; simpl; [reflexivity|].
    f_equal; [|exact IHe]. f_equal. apply Hv.
Qed.

(** Redacting a redacted dict changes nothing: a masked secret is not
    masked further. *)
Theorem redact_dict_idempotent (d : list (pystr * json F)) (keys : list pystr) :
  redact_dict (redact_dict d keys) keys = redact_dict d keys.
Proof.
  unfold redact_dict. rewrite map_map. simpl.
  induction d as [|[k v] d IH]; simpl; [reflexivity|].
  f_equal; [|exact IH]. f_equal. apply redact_value_idempotent.
Qed.

(** ** to_dict and _from_dict *)

(** Reading back what [to_dict(safe=False)] wrote gives the same
    configuration. *)
Theorem from_dict_to_dict (cfg : PipelineConfig (F:=F)) :
  _from_dict (JDict (to_dict cfg false)) = Ok cfg.
Proof.
  destruct cfg as [mi mr [] [] pr [] key ea ec vb sp rs]. reflexivity.
Qed.

Lemma redact_scalar keys k (v : json F) :
  scalar v = true ->
  redact_value keys k v = if mem k keys then mask v else v.
Proof.
  destruct v as [| | | |s| |]; try discriminate; intros _; simpl;
    now destruct (mem k keys).
Qed.


Lemma simple_field_dict d k (default : json F) :
  simple_field (JDict d) k default =
  Ok (match lookup (py k) d with Some v => v | None => default end).
Proof.
  unfold simple_field. simpl. now destruct (lookup (py k) d).
Qed.

(** A [models.audit] section that is present replaces the audit model
    wholesale: a key it does not name gets the default of [ModelConfig]
    (the primary model's), not the default the audit model has when the
    section is absent. *)
Theorem audit_section_replaces_defaults
  (d models section : list (pystr * json F)) (cfg : PipelineConfig) :
  lookup (py "models") d = Some (JDict models) ->
  lookup (py "audit") models = Some (JDict section) ->
  _from_dict (JDict d) = Ok cfg ->
  let field key (proj : ModelConfig -> json F) :=
    proj (audit cfg) =
    match lookup (py key) section with
    | Some v => v
    | None => proj default_model
    end in
  field "model" model /\ field "temperature" temperature /\
  field "top_p" top_p /\ field "max_tokens" max_tokens /\
  field "timeout" timeout /\ field "retries" retries.
Proof.
  intros Hm Ha. unfold _from_dict. rewrite !simple_field_dict.
  cbn [Py.bind]. unfold get at 1. rewrite Hm.
  unfold model_field at 2. cbn [contains subscript Py.bind]. rewrite Ha.
  cbn [Py.bind].
  intros Hcfg.
  destruct (model_field (JDict models) "primary" _) as [p|e]; [|discriminate].
  cbn [Py.bind] in Hcfg.
  destruct (get (JDict d) (py "litellm") (JDict [])) as [ll|e]; [|discriminate].
  cbn [Py.bind] in Hcfg.
  match type of Hcfg with
  | context [if truthy ll then ?a else ?b] =>
      destruct (if truthy ll then a else b) as [l|e]; [|discriminate]
  end.
  cbn [Py.bind] in Hcfg. injection Hcfg as <-. cbv zeta.
  repeat split.
Qed.

(** [_from_dict] looks at its eleven keys and nothing else: two dicts
    that agree on them give the same configuration, or the same error. *)
Theorem from_dict_ignores_unknown_keys (d d' : list (pystr * json F)) :
  Forall (fun k => lookup k d = lookup k d') known_keys ->
  _from_dict (JDict d) = _from_dict (JDict d').
Proof.
  intros Hk. unfold known_keys in Hk. cbn [map] in Hk.
  repeat match goal with
         | Hx : Forall _ (_ :: _) |- _ =>
             let E := fresh "E" in
             apply Forall_cons_iff in Hx; destruct Hx as [E Hx]
         end.
  unfold _from_dict. rewrite !simple_field_dict. unfold get.
  now rewrite E, E0, E1, E2, E3, E4, E5, E6, E7, E8, E9.
Qed.

Lemma from_dict_secrets (d : list (pystr * json F)) (cfg : PipelineConfig) :
  _from_dict (JDict d) = Ok cfg ->
  openai_api_key cfg =
    match lookup (py "openai_api_key") d with Some v => v | None => jstr "" end /\
  get (match lookup (py "litellm") d with Some v => v | None => JDict [] end)
      (py "base_url") (jstr "http://localhost:4000") = Ok (base_url (litellm cfg)) \/
  openai_api_key cfg =
    match lookup (py "openai_api_key") d with Some v => v | None => jstr "" end /\
  truthy (match lookup (py "litellm") d with Some v => v | None => JDict [] end)
    = false /\
  litellm cfg = default_litellm.
Proof.
  unfold _from_dict. rewrite !simple_field_dict. cbn [Py.bind].
  destruct (get (JDict d) (py "models") (JDict [])) as [models|e];
    [|discriminate]. cbn [Py.bind].
  destruct (model_field models "primary" _) as [p|e]; [|discriminate].
  cbn [Py.bind].
  destruct (model_field models "audit" _) as [a|e]; [|discriminate].
  cbn [Py.bind]. unfold get at 1. cbn [Py.bind].
  set (ll := match lookup (py "litellm") d with Some v => v | None => JDict [] end).
  destruct (truthy ll) eqn:Et.
  - destruct (get ll (py "base_url") _) as [bu|e] eqn:Eb; [|discriminate].
    cbn [Py.bind].
    destruct (get ll (py "api_key") _) as [ak|e]; [|discriminate].
    cbn [Py.bind]. intros [= <-]. left. now split.
  - cbn [Py.bind]. intros [= <-]. right. now split.
Qed.

(** What the environment can change.  [OPENAI_API_KEY] is used when the
    file gives no key or an empty one, never over a key the file gives.
    [LITELLM_BASE_URL] is used only when the file sets [base_url] to an
    empty value: without a [litellm] section, or with one that does not
    name [base_url], the built-in address stays whatever the variable
    says. *)
Theorem load_environment (d : list (pystr * json F)) (getenv : pystr -> pystr)
  (cfg : PipelineConfig) :
  load (Some (JDict d)) getenv = Ok cfg ->
  (forall v, lookup (py "openai_api_key") d = Some v -> truthy v = true ->
             openai_api_key cfg = v) /\
  (lookup (py "openai_api_key") d = None ->
   openai_api_key cfg = JStr (getenv (py "OPENAI_API_KEY"))) /\
  (lookup (py "litellm") d = None ->
   base_url (litellm cfg) = jstr "http://localhost:4000") /\
  (forall ll, lookup (py "litellm") d = Some (JDict ll) ->
              lookup (py "base_url") ll = None ->
              base_url (litellm cfg) = jstr "http://localhost:4000").
Proof.
  unfold load. destruct (_from_dict (JDict d)) as [c|e] eqn:E; [|discriminate].
  cbn [Py.bind]. intros [= <-].
  cbn [openai_api_key litellm base_url].
  apply from_dict_secrets in E. unfold env_default.
  split; [|split; [|split]].
  - intros v Hv Ht.
    assert (Ek : openai_api_key c = v) by (destruct E as [[-> _]|[-> _]]; now rewrite Hv).
    rewrite Ek, Ht. now rewrite andb_false_r.
  - intros Hv.
    assert (Ek : openai_api_key c = jstr "")
      by (destruct E as [[-> _]|[-> _]]; now rewrite Hv).
    rewrite Ek. destruct (getenv _); reflexivity.
  - intros Hl. rewrite Hl in E.
    destruct E as [[_ Eb]|[_ [_ ->]]].
    + injection Eb as <-. cbn. now rewrite andb_false_r.
    + cbn. now rewrite andb_false_r.
  - intros ll Hl Hb. rewrite Hl in E.
    destruct E as [[_ Eb]|[_ [_ ->]]].
    + cbn [get] in Eb. rewrite Hb in Eb. injection Eb as <-.
      cbn. now rewrite andb_false_r.
    + cbn. now rewrite andb_false_r.
Qed.

End WithFloat.

Lemma load_environment_witness :
  exists cfg,
    load (Some (JDict [(py "provider", JStr (py "litellm"))]))
         (fun name => if str_eqb name (py "LITELLM_BASE_URL")
                      then py "http://proxy:9000" else py "sk-env") = Ok cfg /\
    base_url (litellm cfg) = JStr (py "http://localhost:4000") /\
    openai_api_key cfg = JStr (F:=Q) (py "sk-env").
Proof.
  eexists. split; [reflexivity|].
  pose proof (load_environment (F:=Q)
                [(py "provider", JStr (py "litellm"))]
                (fun name => if str_eqb name (py "LITELLM_BASE_URL")
                             then py "http://proxy:9000" else py "sk-env")
                _ eq_refl) as [_ [Hkey [Hurl _]]].
  split; [exact (Hurl eq_refl) | exact (Hkey eq_refl)].
Defined.

Lemma audit_section_replaces_defaults_witness :
  exists cfg,
    _from_dict (JDict [(py "models", JDict [(py "audit",
                 JDict [(py "temperature", JFloat (f_lit (F:=Q) 0.1))])])])
      = Ok cfg /\
              timeout (audit cfg) = JInt 120 /\
              timeout (audit (default_config (F:=Q))) = JInt 90.
Proof.
  eexists. split; [reflexivity|]. split; [|reflexivity].
  exact (proj1 (proj2 (proj2 (proj2 (proj2
    (audit_section_replaces_defaults
       [(py "models",
         JDict [(py "audit", JDict [(py "temperature", JFloat (f_lit (F:=Q) 0.1))])])]
       [(py "audit", JDict [(py "temperature", JFloat (f_lit (F:=Q) 0.1))])]
       [(py "temperature", JFloat (f_lit (F:=Q) 0.1))]
       _ eq_refl eq_refl eq_refl)))))).
Defined.

Lemma from_dict_ignores_unknown_keys_witness :
  _from_dict (F:=Q) (JDict [(py "verbosity", JInt 2); (py "colour", JStr (py "red"))])
  = _from_dict (JDict [(py "verbosity", JInt 2)]).
Proof.
  apply from_dict_ignores_unknown_keys. repeat constructor.
Defined.


End ConfigFacts.
